(** * ECG pulse measurement: frame protocol, parser and beat detection

    A shallow embedding of the Python sources

    - [utils.py]           (CRC-16/CCITT-FALSE),
    - [virtual_sender.py]  (frame encoder [make_frame] and the sending
                            loop of [main]),
    - [parser.py]          (resynchronising frame decoder [Parser.feed]),
    - [main.py]            (per-byte time stamping, R-peak detection and
                            rate estimation of [MainWindow]; the copy
                            [src/main.py] has the same code for them;
                            its plot buffers, conversion to volts,
                            vertical zoom and the window drawn by
                            [on_timer]),

    followed by the properties proved about them.

    Conventions.  Python [bytes]/[bytearray] values are lists of [byte];
    Python integers are [Z]; Python floats are the kernel's binary64
    floats ([PrimFloat.float]), whose operations round to nearest-even as
    CPython's do.  A Python call that can raise returns an [option]
    ([None] = the exception). *)

From Stdlib Require Import ZArith List Lia Bool Arith Sorted.
From Stdlib Require Import Strings.Byte.
From Stdlib Require Import Floats.
From Stdlib Require Import Reals Lra.
Import ListNotations.

Set Warnings "-inexact-float".
Local Open Scope Z_scope.

(* ================================================================= *)
(** * Python values *)

Definition bytes := list byte.

(** [len(l)] as a Python integer. *)
Definition len {A} (l : list A) : Z := Z.of_nat (length l).

(** [int(b)] for an element [b] of a [bytes] object. *)
Definition byte_val (b : byte) : Z := Z.of_N (Byte.to_N b).

(** [bytes([z])]: a [ValueError] outside [range(0, 256)]. *)
Definition bytes_of_int (z : Z) : option bytes :=
  if (0 <=? z) && (z <? 256)
  then option_map (fun b => [b]) (Byte.of_N (Z.to_N z))
  else None.

(** The byte whose value is [z mod 256]. *)
Definition byte_of_Z (z : Z) : byte :=
  match Byte.of_N (Z.to_N (z mod 256)) with
  | Some b => b
  | None => x00
  end.

(** [l[start:stop]] for non-negative [start] and [stop]. *)
Definition slice {A} (l : list A) (start stop : nat) : list A :=
  firstn (stop - start) (skipn start l).

(** [struct.pack('<H', v)]: two bytes, least significant first; a
    [struct.error] when [v] is not an unsigned 16-bit value. *)
Definition pack_H (v : Z) : option bytes :=
  if (0 <=? v) && (v <=? 0xFFFF)
  then Some [byte_of_Z v; byte_of_Z (Z.shiftr v 8)]
  else None.

(** [struct.pack('<HH', a, b)]. *)
Definition pack_HH (a b : Z) : option bytes :=
  match pack_H a, pack_H b with
  | Some x, Some y => Some (x ++ y)
  | _, _ => None
  end.

(** [struct.unpack('<H', bs)[0]]: the buffer must hold exactly two bytes. *)
Definition unpack_H (bs : bytes) : option Z :=
  match bs with
  | [lo; hi] => Some (byte_val lo + 256 * byte_val hi)
  | _ => None
  end.

(** [struct.unpack_from('<HH', buf, off)]: needs four bytes from [off]. *)
Definition unpack_from_HH (buf : bytes) (off : nat) : option (Z * Z) :=
  match skipn off buf with
  | a0 :: a1 :: b0 :: b1 :: _ =>
      Some (byte_val a0 + 256 * byte_val a1, byte_val b0 + 256 * byte_val b1)
  | _ => None
  end.

(** [buf.startswith(sub)]. *)
Fixpoint startswith (buf sub : bytes) {struct sub} : bool :=
  match sub, buf with
  | [], _ => true
  | s :: sub', b :: buf' => Byte.eqb b s && startswith buf' sub'
  | _ :: _, [] => false
  end.

(** [buf.find(sub)], counting from [pos]: the lowest index where [sub]
    occurs, [-1] when it does not. *)
Fixpoint find_from (buf sub : bytes) (pos : Z) : Z :=
  if startswith buf sub then pos
  else match buf with
       | [] => -1
       | _ :: buf' => find_from buf' sub (pos + 1)
       end.

Definition find (buf sub : bytes) : Z := find_from buf sub 0.

(** ** Floats and lists *)

(** The binary64 value nearest to an integer, ties to even; an infinity
    when the integer is too large. *)
Definition to_float (z : Z) : float :=
  SF2Prim (binary_normalize prec emax z 0 false).

(** [float(z)] for a Python integer: [to_float z], and an
    [OverflowError] when that is infinite.  The same conversion takes
    place when an integer meets a float in an arithmetic operation. *)
Definition float_of_int (z : Z) : option float :=
  let f := to_float z in
  if is_infinity f then None else Some f.

(** [round(x)] for a float, without a number of digits: the nearest
    integer, ties to even; a [ValueError] for NaN, an [OverflowError] for
    an infinity. *)
Definition py_round (x : float) : option Z :=
  match Prim2SF x with
  | S754_zero _ => Some 0
  | S754_finite s m e =>
      let mag :=
        if 0 <=? e then Z.pos m * 2 ^ e
        else
          let d := 2 ^ (- e) in
          let q := Z.pos m / d in
          let r := Z.pos m mod d in
          if 2 * r <? d then q
          else if d <? 2 * r then q + 1
          else if Z.even q then q else q + 1 in
      Some (if s then - mag else mag)
  | S754_infinity _ => None
  | S754_nan => None
  end.

(** [sum(xs)] for a list of floats: the additions from left to right,
    starting from 0.  (CPython 3.12 and later compensate the rounding
    errors of this sum, which can change its last bits.) *)
Definition py_sum (xs : list float) : float := fold_left PrimFloat.add xs 0%float.

(** [min(xs)] and [max(xs)]: the first element, replaced by each later
    one that compares below (above) it; a [ValueError] on the empty list. *)
Definition py_min (xs : list float) : option float :=
  match xs with
  | [] => None
  | x :: rest => Some (fold_left (fun m v => if (v <? m)%float then v else m) rest x)
  end.

Definition py_max (xs : list float) : option float :=
  match xs with
  | [] => None
  | x :: rest => Some (fold_left (fun m v => if (m <? v)%float then v else m) rest x)
  end.

(** [range(a, b)]. *)
Definition py_range (a b : Z) : list Z :=
  map (fun k => a + Z.of_nat k) (seq 0 (Z.to_nat (b - a))).

(** [l[i]]: negative indices count from the end; an [IndexError] outside
    the list. *)
Definition getitem {A} (l : list A) (i : Z) : option A :=
  let j := if i <? 0 then i + len l else i in
  if j <? 0 then None else nth_error l (Z.to_nat j).

(** [l[i]] where the index is known to be inside the list (the loop of
    [detect_r_peaks]; see [scan_indices_inside]). *)
Definition item (l : list float) (i : Z) : float := nth (Z.to_nat i) l 0%float.

(** [[f(x) for x in l]] where [f] can raise. *)
Fixpoint map_opt {A B} (f : A -> option B) (l : list A) : option (list B) :=
  match l with
  | [] => Some []
  | x :: l' =>
      match f x, map_opt f l' with
      | Some y, Some ys => Some (y :: ys)
      | _, _ => None
      end
  end.

(** [d.append(x)] on a [deque] of maximal length [maxlen]. *)
Definition deque_append {A} (maxlen : nat) (d : list A) (x : A) : list A :=
  skipn (length (d ++ [x]) - maxlen) (d ++ [x]).

(** A number that is a Python [int] or a Python [float]. *)
Inductive number : Type :=
| Int (z : Z)
| Float (f : float).

(** [int(x)] for a float: the integer part, toward zero; a [ValueError]
    for NaN, an [OverflowError] for an infinity. *)
Definition py_int (x : float) : option Z :=
  match Prim2SF x with
  | S754_zero _ => Some 0
  | S754_finite s m e =>
      let mag := if 0 <=? e then Z.pos m * 2 ^ e else Z.pos m / 2 ^ (- e) in
      Some (if s then - mag else mag)
  | S754_infinity _ => None
  | S754_nan => None
  end.

(* ================================================================= *)
(** * utils.py *)

Module Utils.

(** One pass of the inner loop of [crc16_ccitt]:
<<
    if crc & 0x8000: crc = ((crc << 1) & 0xFFFF) ^ poly
    else:            crc = (crc << 1) & 0xFFFF
>> *)
Definition crc_round (poly crc : Z) : Z :=
  if negb (Z.land crc 0x8000 =? 0)
  then Z.lxor (Z.land (Z.shiftl crc 1) 0xFFFF) poly
  else Z.land (Z.shiftl crc 1) 0xFFFF.

(** The body of the outer loop: [crc ^= b << 8] and eight rounds. *)
Definition crc_update (poly crc : Z) (b : byte) : Z :=
  Nat.iter 8 (crc_round poly) (Z.lxor crc (Z.shiftl (byte_val b) 8)).

(** [crc16_ccitt(data, poly, init_val)]. *)
Definition crc16_ccitt_with (data : bytes) (poly init_val : Z) : Z :=
  Z.land (fold_left (crc_update poly) data init_val) 0xFFFF.

(** [crc16_ccitt(data)] with the default polynomial and initial value. *)
Definition crc16_ccitt (data : bytes) : Z :=
  crc16_ccitt_with data 0x1021 0xFFFF.

End Utils.

(* ================================================================= *)
(** * virtual_sender.py *)

Module VirtualSender.

Definition HEADER : bytes := [xaa; x55].

(** The loop [payload += struct.pack('<HH', sid & 0xFFFF, adc & 0xFFFF)]. *)
Fixpoint pack_samples (samples : list (Z * Z)) : option bytes :=
  match samples with
  | [] => Some []
  | (sid, adc) :: rest =>
      match pack_HH (Z.land sid 0xFFFF) (Z.land adc 0xFFFF), pack_samples rest with
      | Some p, Some ps => Some (p ++ ps)
      | _, _ => None
      end
  end.

(** [make_frame(samples)]. *)
Definition make_frame (samples : list (Z * Z)) : option bytes :=
  match pack_samples samples with
  | None => None
  | Some payload =>
      let length := len payload + 0 in
      let typ := 0x01 in
      match bytes_of_int length, bytes_of_int typ with
      | Some lb, Some tb =>
          let header_and_len_type_payload := lb ++ tb ++ payload in
          let crc := Utils.crc16_ccitt header_and_len_type_payload in
          match pack_H crc with
          | Some cb => Some (HEADER ++ header_and_len_type_payload ++ cb)
          | None => None
          end
      | _, _ => None
      end
  end.

(** The loop [for _ in range(args.samples_per_frame)] of [main], [k]
    passes of it: the counter and the list [samples] afterwards.  [%] by
    zero raises a [ZeroDivisionError]; with a divisor that is not zero
    Python's [%] is [Z.modulo], the sign of the result following the
    divisor. *)
Fixpoint gen_samples (max_adc : Z) (k : nat) (sample_id : Z) (samples : list (Z * Z))
  : option (Z * list (Z * Z)) :=
  match k with
  | O => Some (sample_id, samples)
  | S k' =>
      let sample_id := Z.land (sample_id + 1) 0xFFFF in
      if max_adc + 1 =? 0 then None else
      let adc := sample_id mod (max_adc + 1) in
      gen_samples max_adc k' sample_id (samples ++ [(sample_id, adc)])
  end.

(** [time.sleep(secs)] for a float, as far as returning goes.  CPython
    raises a [ValueError] for NaN and for a negative length, and an
    [OverflowError] when the length in nanoseconds ([secs * 1e9], rounded
    away from zero) leaves the range of a 64-bit integer. *)
Definition sleep (secs : float) : option unit :=
  if is_nan secs then None
  else
    let d := (secs * 1e9)%float in
    if (d <? 0)%float then None
    else if (d <? 9223372036854775808)%float then Some tt
    else None.

(** [interval = 1.0 / args.rate]: a [ZeroDivisionError] at rate 0. *)
Definition interval (rate : Z) : option float :=
  match float_of_int rate with
  | None => None
  | Some f => if is_zero f then None else Some (1.0 / f)%float
  end.

(** One pass of [while True] in [main]: the frame handed to [ser.write]
    and the counter afterwards, when the pass ends, that is when
    [time.sleep(interval * args.samples_per_frame)] returns.  The port is
    taken to accept the frame. *)
Definition send_pass (interval : float) (samples_per_frame max_adc : Z) (sample_id : Z)
  : option (bytes * Z) :=
  match gen_samples max_adc (Z.to_nat samples_per_frame) sample_id [] with
  | None => None
  | Some (sample_id', samples) =>
      match make_frame samples with
      | None => None
      | Some frame =>
          match float_of_int samples_per_frame with
          | None => None
          | Some f =>
              option_map (fun _ => (frame, sample_id')) (sleep (interval * f))
          end
      end
  end.

(** The bytes written to the port by the first [passes] passes of
    [while True], the counter being [sample_id] before the first; [None]
    when one of these passes raises. *)
Fixpoint written (interval : float) (samples_per_frame max_adc : Z) (passes : nat)
         (sample_id : Z) : option bytes :=
  match passes with
  | O => Some []
  | S passes' =>
      match send_pass interval samples_per_frame max_adc sample_id with
      | None => None
      | Some (frame, sample_id') =>
          option_map (app frame)
                     (written interval samples_per_frame max_adc passes' sample_id')
      end
  end.

(** [main] with the port open, up to the end of pass number [passes]:
    the bytes written, [None] when an exception has ended it before. *)
Definition main (rate samples_per_frame max_adc : Z) (passes : nat) : option bytes :=
  match interval rate with
  | None => None
  | Some iv => written iv samples_per_frame max_adc passes 0
  end.

End VirtualSender.

(* ================================================================= *)
(** * parser.py *)

Module Parser.

Definition HEADER : bytes := [xaa; x55].
Definition HEADER_LEN : Z := 2.

(** An element of the list [feed] returns: the dictionary of a decoded
    sample, or the dictionary of a frame of another type. *)
Inductive entry : Type :=
| Sample (sample_id adc : Z) (raw_frame : bytes)
| Unknown (typ : Z) (raw_frame : bytes).

(** The object state: [self.buffer]. *)
Record t : Type := mk { buffer : bytes }.

(** [Parser()]. *)
Definition init : t := mk [].

(** The loop [for i in range(n)] over the payload of a type-1 frame. *)
Fixpoint unpack_samples (frame payload : bytes) (i n : nat) : option (list entry) :=
  match n with
  | O => Some []
  | S n' =>
      match unpack_from_HH payload (i * 4) with
      | None => None
      | Some (sample_id, adc) =>
          option_map (cons (Sample sample_id adc frame))
                     (unpack_samples frame payload (S i) n')
      end
  end.

(** What one pass of [while True] does to the buffer. *)
Inductive step : Type :=
| Break (buf : bytes)                          (* [break] *)
| Continue (buf : bytes) (out : list entry)    (* next pass, [out] appended *)
| Raise.                                       (* an exception escapes *)

(** The pass from [if len(self.buffer) < 4] on: the header is at offset 0. *)
Definition frame_at_head (buffer : bytes) : step :=
  if len buffer <? 4 then Break buffer else
  match nth_error buffer 2 with
  | None => Raise
  | Some lb =>
  let length := byte_val lb in
  let total_len := HEADER_LEN + 1 + 1 + length + 2 in
  if len buffer <? total_len then Break buffer else
  let frame := firstn (Z.to_nat total_len) buffer in
  let crc_field := skipn (List.length frame - 2) frame in
  let payload_for_crc := slice frame 2 (List.length frame - 2) in
  let calc := Utils.crc16_ccitt payload_for_crc in
  match unpack_H crc_field with
  | None => Raise
  | Some recv_crc =>
  if negb (calc =? recv_crc) then Continue (skipn 1 buffer) [] else
  match nth_error frame 3 with
  | None => Raise
  | Some tb =>
  let typ := byte_val tb in
  let payload := slice frame 4 (List.length frame - 2) in
  let rest := skipn (Z.to_nat total_len) buffer in
  if typ =? 0x01 then
    let n := Z.to_nat (len payload / 4) in
    match unpack_samples frame payload 0 n with
    | None => Raise
    | Some out => Continue rest out
    end
  else Continue rest [Unknown typ frame]
  end end end.

(** One pass of [while True]: the length test, the search for the header,
    the removal of what precedes it, then [frame_at_head]. *)
Definition feed_step (buffer : bytes) : step :=
  if len buffer <? HEADER_LEN + 1 + 1 + 2 then Break buffer else
  let idx := find buffer HEADER in
  if idx =? -1 then Break [] else
  let buffer := if idx >? 0 then skipn (Z.to_nat idx) buffer else buffer in
  frame_at_head buffer.

(** [while True]: [fuel] bounds the number of passes; [None] when it runs
    out or an exception escapes. *)
Fixpoint feed_loop (fuel : nat) (buffer : bytes) (results : list entry)
  : option (list entry * bytes) :=
  match fuel with
  | O => None
  | S fuel' =>
      match feed_step buffer with
      | Break buf' => Some (results, buf')
      | Continue buf' out => feed_loop fuel' buf' (results ++ out)
      | Raise => None
      end
  end.

(** [self.feed(data)]: the returned list and the parser afterwards.  Every
    pass but the last shortens the buffer, so one more pass than the
    buffer has bytes is enough ([feed_returns] below). *)
Definition feed (p : t) (data : bytes) : option (list entry * t) :=
  let buffer := buffer p ++ data in
  match feed_loop (S (List.length buffer)) buffer [] with
  | Some (results, buf') => Some (results, mk buf')
  | None => None
  end.

(** Successive calls [p.feed(c)] for [c] in [chunks], outputs concatenated. *)
Fixpoint feed_all (p : t) (chunks : list bytes) : option (list entry * t) :=
  match chunks with
  | [] => Some ([], p)
  | c :: cs =>
      match feed p c with
      | None => None
      | Some (out, p') =>
          match feed_all p' cs with
          | None => None
          | Some (outs, p'') => Some (out ++ outs, p'')
          end
      end
  end.

(** The [(sample_id, adc)] pairs of the decoded samples in a result list. *)
Fixpoint samples_of (rs : list entry) : list (Z * Z) :=
  match rs with
  | [] => []
  | Sample sid adc _ :: rs' => (sid, adc) :: samples_of rs'
  | Unknown _ _ :: rs' => samples_of rs'
  end.

End Parser.

(* ================================================================= *)
(** * main.py *)

Module Main.

(** The attributes of [MainWindow] that the computations below read.
    [vref] is the integer 5 at start and a float once configured; the
    two behave alike in every operation here. *)
Record t : Type := mk {
  sampling_rate : Z;
  min_r_interval : float;
  r_threshold_ratio : float;
  vref : float
}.

Definition DEFAULT_SAMPLING_RATE : Z := 120.

(** The values [__init__] sets. *)
Definition init : t := mk DEFAULT_SAMPLING_RATE 0.45 0.45 5.

(** The buffers [on_bytes] appends to: [plot_x] and [plot_y] are deques of
    maximal length [pts], [sample_times] is unbounded. *)
Record plots : Type := mk_plots {
  pts : nat;
  plot_x : list float;
  plot_y : list Z;
  sample_times : list float
}.

(** [dt] in [on_bytes]. *)
Definition sample_period (self : t) : option float :=
  if negb (sampling_rate self =? 0) && (sampling_rate self >? 0)
  then option_map (fun f => 1.0 / f)%float (float_of_int (sampling_rate self))
  else Some 0.0%float.

(** The pairs [(ts, adc)] the loop of [on_bytes] computes, in order. *)
Definition stamps (self : t) (now : float) (b : bytes) : option (list (float * Z)) :=
  let n := len b in
  match sample_period self, float_of_int (n - 1) with
  | Some dt, Some fn1 =>
      let base_offset := (fn1 * dt)%float in
      map_opt (fun ib : Z * byte =>
                 let (i, byte) := ib in
                 option_map (fun fi => (now - (base_offset - fi * dt), byte_val byte)%float)
                            (float_of_int i))
              (combine (py_range 0 n) b)
  | _, _ => None
  end.

(** [on_bytes(b)], [now] being what [time.time()] returns.  The preview
    text and the CSV file are left out. *)
Definition on_bytes (self : t) (st : plots) (now : float) (b : bytes) : option plots :=
  match b with
  | [] => Some st
  | _ =>
      option_map
        (fun ps =>
           fold_left (fun st (p : float * Z) =>
                        mk_plots (pts st)
                                 (deque_append (pts st) (plot_x st) (fst p))
                                 (deque_append (pts st) (plot_y st) (snd p))
                                 (sample_times st ++ [fst p]))
                     ps st)
        (stamps self now b)
  end.

(** [fs] after the guard [if fs <= 0]. *)
Definition effective_fs (self : t) (fs : Z) : Z :=
  if fs <=? 0
  then (if sampling_rate self >? 0 then sampling_rate self else 120)
  else fs.

(** [max(1, int(round(self.min_r_interval * fs)))]. *)
Definition min_interval_points (self : t) (fs : Z) : option Z :=
  match float_of_int (effective_fs self fs) with
  | None => None
  | Some f => option_map (Z.max 1) (py_round (min_r_interval self * f)%float)
  end.

(** [thr], from the mean and the extreme values, after the floor
    correction. *)
Definition threshold (self : t) (vmin vmax vmean : float) : float :=
  let thr := (vmean + r_threshold_ratio self * (vmax - vmean))%float in
  let min_thr_offset :=
    (0.005 * (if is_zero (vref self) then 1.0 else vref self))%float in
  if (thr - vmin <? min_thr_offset)%float then (vmin + min_thr_offset)%float else thr.

(** The body of [for i in range(1, n - 1)] on the pair
    [(r_peak_indices, last_peak)]. *)
Definition scan_step (raw_data : list float) (thr : float) (mip : Z)
           (st : list Z * Z) (i : Z) : list Z * Z :=
  let val := item raw_data i in
  if (val <=? thr)%float then st
  else if (item raw_data (i - 1) <? val)%float && (item raw_data (i + 1) <=? val)%float
       then if i - snd st >=? mip then (fst st ++ [i], i) else st
       else st.

(** [vmin], [vmax] and [vmean] of a list of [n] floats. *)
Definition statistics (raw_data : list float) : option (float * float * float) :=
  match py_min raw_data, py_max raw_data, float_of_int (len raw_data) with
  | Some vmin, Some vmax, Some fn => Some (vmin, vmax, (py_sum raw_data / fn)%float)
  | _, _, _ => None
  end.

(** [detect_r_peaks(raw_data, fs)]; [fs] is an integer, as at its call
    sites, which pass [self.sampling_rate]. *)
Definition detect_r_peaks (self : t) (raw_data : list float) (fs : Z)
  : option (list Z) :=
  let n := len raw_data in
  if n <? 3 then Some [] else
  match min_interval_points self fs with
  | None => None
  | Some min_interval_points =>
  match statistics raw_data with
  | None => None
  | Some (vmin, vmax, vmean) =>
  let amp := (vmax - vmin)%float in
  if (amp <=? 1e-9)%float then Some [] else
  let thr := threshold self vmin vmax vmean in
  let last_peak := - min_interval_points * 2 in
  Some (fst (fold_left (scan_step raw_data thr min_interval_points)
                       (py_range 1 (n - 1)) ([], last_peak)))
  end end.

(** [_estimate_bpm_from_wave] from [if len(peaks) < 2] on.  The outer
    [option] is for an exception, the inner one for Python's [None]. *)
Definition bpm_of_peaks (rel_xs : list float) (peaks : list Z) : option (option Z) :=
  if len peaks <? 2 then Some None else
  match map_opt (getitem rel_xs) peaks with
  | None => None
  | Some peak_times =>
  match map_opt (fun i => match getitem peak_times i, getitem peak_times (i - 1) with
                          | Some a, Some b => Some (a - b)%float
                          | _, _ => None
                          end)
                (py_range 1 (len peak_times)) with
  | None => None
  | Some intervals =>
  match intervals with
  | [] => Some None
  | _ =>
  match float_of_int (len intervals) with
  | None => None
  | Some fl =>
  let avg := (py_sum intervals / fl)%float in
  let filtered :=
    filter (fun it => (0.5 * avg <=? it)%float && (it <=? 1.5 * avg)%float) intervals in
  match filtered with
  | [] => Some None
  | _ =>
  match float_of_int (len filtered) with
  | None => None
  | Some ff =>
  let mean_interval := (py_sum filtered / ff)%float in
  if (mean_interval <=? 0)%float then Some None else
  let bpm := (60.0 / mean_interval)%float in
  if (30 <=? bpm)%float && (bpm <=? 220)%float
  then option_map Some (py_round bpm)
  else Some None
  end end end end end end.

(** [_estimate_bpm_from_wave(voltages, rel_xs)]. *)
Definition _estimate_bpm_from_wave (self : t) (voltages rel_xs : list float)
  : option (option Z) :=
  let fs := sampling_rate self in
  let n := len voltages in
  if (fs <=? 0) || (n <? 3) then Some None else
  match detect_r_peaks self voltages fs with
  | None => None
  | Some peaks => bpm_of_peaks rel_xs peaks
  end.

Definition DEFAULT_WINDOW_SECONDS : Z := 5.
Definition MAX_POINTS_LIMIT : Z := 200000.

(** The attributes of [MainWindow] that the display reads besides those
    of [t].  [time_window] is the integer 5 at start and a float once
    the window box has been edited. *)
Record display : Type := mk_display {
  time_window : number;
  adc_bits : Z;
  v_offset : float;
  v_range_factor : float
}.

(** The values [__init__] sets. *)
Definition init_display : display :=
  mk_display (Int DEFAULT_WINDOW_SECONDS) 8 0.0 1.05.

(** [_recreate_buffers()]: two empty deques of maximal length [pts];
    [sample_times] is not touched. *)
Definition _recreate_buffers (self : t) (d : display) (st : plots) : option plots :=
  let m := Z.max 1 (sampling_rate self) in
  let product :=
    match time_window d with
    | Int w => Some (w * m)
    | Float w =>
        match float_of_int m with
        | Some fm => py_int (w * fm)
        | None => None
        end
    end in
  match product with
  | None => None
  | Some pts =>
      let pts := if pts <=? 0 then 1 else pts in
      let pts := if pts >? MAX_POINTS_LIMIT then MAX_POINTS_LIMIT else pts in
      Some (mk_plots (Z.to_nat pts) [] [] (sample_times st))
  end.

(** [_zoom_range(factor)]. *)
Definition _zoom_range (d : display) (factor : float) : display :=
  let v := (v_range_factor d * factor)%float in
  let v := if (v <? 0.4)%float then 0.4%float else v in
  let v := if (4.0 <? v)%float then 4.0%float else v in
  mk_display (time_window d) (adc_bits d) (v_offset d) v.

(** [_adc_to_voltage(adc_raw)]; a shift by a negative count raises a
    [ValueError]. *)
Definition _adc_to_voltage (self : t) (d : display) (adc_raw : Z) : option float :=
  if adc_bits d <? 0 then None else
  let max_code := Z.shiftl 1 (adc_bits d) - 1 in
  if max_code <=? 0 then Some 0.0%float else
  match float_of_int adc_raw, float_of_int max_code with
  | Some a, Some m => Some (a / m * vref self)%float
  | _, _ => None
  end.

(** The loop [for ts, adc in zip(self.plot_x, self.plot_y)] of
    [on_timer]: the lists [abs_xs] and [ys]. *)
Fixpoint window_samples (self : t) (d : display) (start_ts : float)
         (pairs : list (float * Z)) : option (list float * list float) :=
  match pairs with
  | [] => Some ([], [])
  | (ts, adc) :: rest =>
      if (start_ts <=? ts)%float
      then match _adc_to_voltage self d adc with
           | None => None
           | Some v =>
               option_map (fun r => (ts :: fst r, v :: snd r))
                          (window_samples self d start_ts rest)
           end
      else window_samples self d start_ts rest
  end.

(** [on_timer] from [if not self.plot_x] to [rel_xs]: the pair
    [(rel_xs, ys)] that is drawn and analysed; the inner [None] when
    [on_timer] returns before that. *)
Definition window (self : t) (d : display) (st : plots)
  : option (option (list float * list float)) :=
  match plot_x st with
  | [] => Some None
  | _ =>
      match getitem (plot_x st) (-1),
            (match time_window d with
             | Int w => float_of_int w
             | Float w => Some w
             end) with
      | Some latest_ts, Some w =>
          let start_ts := (latest_ts - w)%float in
          match window_samples self d start_ts (combine (plot_x st) (plot_y st)) with
          | None => None
          | Some ([], _) => Some None
          | Some (abs_xs, ys) =>
              Some (Some (map (fun t => (t - start_ts)%float) abs_xs, ys))
          end
      | _, _ => None
      end
  end.

(** [avg_interval] in [on_timer]: the mean distance of the peak times,
    [None] when the text of the period stays [--]. *)
Definition average_interval (rel_xs : list float) (r_peak_indices : list Z)
  : option (option float) :=
  if len r_peak_indices <? 2 then Some None else
  match map_opt (getitem rel_xs) r_peak_indices with
  | None => None
  | Some peak_times =>
  match map_opt (fun i => match getitem peak_times i, getitem peak_times (i - 1) with
                          | Some a, Some b => Some (a - b)%float
                          | _, _ => None
                          end)
                (py_range 1 (len peak_times)) with
  | None => None
  | Some intervals =>
  match intervals with
  | [] => Some None
  | _ => option_map (fun fl => Some (py_sum intervals / fl)%float)
                    (float_of_int (len intervals))
  end end end.

(** The block of [on_timer] under [if len(ys) > 0]: the rate and the
    period shown, and the coordinates of the markers drawn on the curve. *)
Definition beats (self : t) (rel_xs ys : list float)
  : option (option Z * option float * list float * list float) :=
  match _estimate_bpm_from_wave self ys rel_xs with
  | None => None
  | Some r_peak_bpm =>
  match detect_r_peaks self ys (sampling_rate self) with
  | None => None
  | Some r_peak_indices =>
  match average_interval rel_xs r_peak_indices with
  | None => None
  | Some period =>
  match r_peak_indices with
  | [] => Some (r_peak_bpm, period, [], [])
  | _ =>
      match map_opt (getitem rel_xs) r_peak_indices,
            map_opt (getitem ys) r_peak_indices with
      | Some r_peak_x, Some r_peak_y => Some (r_peak_bpm, period, r_peak_x, r_peak_y)
      | _, _ => None
      end
  end end end end.

End Main.

(* ================================================================= *)
(** * Vocabulary of the statements *)

(** [find] with the position as a natural number. *)
Fixpoint find_nat (buf sub : bytes) : option nat :=
  if startswith buf sub then Some O
  else match buf with
       | [] => None
       | _ :: buf' => option_map S (find_nat buf' sub)
       end.

(** The buffer holds no occurrence of the two header bytes. *)
Definition no_header (buf : bytes) : Prop := find buf Parser.HEADER = -1.

(** The wire format in the header comment of [parser.py]:
    [[0xAA][0x55][LEN][TYPE][PAYLOAD .. LEN bytes][CRC16, little-endian]],
    the CRC taken over LEN, TYPE and PAYLOAD.  [LEN] is one byte, so the
    payload has at most 255 bytes. *)
Definition crc_bytes (body : bytes) : bytes :=
  let crc := Utils.crc16_ccitt body in
  [byte_of_Z crc; byte_of_Z (Z.shiftr crc 8)].

Definition wire_frame (typ : byte) (payload : bytes) : bytes :=
  let body := byte_of_Z (len payload) :: typ :: payload in
  Parser.HEADER ++ body ++ crc_bytes body.

(** The samples of a type-1 payload: one per leading complete group of
    four bytes, a trailing group of fewer bytes giving none. *)
Fixpoint decode_groups (frame payload : bytes) : list Parser.entry :=
  match payload with
  | a0 :: a1 :: b0 :: b1 :: rest =>
      Parser.Sample (byte_val a0 + 256 * byte_val a1)
                    (byte_val b0 + 256 * byte_val b1) frame
      :: decode_groups frame rest
  | _ => []
  end.

(** The payload [make_frame] builds for in-range samples. *)
Fixpoint payload_of (samples : list (Z * Z)) : bytes :=
  match samples with
  | [] => []
  | (sid, adc) :: rest =>
      byte_of_Z sid :: byte_of_Z (Z.shiftr sid 8)
      :: byte_of_Z adc :: byte_of_Z (Z.shiftr adc 8) :: payload_of rest
  end.

(** Every sample identifier and reading is an unsigned 16-bit value. *)
Definition in_range (samples : list (Z * Z)) : Prop :=
  Forall (fun s => 0 <= fst s <= 65535 /\ 0 <= snd s <= 65535) samples.

(** The loop of [feed] on a buffer, with the fuel [feed] gives it. *)
Definition feed_run (buf : bytes) : option (list Parser.entry * bytes) :=
  Parser.feed_loop (S (length buf)) buf [].

(** [out] put in front of the results of the passes that follow. *)
Definition emit (out : list Parser.entry) (r : option (list Parser.entry * bytes))
  : option (list Parser.entry * bytes) :=
  option_map (fun x => (out ++ fst x, snd x)) r.

(** [(sid & 0xFFFF, adc & 0xFFFF)], as [make_frame] masks a sample. *)
Definition mask16 (s : Z * Z) : Z * Z :=
  (Z.land (fst s) 0xFFFF, Z.land (snd s) 0xFFFF).

(** The dictionaries [feed] returns for the samples of one frame. *)
Definition entries_of (frame : bytes) (samples : list (Z * Z)) : list Parser.entry :=
  map (fun s => Parser.Sample (fst s) (snd s) frame) samples.

(** CRC-16/CCITT-FALSE in the words of the specification: a 16-bit
    accumulator that starts at 0xFFFF; each byte is XORed into bits 8 to
    15, then eight times: shift left within 16 bits, and XOR with 0x1021
    when bit 15 was set. *)
Definition spec_round (acc : Z) : Z :=
  if Z.testbit acc 15
  then Z.lxor ((2 * acc) mod 2 ^ 16) 0x1021
  else (2 * acc) mod 2 ^ 16.

Definition spec_byte (acc : Z) (b : byte) : Z :=
  Nat.iter 8 spec_round (Z.lxor acc (byte_val b * 2 ^ 8)).

Definition crc16_ccitt_false (data : bytes) : Z := fold_left spec_byte data 0xFFFF.

(** An unsigned 16-bit value. *)
Definition u16 (z : Z) : Prop := 0 <= z < 2 ^ 16.

(** The ASCII digits of the published check input. *)
Definition b123456789 : bytes := [x31; x32; x33; x34; x35; x36; x37; x38; x39].

(** Three frames of [make_frame], spelled out: the samples (1, 2), (3, 4)
    and (0x55AA, 0x00FF); the payload of the last one begins with the two
    header bytes. *)
Definition frame_1_2 : bytes := [xaa; x55; x04; x01; x01; x00; x02; x00; x36; xb2].
Definition frame_3_4 : bytes := [xaa; x55; x04; x01; x03; x00; x04; x00; xf8; xf5].
Definition frame_55aa_ff : bytes :=
  [xaa; x55; x04; x01; xaa; x55; xff; x00; xfc; x96].

(** ** Beat detection *)

(** The test of the specification on an interior index: above the
    threshold, above the left neighbour, not below the right one. *)
Definition is_peak (values : list float) (thr : float) (i : Z) : bool :=
  (thr <? item values i)%float
  && (item values (i - 1) <? item values i)%float
  && (item values (i + 1) <=? item values i)%float.

(** The test as the code writes it: [val <= thr] sends the index away. *)
Definition passes (values : list float) (thr : float) (i : Z) : bool :=
  negb (item values i <=? thr)%float
  && ((item values (i - 1) <? item values i)%float
      && (item values (i + 1) <=? item values i)%float).

(** A single scan from left to right: an index is kept when it passes
    the test and lies at least [d] past the last index kept ([last] at
    the start). *)
Fixpoint accepted (test : Z -> bool) (d last : Z) (indices : list Z) : list Z :=
  match indices with
  | [] => []
  | i :: rest =>
      if test i && (i - last >=? d)
      then i :: accepted test d i rest
      else accepted test d last rest
  end.

(** The last element of [peaks] below [i], [start] when there is none. *)
Definition previous (peaks : list Z) (i start : Z) : Z :=
  last (filter (fun j => j <? i) peaks) start.

(** Each element lies at least [d] past the one before it, the first one
    at least [d] past [last]. *)
Fixpoint spaced (d last : Z) (l : list Z) : Prop :=
  match l with
  | [] => True
  | x :: rest => d <= x - last /\ spaced d x rest
  end.

(** Any two neighbours in the list differ by at least [d]. *)
Definition gaps_at_least (d : Z) (l : list Z) : Prop :=
  forall k a b, nth_error l k = Some a -> nth_error l (S k) = Some b -> d <= b - a.

(** ** Rate estimation *)

(** The differences of neighbours: [t1 - t0; t2 - t1; ...]. *)
Fixpoint deltas (ts : list float) : list float :=
  match ts with
  | a :: (b :: _) as rest => (b - a)%float :: deltas rest
  | _ => []
  end.

(** The mean of a list of floats, [sum / len]; [None] when the length
    does not convert to a float.  The mean of no value is 0/0, NaN. *)
Definition mean (xs : list float) : option float :=
  option_map (fun f => (py_sum xs / f)%float) (float_of_int (len xs)).

(** [d] lies in [[0.5 * avg, 1.5 * avg]]. *)
Definition within_half (avg d : float) : bool :=
  (0.5 * avg <=? d)%float && (d <=? 1.5 * avg)%float.

(** The rate in the words of the specification: the deltas of the peak
    times, filtered against their own mean; 60 over the mean of what is
    left; reported, rounded, when it lies in [[30, 220]].  A rate that is
    NaN or infinite (no delta left, a period of zero) is outside. *)
Definition rate_of_peak_times (peak_times : list float) : option (option Z) :=
  match mean (deltas peak_times) with
  | None => None
  | Some avg =>
      match mean (filter (within_half avg) (deltas peak_times)) with
      | None => None
      | Some period =>
          let rate := (60 / period)%float in
          if (30 <=? rate)%float && (rate <=? 220)%float
          then option_map Some (py_round rate)
          else Some None
      end
  end.

(** A synthetic window of [n] samples at 120 Hz: the value 1 at the
    indices [first], [first + period], ..., the value 0 elsewhere; and the
    times [k / 120] of its samples. *)
Definition spike_train (n period first : nat) : list float :=
  map (fun k => if (k mod period =? first)%nat then 1%float else 0%float) (seq 0 n).

Definition times_120 (n : nat) : list float :=
  map (fun k => (to_float (Z.of_nat k) / 120)%float) (seq 0 n).

(** ** Time stamps *)

(** [p z] for the [fuel] integers from [z] on. *)
Fixpoint all_from (fuel : nat) (z : Z) (p : Z -> bool) : bool :=
  match fuel with
  | O => true
  | S fuel' => p z && all_from fuel' (z + 1) p
  end.

(** [d.append(x)] for each [x] of [xs] in turn. *)
Definition deque_extend {A} (maxlen : nat) (d : list A) (xs : list A) : list A :=
  fold_left (deque_append maxlen) xs d.

(** The stamp of the byte at position [i] of a chunk of [n] bytes, as
    the code computes it. *)
Definition stamp_at (self : Main.t) (now : float) (n i : Z) : float :=
  let dt := (1 / to_float (Main.sampling_rate self))%float in
  (now - (to_float (n - 1) * dt - to_float i * dt))%float.

(** A mantissa that is not negative and has at most [d] binary digits:
    what the right shifts of a rounding keep. *)
Definition narrow (d : Z) (r : shr_record) : Prop :=
  0 <= shr_m r /\ Zdigits2 (shr_m r) <= d.

(** A zero, or a finite float with an exponent that is not positive:
    every integer below 65536 and the inverse of every such integer but 0
    is one. *)
Definition small_exp (x : spec_float) : bool :=
  match x with
  | S754_zero _ => true
  | S754_finite _ _ e => e <=? 0
  | _ => false
  end.

(** ** Streams of frames *)

(** What [feed] returns for one well-formed frame of type [typ]: the
    samples of a type-1 payload, one raw entry for any other type. *)
Definition frame_entries (f : byte * bytes) : list Parser.entry :=
  let frame := wire_frame (fst f) (snd f) in
  if byte_val (fst f) =? 1
  then decode_groups frame (snd f)
  else [Parser.Unknown (byte_val (fst f)) frame].

(** Frames on the wire, one after the other. *)
Definition stream (frames : list (byte * bytes)) : bytes :=
  concat (map (fun f => wire_frame (fst f) (snd f)) frames).

(** Every payload fits the one-byte length field. *)
Definition fit (frames : list (byte * bytes)) : Prop :=
  Forall (fun f => len (snd f) <= 255) frames.

(** The frame an entry of the result list carries. *)
Definition raw_frame (e : Parser.entry) : bytes :=
  match e with
  | Parser.Sample _ _ f => f
  | Parser.Unknown _ f => f
  end.

(** The sample the sender produces when its counter has been increased
    [i] times from 0. *)
Definition saw_sample (max_adc i : Z) : Z * Z :=
  (i mod 65536, (i mod 65536) mod (max_adc + 1)).

(** ** Plot buffers *)

(** Successive calls [on_bytes(b)] at the times [now], for [(now, b)] in
    [events]. *)
Fixpoint on_bytes_all (self : Main.t) (st : Main.plots) (events : list (float * bytes))
  : option Main.plots :=
  match events with
  | [] => Some st
  | (now, b) :: rest =>
      match Main.on_bytes self st now b with
      | None => None
      | Some st' => on_bytes_all self st' rest
      end
  end.

(** The last [n] elements of a list. *)
Definition lastn {A} (n : nat) (l : list A) : list A := skipn (length l - n) l.

(** A float within [[lo, hi]]. *)
Definition between (lo hi x : float) : bool := (lo <=? x)%float && (x <=? hi)%float.

(** ** The virtual sender *)

(** [x mod 65536] on both components: what [& 0xFFFF] makes of a sample. *)
Definition wrap16 (s : Z * Z) : Z * Z := (fst s mod 65536, snd s mod 65536).

(** The samples of pass number [p] (from 0) of the sender's loop, with
    [n] samples in a frame. *)
Definition pass_samples (max_adc : Z) (n p : nat) : list (Z * Z) :=
  map (saw_sample max_adc)
      (py_range (Z.of_nat (p * n) + 1) (Z.of_nat (p * n + n) + 1)).

(** The frames of the passes [p0], [p0 + 1], ..., [passes] of them. *)
Definition pass_frames (max_adc : Z) (n p0 passes : nat) : list (byte * bytes) :=
  map (fun p => (x01, payload_of (pass_samples max_adc n p))) (seq p0 passes).

(** ** Floats as real numbers *)

(** The real number a finite float stands for; 0 for the others. *)
Definition SF2R (x : spec_float) : R :=
  match x with
  | S754_finite s m e => (IZR (cond_Zopp s (Z.pos m)) * powerRZ 2 e)%R
  | _ => 0%R
  end.

Definition real_of (x : float) : R := SF2R (Prim2SF x).

(** A zero, or a finite float below [2 ^ k] in absolute value. *)
Definition mag_le (x : spec_float) (k : Z) : Prop :=
  match x with
  | S754_zero _ => True
  | S754_finite _ m e => Z.pos (digits2_pos m) + e <= k
  | _ => False
  end.

(** [x] is the integer [z], which is below [2 ^ 16]. *)
Definition is_int (z : Z) (x : spec_float) : bool :=
  match x with
  | S754_zero _ => z =? 0
  | S754_finite false m e =>
      (e <=? 0) && (Z.pos m =? z * 2 ^ (- e)) && (Z.pos (digits2_pos m) + e <=? 16)
  | _ => false
  end.

(** [x] is positive, below 2, and [x * z] is 1 within [2 ^ -52]. *)
Definition is_inverse (z : Z) (x : spec_float) : bool :=
  match x with
  | S754_finite false m e =>
      (e <=? 0) && (Z.abs (Z.pos m * z - 2 ^ (- e)) * 2 ^ 52 <=? 2 ^ (- e))
      && (Z.pos (digits2_pos m) + e <=? 1)
  | _ => false
  end.

(** A zero, or a positive finite float below [2 ^ k]. *)
Definition nonneg_mag (x : spec_float) (k : Z) : Prop :=
  match x with
  | S754_zero _ => True
  | S754_finite false m e => Z.pos (digits2_pos m) + e <= k
  | _ => False
  end.

(* ================================================================= *)
(** * Properties: Python values *)

Section Values.

Lemma len_app {A} (l1 l2 : list A) : len (l1 ++ l2) = len l1 + len l2.
Proof. unfold len. rewrite length_app. lia. Qed.

Lemma len_nonneg {A} (l : list A) : 0 <= len l.
Proof. unfold len. lia. Qed.

Lemma byte_val_range (b : byte) : 0 <= byte_val b < 256.
Proof.
  unfold byte_val. pose proof (Byte.to_N_bounded b). lia.
Qed.

Lemma byte_val_inj (a b : byte) : byte_val a = byte_val b -> a = b.
Proof.
  unfold byte_val. intros H. apply N2Z.inj in H.
  pose proof (Byte.of_to_N a) as Ha. rewrite H, Byte.of_to_N in Ha.
  congruence.
Qed.

Lemma byte_val_of_Z (z : Z) : byte_val (byte_of_Z z) = z mod 256.
Proof.
  unfold byte_of_Z, byte_val.
  assert (Hr : 0 <= z mod 256 < 256) by (apply Z.mod_pos_bound; lia).
  destruct (Byte.of_N (Z.to_N (z mod 256))) as [b|] eqn:E.
  - apply Byte.to_of_N in E. rewrite E. lia.
  - apply Byte.of_N_None_iff in E. lia.
Qed.

Lemma byte_of_Z_val (b : byte) : byte_of_Z (byte_val b) = b.
Proof.
  apply byte_val_inj. rewrite byte_val_of_Z.
  apply Z.mod_small, byte_val_range.
Qed.

Lemma bytes_of_int_Some (z : Z) :
  0 <= z < 256 -> bytes_of_int z = Some [byte_of_Z z].
Proof.
  intros H. unfold bytes_of_int.
  replace ((0 <=? z) && (z <? 256)) with true by (symmetry; apply andb_true_iff; lia).
  unfold byte_of_Z. rewrite Z.mod_small by lia.
  destruct (Byte.of_N (Z.to_N z)) as [b|] eqn:E; [reflexivity|].
  apply Byte.of_N_None_iff in E. lia.
Qed.

Lemma bytes_of_int_None (z : Z) : 256 <= z -> bytes_of_int z = None.
Proof.
  intros H. unfold bytes_of_int.
  replace (z <? 256) with false by (symmetry; apply Z.ltb_ge; lia).
  now rewrite andb_false_r.
Qed.

Lemma pack_H_Some (v : Z) :
  0 <= v <= 0xFFFF -> pack_H v = Some [byte_of_Z v; byte_of_Z (Z.shiftr v 8)].
Proof.
  intros H. unfold pack_H.
  replace ((0 <=? v) && (v <=? 0xFFFF)) with true
    by (symmetry; apply andb_true_iff; lia).
  reflexivity.
Qed.

(** Little-endian packing and unpacking of an unsigned 16-bit value. *)
Lemma u16_le_roundtrip (v : Z) :
  0 <= v <= 0xFFFF ->
  byte_val (byte_of_Z v) + 256 * byte_val (byte_of_Z (Z.shiftr v 8)) = v.
Proof.
  intros H. rewrite !byte_val_of_Z, Z.shiftr_div_pow2 by lia.
  change (2 ^ 8) with 256.
  rewrite (Z.mod_small (v / 256)).
  - pose proof (Z.div_mod v 256). lia.
  - split; [apply Z.div_pos; lia | apply Z.div_lt_upper_bound; lia].
Qed.

Lemma unpack_pack_H (v : Z) (bs : bytes) :
  pack_H v = Some bs -> unpack_H bs = Some v.
Proof.
  unfold pack_H. destruct ((0 <=? v) && (v <=? 0xFFFF)) eqn:E; [|discriminate].
  apply andb_true_iff in E. intros [= <-]. simpl.
  rewrite u16_le_roundtrip by lia. reflexivity.
Qed.

Lemma land_FFFF_range (z : Z) : 0 <= Z.land z 0xFFFF <= 0xFFFF.
Proof.
  change 0xFFFF with (Z.ones 16). rewrite Z.land_ones by lia.
  pose proof (Z.mod_pos_bound z (2 ^ 16)). change (Z.ones 16) with (2 ^ 16 - 1). lia.
Qed.

Lemma land_FFFF_small (z : Z) : 0 <= z <= 0xFFFF -> Z.land z 0xFFFF = z.
Proof.
  intros H. change 0xFFFF with (Z.ones 16). rewrite Z.land_ones by lia.
  apply Z.mod_small. change (2 ^ 16) with 65536. lia.
Qed.

End Values.

(* ================================================================= *)
(** * Properties: searching for the header *)

Section Find.

Lemma find_from_nat (buf sub : bytes) (pos : Z) :
  find_from buf sub pos =
  match find_nat buf sub with
  | Some k => pos + Z.of_nat k
  | None => -1
  end.
Proof.
  revert pos. induction buf as [|b buf IH]; intros pos; cbn [find_from find_nat].
  - destruct (startswith [] sub); lia.
  - destruct (startswith (b :: buf) sub); [lia|].
    rewrite IH. destruct (find_nat buf sub); cbn [option_map]; lia.
Qed.

Lemma find_nat_find (buf sub : bytes) :
  find buf sub = match find_nat buf sub with
                 | Some k => Z.of_nat k
                 | None => -1
                 end.
Proof. unfold find. rewrite find_from_nat. now destruct (find_nat buf sub). Qed.

Lemma no_header_nat (buf : bytes) :
  no_header buf <-> find_nat buf Parser.HEADER = None.
Proof.
  unfold no_header. rewrite find_nat_find.
  destruct (find_nat buf Parser.HEADER); split; intros; try lia; congruence.
Qed.

Lemma startswith_header (buf : bytes) :
  startswith buf Parser.HEADER = true <-> exists r, buf = xaa :: x55 :: r.
Proof.
  split.
  - unfold Parser.HEADER.
    destruct buf as [|a [|b r]]; cbn [startswith]; try discriminate.
    + now rewrite andb_false_r.
    + intros H. apply andb_true_iff in H as [Ha Hb].
      apply andb_true_iff in Hb as [Hb _].
      apply Byte.byte_dec_bl in Ha, Hb. subst. now exists r.
  - intros [r ->]. reflexivity.
Qed.

Lemma startswith_header_app (a b : bytes) :
  startswith a Parser.HEADER = true -> startswith (a ++ b) Parser.HEADER = true.
Proof.
  intros H. apply startswith_header in H as [r ->]. reflexivity.
Qed.

Lemma find_nat_header_here (r : bytes) :
  find_nat (xaa :: x55 :: r) Parser.HEADER = Some O.
Proof. reflexivity. Qed.

Lemma find_nat_Some (buf : bytes) (k : nat) :
  find_nat buf Parser.HEADER = Some k ->
  startswith (skipn k buf) Parser.HEADER = true /\ (k + 2 <= length buf)%nat.
Proof.
  revert k. induction buf as [|b buf IH]; intros k; cbn [find_nat].
  - discriminate.
  - destruct (startswith (b :: buf) Parser.HEADER) eqn:E.
    + intros [= <-]. split; [exact E|].
      apply startswith_header in E as [r E]. rewrite E. cbn [length]. lia.
    + destruct (find_nat buf Parser.HEADER) as [j|]; [|discriminate].
      intros [= <-]. destruct (IH j eq_refl) as [H1 H2].
      split; [exact H1 | cbn [length]; lia].
Qed.

(** Bytes without a header followed by a header: the search stops at the
    header.  A match cannot straddle the boundary, since the header's
    first byte is not its second. *)
Lemma find_nat_skip (a r : bytes) :
  find_nat a Parser.HEADER = None ->
  find_nat (a ++ xaa :: x55 :: r) Parser.HEADER = Some (length a).
Proof.
  induction a as [|x a IH]; intros H.
  - reflexivity.
  - cbn [find_nat] in H.
    destruct (startswith (x :: a) Parser.HEADER) eqn:E; [discriminate|].
    destruct (find_nat a Parser.HEADER) eqn:F; [discriminate|].
    change ((x :: a) ++ xaa :: x55 :: r) with (x :: (a ++ xaa :: x55 :: r)).
    cbn [find_nat].
    assert (E' : startswith (x :: a ++ xaa :: x55 :: r) Parser.HEADER = false).
    { destruct a as [|y a'].
      - unfold Parser.HEADER. cbn [app startswith].
        destruct (Byte.eqb x xaa); reflexivity.
      - exact E. }
    rewrite E', IH by reflexivity. reflexivity.
Qed.

Lemma no_header_app_l (a b : bytes) : no_header (a ++ b) -> no_header a.
Proof.
  rewrite !no_header_nat. induction a as [|x a IH]; intros H.
  - reflexivity.
  - change ((x :: a) ++ b) with (x :: (a ++ b)) in H.
    cbn [find_nat] in *.
    destruct (startswith (x :: a ++ b) Parser.HEADER) eqn:E; [discriminate|].
    destruct (startswith (x :: a) Parser.HEADER) eqn:E'.
    + apply (startswith_header_app _ b) in E'.
      change ((x :: a) ++ b) with (x :: (a ++ b)) in E'. congruence.
    + destruct (find_nat (a ++ b) Parser.HEADER); [discriminate|].
      now rewrite IH.
Qed.

Lemma no_header_app_r (a b : bytes) : no_header (a ++ b) -> no_header b.
Proof.
  rewrite !no_header_nat. induction a as [|x a IH]; intros H.
  - exact H.
  - change ((x :: a) ++ b) with (x :: (a ++ b)) in H. cbn [find_nat] in H.
    destruct (startswith (x :: a ++ b) Parser.HEADER); [discriminate|].
    destruct (find_nat (a ++ b) Parser.HEADER) eqn:F; [discriminate|].
    now apply IH.
Qed.

Lemma no_header_skipn (k : nat) (l : bytes) : no_header l -> no_header (skipn k l).
Proof.
  intros H. rewrite <- (firstn_skipn k l) in H. now apply no_header_app_r in H.
Qed.

End Find.

(* ================================================================= *)
(** * Properties: one pass of the decoder *)

Section Step.

Import Parser.

Lemma firstn_length_app {A} (a b : list A) : firstn (length a) (a ++ b) = a.
Proof.
  rewrite firstn_app, Nat.sub_diag, firstn_all. cbn [firstn]. apply app_nil_r.
Qed.

Lemma skipn_length_app {A} (a b : list A) : skipn (length a) (a ++ b) = b.
Proof.
  rewrite skipn_app, Nat.sub_diag, skipn_all. reflexivity.
Qed.

(** The index-based loop of [feed] reads the groups in order. *)
Lemma unpack_samples_groups (frame pre payload : bytes) (i : nat) :
  length pre = (i * 4)%nat ->
  unpack_samples frame (pre ++ payload) i (Z.to_nat (len payload / 4)) =
  Some (decode_groups frame payload).
Proof.
  remember (Z.to_nat (len payload / 4)) as n eqn:Hn.
  revert pre payload i Hn.
  induction n as [|n IH]; intros pre payload i Hn Hpre.
  - cbn [unpack_samples].
    assert (len payload < 4).
    { pose proof (len_nonneg payload).
      destruct (Z_lt_dec (len payload) 4); [assumption|].
      assert (1 <= len payload / 4) by (apply Z.div_le_lower_bound; lia). lia. }
    unfold len in *.
    destruct payload as [|a0 [|a1 [|b0 [|b1 r]]]]; cbn [length] in *;
      try reflexivity; lia.
  - assert (4 <= len payload).
    { destruct (Z_lt_dec (len payload) 4) as [Hlt|]; [|lia].
      pose proof (len_nonneg payload).
      rewrite Z.div_small in Hn by lia. discriminate. }
    destruct payload as [|a0 [|a1 [|b0 [|b1 r]]]];
      try (unfold len in *; cbn [length] in *; lia).
    cbn [unpack_samples decode_groups].
    unfold unpack_from_HH. rewrite <- Hpre, skipn_length_app.
    replace (pre ++ a0 :: a1 :: b0 :: b1 :: r)
      with ((pre ++ [a0; a1; b0; b1]) ++ r) by (now rewrite <- app_assoc).
    rewrite (IH (pre ++ [a0; a1; b0; b1]) r (S i)).
    + reflexivity.
    + assert (E : len (a0 :: a1 :: b0 :: b1 :: r) = len r + 1 * 4).
      { unfold len. cbn [length]. lia. }
      rewrite E, Z.div_add in Hn by lia.
      pose proof (len_nonneg r).
      assert (0 <= len r / 4) by (apply Z.div_pos; lia). lia.
    + rewrite length_app, Hpre. cbn [length]. lia.
Qed.

Lemma decode_groups_length (frame payload : bytes) :
  len (decode_groups frame payload) = len payload / 4.
Proof.
  remember (length payload) as m eqn:Hm. revert payload Hm.
  induction m as [m IH] using lt_wf_ind. intros payload Hm.
  destruct payload as [|a0 [|a1 [|b0 [|b1 r]]]]; try reflexivity.
  cbn [decode_groups].
  assert (E : len (a0 :: a1 :: b0 :: b1 :: r) = len r + 1 * 4).
  { unfold len. cbn [length]. lia. }
  rewrite E, Z.div_add by lia.
  rewrite <- (IH (length r) ltac:(subst m; cbn [length]; lia) r eq_refl).
  unfold len. cbn [length]. lia.
Qed.

(** A complete frame at the head of the buffer: the CRC decides between
    dropping one byte and consuming the frame. *)
Lemma frame_at_head_complete (h0 h1 lb tb : byte) (payload : bytes)
      (c0 c1 : byte) (rest : bytes) :
  len payload = byte_val lb ->
  frame_at_head (h0 :: h1 :: lb :: tb :: payload ++ c0 :: c1 :: rest) =
  let frame := h0 :: h1 :: lb :: tb :: payload ++ [c0; c1] in
  if Utils.crc16_ccitt (lb :: tb :: payload) =? byte_val c0 + 256 * byte_val c1
  then if byte_val tb =? 1 then Continue rest (decode_groups frame payload)
       else Continue rest [Unknown (byte_val tb) frame]
  else Continue (h1 :: lb :: tb :: payload ++ c0 :: c1 :: rest) [].
Proof.
  intros Hlen. cbv zeta.
  set (frame := h0 :: h1 :: lb :: tb :: payload ++ [c0; c1]).
  assert (Hbuf : h0 :: h1 :: lb :: tb :: payload ++ c0 :: c1 :: rest = frame ++ rest).
  { subst frame. cbn [app]. now rewrite <- app_assoc. }
  assert (HlenF : length frame = (6 + length payload)%nat).
  { subst frame. cbn [length]. rewrite length_app. cbn [length]. lia. }
  assert (Htot : Z.to_nat (HEADER_LEN + 1 + 1 + byte_val lb + 2) = length frame).
  { unfold HEADER_LEN. rewrite HlenF, <- Hlen. unfold len. lia. }
  unfold frame_at_head.
  replace (len (h0 :: h1 :: lb :: tb :: payload ++ c0 :: c1 :: rest) <? 4) with false.
  2:{ symmetry. apply Z.ltb_ge. unfold len. cbn [length]. lia. }
  change (nth_error (h0 :: h1 :: lb :: tb :: payload ++ c0 :: c1 :: rest) 2)
    with (Some lb).
  cbv beta iota zeta.
  replace (len (h0 :: h1 :: lb :: tb :: payload ++ c0 :: c1 :: rest)
             <? HEADER_LEN + 1 + 1 + byte_val lb + 2) with false.
  2:{ symmetry. apply Z.ltb_ge. rewrite Hbuf, len_app. unfold len at 1.
      rewrite <- Htot. pose proof (len_nonneg rest). pose proof (byte_val_range lb).
      unfold HEADER_LEN in *. lia. }
  rewrite Htot, Hbuf, firstn_length_app, skipn_length_app, <- Hbuf.
  assert (Hcrc : skipn (length frame - 2) frame = [c0; c1]).
  { replace (length frame - 2)%nat with (length (h0 :: h1 :: lb :: tb :: payload)).
    - subst frame. apply (skipn_length_app (h0 :: h1 :: lb :: tb :: payload)).
    - rewrite HlenF. cbn [length]. lia. }
  assert (Hbody : slice frame 2 (length frame - 2) = lb :: tb :: payload).
  { unfold slice.
    replace (length frame - 2 - 2)%nat with (length (lb :: tb :: payload))
      by (rewrite HlenF; cbn [length]; lia).
    subst frame. cbn [skipn].
    apply (firstn_length_app (lb :: tb :: payload)). }
  assert (Hpay : slice frame 4 (length frame - 2) = payload).
  { unfold slice.
    replace (length frame - 2 - 4)%nat with (length payload) by (rewrite HlenF; lia).
    subst frame. cbn [skipn]. apply firstn_length_app. }
  rewrite Hcrc, Hbody, Hpay. cbn [unpack_H].
  destruct (Utils.crc16_ccitt (lb :: tb :: payload) =? byte_val c0 + 256 * byte_val c1);
    cbn [negb]; [|reflexivity].
  assert (Htb : nth_error frame 3 = Some tb) by reflexivity.
  rewrite Htb.
  destruct (byte_val tb =? 1); [|reflexivity].
  pose proof (unpack_samples_groups frame [] payload 0 eq_refl) as Hu.
  cbn [app] in Hu. now rewrite Hu.
Qed.

(** While the length byte announces more bytes than the buffer holds, the
    pass leaves the buffer as it is. *)
Lemma frame_at_head_wait (buf : bytes) :
  (forall lb, nth_error buf 2 = Some lb -> len buf < 6 + byte_val lb) ->
  frame_at_head buf = Break buf.
Proof.
  intros H. unfold frame_at_head.
  destruct (len buf <? 4) eqn:E4; [reflexivity|].
  destruct (nth_error buf 2) as [lb|] eqn:E2.
  - specialize (H lb eq_refl).
    replace (len buf <? HEADER_LEN + 1 + 1 + byte_val lb + 2) with true; [reflexivity|].
    symmetry. apply Z.ltb_lt. unfold HEADER_LEN. lia.
  - apply nth_error_None in E2. apply Z.ltb_ge in E4. unfold len in E4. lia.
Qed.

Lemma frame_split (buf : bytes) (lb : byte) :
  nth_error buf 2 = Some lb -> 6 + byte_val lb <= len buf ->
  exists h0 h1 tb payload c0 c1 rest,
    buf = h0 :: h1 :: lb :: tb :: payload ++ c0 :: c1 :: rest /\
    len payload = byte_val lb.
Proof.
  intros H2 Hlen. pose proof (byte_val_range lb) as Hr.
  destruct buf as [|h0 [|h1 [|lb' [|tb r]]]];
    try discriminate; try (unfold len in Hlen; cbn [length] in Hlen; lia).
  injection H2 as ->.
  set (n := Z.to_nat (byte_val lb)).
  assert (Hn : (n + 2 <= length r)%nat).
  { unfold len in Hlen. cbn [length] in Hlen. lia. }
  assert (Hs : (2 <= length (skipn n r))%nat) by (rewrite length_skipn; lia).
  destruct (skipn n r) as [|c0 [|c1 rest]] eqn:Es; cbn [length] in Hs; try lia.
  exists h0, h1, tb, (firstn n r), c0, c1, rest. split.
  - now rewrite <- Es, firstn_skipn.
  - unfold len. rewrite length_firstn. lia.
Qed.

(** A pass never raises; it leaves the buffer alone when it stops here,
    and shortens it when the loop goes on. *)
Lemma frame_at_head_cases (buf : bytes) :
  match frame_at_head buf with
  | Break b => b = buf
  | Continue b _ => (length b < length buf)%nat
  | Raise => False
  end.
Proof.
  destruct (nth_error buf 2) as [lb|] eqn:E2.
  - destruct (Z_lt_dec (len buf) (6 + byte_val lb)) as [Hlt|Hge].
    + rewrite frame_at_head_wait; [reflexivity|].
      intros lb' E. congruence.
    + destruct (frame_split buf lb E2 ltac:(lia))
        as (h0 & h1 & tb & payload & c0 & c1 & rest & -> & Hp).
      rewrite (frame_at_head_complete h0 h1 lb tb payload c0 c1 rest Hp). cbv zeta.
      destruct (_ =? _); [destruct (_ =? _)|]; cbn [length];
        rewrite ?length_app; cbn [length]; lia.
  - rewrite frame_at_head_wait; [reflexivity|]. intros lb E. congruence.
Qed.

Lemma trim_to_header (buf : bytes) (k : nat) :
  (if Z.of_nat k >? 0 then skipn (Z.to_nat (Z.of_nat k)) buf else buf) = skipn k buf.
Proof.
  destruct k as [|k]; [reflexivity|].
  replace (Z.of_nat (S k) >? 0) with true by (symmetry; apply Z.gtb_lt; lia).
  now rewrite Nat2Z.id.
Qed.

(** The three ways a pass starts. *)
Lemma feed_step_short (buf : bytes) : len buf < 6 -> feed_step buf = Break buf.
Proof.
  intros H. unfold feed_step, HEADER_LEN.
  replace (len buf <? 2 + 1 + 1 + 2) with true by (symmetry; apply Z.ltb_lt; lia).
  reflexivity.
Qed.

Lemma feed_step_noise (buf : bytes) :
  6 <= len buf -> no_header buf -> feed_step buf = Break [].
Proof.
  intros H Hn. unfold feed_step, HEADER_LEN.
  replace (len buf <? 2 + 1 + 1 + 2) with false by (symmetry; apply Z.ltb_ge; lia).
  cbv zeta. unfold no_header in Hn. rewrite Hn. reflexivity.
Qed.

Lemma feed_step_found (buf : bytes) (k : nat) :
  6 <= len buf -> find_nat buf HEADER = Some k ->
  feed_step buf = frame_at_head (skipn k buf).
Proof.
  intros H Hk. unfold feed_step, HEADER_LEN.
  replace (len buf <? 2 + 1 + 1 + 2) with false by (symmetry; apply Z.ltb_ge; lia).
  cbv zeta. rewrite find_nat_find, Hk.
  replace (Z.of_nat k =? -1) with false by (symmetry; apply Z.eqb_neq; lia).
  now rewrite trim_to_header.
Qed.

Lemma feed_step_cases (buf : bytes) :
  match feed_step buf with
  | Break b =>
      (b = buf /\ len buf < 6) \/
      (b = [] /\ 6 <= len buf /\ no_header buf) \/
      (startswith b HEADER = true /\ exists k, b = skipn k buf)
  | Continue b _ => (length b < length buf)%nat
  | Raise => False
  end.
Proof.
  destruct (Z_lt_dec (len buf) 6) as [Hlt|Hge].
  - rewrite feed_step_short by assumption. now left.
  - destruct (find_nat buf HEADER) as [k|] eqn:Hk.
    + rewrite (feed_step_found buf k) by (assumption || lia).
      pose proof (frame_at_head_cases (skipn k buf)) as Hc.
      destruct (find_nat_Some buf k Hk) as [Hs _].
      destruct (frame_at_head (skipn k buf)) as [b|b out|].
      * subst b. right; right. split; [assumption | now exists k].
      * rewrite length_skipn in Hc. lia.
      * assumption.
    + apply no_header_nat in Hk.
      rewrite feed_step_noise by (assumption || lia).
      right; left. repeat split; [lia | assumption].
Qed.

End Step.

(* ================================================================= *)
(** * Properties: the loop of [feed] *)

Section Loop.

Import Parser.

Lemma emit_nil r : emit [] r = r.
Proof. destruct r as [[rs b]|]; reflexivity. Qed.

Lemma emit_emit out1 out2 r : emit out1 (emit out2 r) = emit (out1 ++ out2) r.
Proof.
  destruct r as [[rs b]|]; [|reflexivity].
  unfold emit. cbn. now rewrite app_assoc.
Qed.

Lemma feed_loop_acc (fuel : nat) (buf : bytes) (acc : list entry) :
  feed_loop fuel buf acc = emit acc (feed_loop fuel buf []).
Proof.
  revert buf acc. induction fuel as [|fuel IH]; intros buf acc; [reflexivity|].
  cbn [feed_loop]. destruct (feed_step buf) as [b|b out|].
  - unfold emit. cbn. now rewrite app_nil_r.
  - rewrite (IH b (acc ++ out)), (IH b ([] ++ out)), emit_emit. reflexivity.
  - reflexivity.
Qed.

(** Any fuel above the length of the buffer gives the same result. *)
Lemma feed_loop_fuel (f1 f2 : nat) (buf : bytes) (acc : list entry) :
  (length buf < f1)%nat -> (length buf < f2)%nat ->
  feed_loop f1 buf acc = feed_loop f2 buf acc.
Proof.
  revert f2 buf acc. induction f1 as [|f1 IH]; intros f2 buf acc H1 H2; [lia|].
  destruct f2 as [|f2]; [lia|]. cbn [feed_loop].
  pose proof (feed_step_cases buf) as Hc.
  destruct (feed_step buf) as [b|b out|]; try reflexivity.
  apply IH; lia.
Qed.

(** The loop, unfolded by one pass. *)
Lemma feed_run_unfold (buf : bytes) :
  feed_run buf =
  match feed_step buf with
  | Break b => Some ([], b)
  | Continue b out => emit out (feed_run b)
  | Raise => None
  end.
Proof.
  unfold feed_run at 1. cbn [feed_loop].
  pose proof (feed_step_cases buf) as Hc.
  destruct (feed_step buf) as [b|b out|]; try reflexivity.
  rewrite feed_loop_acc. cbn [app].
  unfold feed_run. f_equal. apply feed_loop_fuel; lia.
Qed.

Lemma feed_feed_run (p : t) (data : bytes) :
  feed p data =
  option_map (fun r => (fst r, mk (snd r))) (feed_run (buffer p ++ data)).
Proof.
  unfold feed, feed_run.
  now destruct (feed_loop _ _ _) as [[rs b]|].
Qed.

(** The loop ends, and no exception escapes it. *)
Lemma feed_run_returns (buf : bytes) : exists rs b, feed_run buf = Some (rs, b).
Proof.
  remember (length buf) as n eqn:Hn. revert buf Hn.
  induction n as [n IH] using lt_wf_ind. intros buf Hn.
  rewrite feed_run_unfold. pose proof (feed_step_cases buf) as Hc.
  destruct (feed_step buf) as [b|b out|].
  - now exists [], b.
  - destruct (IH (length b) ltac:(lia) b eq_refl) as (rs & b' & ->).
    now exists (out ++ rs), b'.
  - contradiction.
Qed.

(** [feed] returns for every parser state and every chunk. *)
Lemma feed_returns (p : t) (data : bytes) :
  exists rs p', feed p data = Some (rs, p').
Proof.
  rewrite feed_feed_run.
  destruct (feed_run_returns (buffer p ++ data)) as (rs & b & ->).
  now exists rs, (mk b).
Qed.

(** What the loop leaves in the buffer. *)
Lemma feed_run_leaves (buf : bytes) (rs : list entry) (b : bytes) :
  feed_run buf = Some (rs, b) -> ~ no_header b \/ len b <= 5.
Proof.
  remember (length buf) as n eqn:Hn. revert buf rs Hn.
  induction n as [n IH] using lt_wf_ind. intros buf rs Hn.
  rewrite feed_run_unfold. pose proof (feed_step_cases buf) as Hc.
  destruct (feed_step buf) as [b0|b0 out|]; [| |discriminate].
  - intros [= <- <-].
    destruct Hc as [[-> Hlt]|[[-> _]|[Hs _]]].
    + right. lia.
    + right. unfold len. cbn. lia.
    + left. apply startswith_header in Hs as [r ->].
      unfold no_header. rewrite find_nat_find, find_nat_header_here. lia.
  - destruct (feed_run b0) as [[rs0 b1]|] eqn:E; [|discriminate].
    cbn. intros [= <- <-].
    apply (IH (length b0) ltac:(lia) b0 rs0 eq_refl E).
Qed.

End Loop.

(* ================================================================= *)
(** * Properties: frames *)

Section Frames.

Import Parser.

Lemma crc16_range (data : bytes) : 0 <= Utils.crc16_ccitt data <= 0xFFFF.
Proof. apply land_FFFF_range. Qed.

Lemma wire_frame_eq (typ : byte) (payload : bytes) :
  wire_frame typ payload =
  xaa :: x55 :: byte_of_Z (len payload) :: typ :: payload
    ++ crc_bytes (byte_of_Z (len payload) :: typ :: payload).
Proof. reflexivity. Qed.

Lemma wire_frame_len (typ : byte) (payload : bytes) :
  len (wire_frame typ payload) = 6 + len payload.
Proof.
  rewrite wire_frame_eq. unfold len, crc_bytes. cbn [length].
  rewrite length_app. cbn [length]. lia.
Qed.

Lemma crc_bytes_check (body : bytes) :
  exists c0 c1, crc_bytes body = [c0; c1] /\
                Utils.crc16_ccitt body = byte_val c0 + 256 * byte_val c1.
Proof.
  eexists _, _. split; [reflexivity|].
  symmetry. apply u16_le_roundtrip, crc16_range.
Qed.

(** A well-formed frame at the head of the buffer is consumed in one pass. *)
Lemma feed_step_wire (typ : byte) (payload rest : bytes) :
  len payload <= 255 ->
  feed_step (wire_frame typ payload ++ rest) =
  Continue rest
    (if byte_val typ =? 1
     then decode_groups (wire_frame typ payload) payload
     else [Unknown (byte_val typ) (wire_frame typ payload)]).
Proof.
  intros Hlen. pose proof (len_nonneg payload) as H0.
  rewrite (feed_step_found _ O).
  2:{ rewrite len_app, wire_frame_len. pose proof (len_nonneg rest). lia. }
  2:{ rewrite wire_frame_eq. reflexivity. }
  cbn [skipn]. rewrite wire_frame_eq.
  destruct (crc_bytes_check (byte_of_Z (len payload) :: typ :: payload))
    as (c0 & c1 & -> & Hcrc).
  cbn [app]. rewrite <- app_assoc. cbn [app].
  rewrite frame_at_head_complete.
  2:{ rewrite byte_val_of_Z, Z.mod_small; lia. }
  cbv zeta. rewrite Hcrc, Z.eqb_refl.
  destruct (byte_val typ =? 1); reflexivity.
Qed.

(** A proper prefix of a well-formed frame stays in the buffer. *)
Lemma feed_step_prefix (typ : byte) (payload p q : bytes) :
  len payload <= 255 -> wire_frame typ payload = p ++ q -> q <> [] ->
  feed_step p = Break p.
Proof.
  intros Hlen Hpq Hq. pose proof (len_nonneg payload) as H0.
  assert (Hlp : len p < 6 + len payload).
  { rewrite <- (wire_frame_len typ), Hpq, len_app.
    destruct q; [congruence|]. unfold len. cbn [length]. lia. }
  destruct (Z_lt_dec (len p) 6) as [Hs|Hs]; [now apply feed_step_short|].
  rewrite wire_frame_eq in Hpq.
  destruct p as [|p0 [|p1 [|p2 p']]]; try (unfold len in Hs; cbn [length] in Hs; lia).
  cbn [app] in Hpq. injection Hpq as <- <- <- Hpq.
  rewrite (feed_step_found _ O); [|lia|reflexivity].
  cbn [skipn]. apply frame_at_head_wait.
  cbn [nth_error]. intros lb [= <-].
  rewrite byte_val_of_Z, Z.mod_small; lia.
Qed.

Lemma feed_run_nil : feed_run [] = Some ([], []).
Proof. reflexivity. Qed.

Lemma feed_run_wire (typ : byte) (payload : bytes) :
  len payload <= 255 ->
  feed_run (wire_frame typ payload) =
  Some (if byte_val typ =? 1
        then decode_groups (wire_frame typ payload) payload
        else [Unknown (byte_val typ) (wire_frame typ payload)], []).
Proof.
  intros Hlen. rewrite feed_run_unfold.
  rewrite <- (app_nil_r (wire_frame typ payload)) at 1.
  rewrite feed_step_wire, feed_run_nil by assumption.
  unfold emit. cbn. now rewrite app_nil_r.
Qed.

Lemma feed_run_prefix (typ : byte) (payload p q : bytes) :
  len payload <= 255 -> wire_frame typ payload = p ++ q -> q <> [] ->
  feed_run p = Some ([], p).
Proof.
  intros Hlen Hpq Hq. rewrite feed_run_unfold.
  now rewrite (feed_step_prefix typ payload p q).
Qed.

(** ** What [make_frame] builds *)

Lemma pack_samples_eq (samples : list (Z * Z)) :
  VirtualSender.pack_samples samples = Some (payload_of (map mask16 samples)).
Proof.
  induction samples as [|[sid adc] rest IH]; [reflexivity|].
  cbn [VirtualSender.pack_samples map payload_of mask16 fst snd].
  unfold pack_HH. rewrite !pack_H_Some by apply land_FFFF_range.
  rewrite IH. reflexivity.
Qed.

Lemma mask16_in_range (samples : list (Z * Z)) :
  in_range samples -> map mask16 samples = samples.
Proof.
  induction 1 as [|[sid adc] rest [H1 H2] _ IH]; [reflexivity|].
  cbn [map]. rewrite IH. unfold mask16. cbn [fst snd] in *.
  now rewrite !land_FFFF_small by lia.
Qed.

Lemma in_range_mask16 (samples : list (Z * Z)) : in_range (map mask16 samples).
Proof.
  induction samples as [|s rest IH]; constructor; [|exact IH].
  unfold mask16. cbn [fst snd].
  pose proof (land_FFFF_range (fst s)). pose proof (land_FFFF_range (snd s)). lia.
Qed.

Lemma payload_of_len (samples : list (Z * Z)) :
  len (payload_of samples) = 4 * len samples.
Proof.
  induction samples as [|[sid adc] rest IH]; [reflexivity|].
  cbn [payload_of]. unfold len in *. cbn [length]. lia.
Qed.

Lemma map_mask16_len (samples : list (Z * Z)) :
  len (map mask16 samples) = len samples.
Proof. unfold len. now rewrite length_map. Qed.

(** Up to 63 samples fit the one-byte length field. *)
Lemma make_frame_wire (samples : list (Z * Z)) :
  len samples <= 63 ->
  VirtualSender.make_frame samples =
  Some (wire_frame x01 (payload_of (map mask16 samples))).
Proof.
  intros Hn. unfold VirtualSender.make_frame.
  rewrite pack_samples_eq.
  set (payload := payload_of (map mask16 samples)).
  assert (Hp : 0 <= len payload < 256).
  { subst payload. rewrite payload_of_len, map_mask16_len.
    pose proof (len_nonneg samples). lia. }
  cbv zeta. rewrite Z.add_0_r, bytes_of_int_Some by assumption.
  change (bytes_of_int 1) with (Some [x01]). cbv beta iota.
  rewrite pack_H_Some by apply crc16_range.
  reflexivity.
Qed.

(** From 64 samples on, [bytes([length])] raises. *)
Lemma make_frame_too_long (samples : list (Z * Z)) :
  64 <= len samples -> VirtualSender.make_frame samples = None.
Proof.
  intros Hn. unfold VirtualSender.make_frame.
  rewrite pack_samples_eq. cbv zeta.
  rewrite bytes_of_int_None; [reflexivity|].
  rewrite payload_of_len, map_mask16_len. lia.
Qed.

Lemma decode_payload_of (frame : bytes) (samples : list (Z * Z)) :
  in_range samples ->
  decode_groups frame (payload_of samples) = entries_of frame samples.
Proof.
  induction 1 as [|[sid adc] rest [H1 H2] _ IH]; [reflexivity|].
  cbn [payload_of decode_groups entries_of map fst snd] in *.
  rewrite !u16_le_roundtrip by assumption.
  now rewrite IH.
Qed.

Lemma samples_of_entries (frame : bytes) (samples : list (Z * Z)) :
  samples_of (entries_of frame samples) = samples.
Proof.
  induction samples as [|[sid adc] rest IH]; [reflexivity|].
  cbn [entries_of map samples_of fst snd]. fold (entries_of frame rest).
  now rewrite IH.
Qed.

End Frames.

(* ================================================================= *)
(** * Properties: round trip, truncated groups, what the buffer keeps *)

Section Decoder.

Import Parser.

Lemma feed_all_silence (chunks : list bytes) :
  concat chunks = [] -> feed_all init chunks = Some ([], init).
Proof.
  induction chunks as [|c cs IH]; [reflexivity|].
  cbn [concat]. intros H. apply app_eq_nil in H as [-> H].
  cbn [feed_all]. change (feed init []) with (Some (@nil entry, init)).
  cbv beta iota. now rewrite (IH H).
Qed.

(** A well-formed frame, delivered in pieces to a parser that already
    holds its first bytes [p]. *)
Lemma feed_all_chunks (typ : byte) (payload : bytes) (chunks : list bytes) :
  len payload <= 255 ->
  forall p : bytes,
    p ++ concat chunks = wire_frame typ payload ->
    (length p < length (wire_frame typ payload))%nat ->
    feed_all (mk p) chunks =
    Some (if byte_val typ =? 1
          then decode_groups (wire_frame typ payload) payload
          else [Unknown (byte_val typ) (wire_frame typ payload)], init).
Proof.
  intros Hlen. induction chunks as [|c cs IH]; intros p Hp Hlt.
  - cbn [concat] in Hp. rewrite app_nil_r in Hp. subst p. lia.
  - cbn [concat] in Hp. rewrite app_assoc in Hp.
    cbn [feed_all]. rewrite feed_feed_run. cbn [buffer].
    destruct (concat cs) as [|x xs] eqn:Hcs.
    + rewrite app_nil_r in Hp. rewrite Hp, feed_run_wire by assumption.
      cbn [option_map fst snd]. fold init.
      rewrite (feed_all_silence cs Hcs). now rewrite app_nil_r.
    + rewrite (feed_run_prefix typ payload (p ++ c) (x :: xs));
        [|assumption|now symmetry|discriminate].
      cbn [option_map fst snd].
      rewrite (IH (p ++ c)).
      * reflexivity.
      * exact Hp.
      * rewrite <- Hp, !length_app. cbn [length]. lia.
Qed.

Lemma concat_singletons {A} (l : list A) : concat (map (fun b => [b]) l) = l.
Proof. induction l as [|x l IH]; [reflexivity|]. cbn. now rewrite IH. Qed.

(** C1, as the code has it: up to 63 in-range samples survive
    [make_frame] followed by [feed], whatever the chunking; the frame is
    decoded by the call that delivers its last byte, the parser ends
    with an empty buffer.  (From 64 samples on [make_frame] raises, see
    [make_frame_rejects_64_samples].) *)
Theorem roundtrip_any_chunking (samples : list (Z * Z)) :
  in_range samples -> len samples <= 63 ->
  exists frame,
    VirtualSender.make_frame samples = Some frame /\
    samples_of (entries_of frame samples) = samples /\
    feed init frame = Some (entries_of frame samples, init) /\
    feed_all init (map (fun b => [b]) frame) = Some (entries_of frame samples, init) /\
    forall chunks, concat chunks = frame ->
                   feed_all init chunks = Some (entries_of frame samples, init).
Proof.
  intros Hr Hn.
  exists (wire_frame x01 (payload_of samples)).
  assert (Hlen : len (payload_of samples) <= 255).
  { rewrite payload_of_len. lia. }
  assert (Hall : forall chunks,
             concat chunks = wire_frame x01 (payload_of samples) ->
             feed_all init chunks =
             Some (entries_of (wire_frame x01 (payload_of samples)) samples, init)).
  { intros chunks Hc. unfold init.
    rewrite (feed_all_chunks x01 (payload_of samples) chunks Hlen []).
    - change (byte_val x01 =? 1) with true. cbv iota.
      now rewrite decode_payload_of.
    - exact Hc.
    - rewrite wire_frame_eq. cbn [length]. lia. }
  repeat split.
  - rewrite make_frame_wire by assumption. now rewrite mask16_in_range.
  - apply samples_of_entries.
  - specialize (Hall [wire_frame x01 (payload_of samples)]).
    cbn [concat feed_all] in Hall. rewrite app_nil_r in Hall.
    specialize (Hall eq_refl).
    destruct (feed init (wire_frame x01 (payload_of samples))) as [[out p']|];
      [|discriminate].
    injection Hall as H1 H2. rewrite app_nil_r in H1. now subst.
  - apply Hall, concat_singletons.
  - exact Hall.
Qed.

Lemma roundtrip_two_samples :
  exists frame,
    VirtualSender.make_frame [(1, 2); (65535, 1023)] = Some frame /\
    samples_of (entries_of frame [(1, 2); (65535, 1023)]) = [(1, 2); (65535, 1023)] /\
    feed init frame = Some (entries_of frame [(1, 2); (65535, 1023)], init) /\
    feed_all init (map (fun b => [b]) frame)
      = Some (entries_of frame [(1, 2); (65535, 1023)], init) /\
    forall chunks, concat chunks = frame ->
                   feed_all init chunks
                   = Some (entries_of frame [(1, 2); (65535, 1023)], init).
Proof.
  apply (roundtrip_any_chunking [(1, 2); (65535, 1023)]).
  - repeat constructor; cbn; lia.
  - vm_compute. discriminate.
Defined.

(** C1 as stated fails from 64 samples on: the payload has 256 bytes or
    more, [bytes([length])] raises [ValueError] and no frame is built. *)
Lemma make_frame_rejects_64_samples :
  in_range (repeat (0, 0) 64) /\
  VirtualSender.make_frame (repeat (0, 0) 64) = None.
Proof.
  split.
  - apply Forall_forall. intros x Hx. apply repeat_spec in Hx. subst x. cbn. lia.
  - vm_compute. reflexivity.
Qed.

Lemma decode_groups_complete (frame payload : bytes) :
  decode_groups frame payload =
  decode_groups frame (firstn (4 * (length payload / 4)) payload).
Proof.
  remember (length payload) as m eqn:Hm. revert payload Hm.
  induction m as [m IH] using lt_wf_ind. intros payload Hm.
  destruct payload as [|a0 [|a1 [|b0 [|b1 r]]]]; subst m; try reflexivity.
  cbn [length].
  replace (S (S (S (S (length r))))) with (1 * 4 + length r)%nat by lia.
  rewrite Nat.div_add_l by lia.
  replace (4 * (1 + length r / 4))%nat with (S (S (S (S (4 * (length r / 4))))))
    by lia.
  cbn [firstn decode_groups]. f_equal.
  apply (IH (length r)); [cbn [length]; lia | reflexivity].
Qed.

(** C8: a valid type-1 frame whose payload length is not a multiple of
    four is accepted; [feed] returns (no exception), emits one sample per
    complete leading group, [len payload / 4] of them, nothing for the
    trailing bytes, and consumes the whole frame. *)
Theorem partial_group_dropped (payload : bytes) :
  len payload <= 255 -> len payload mod 4 <> 0 ->
  exists rs,
    feed init (wire_frame x01 payload) = Some (rs, init) /\
    len rs = len payload / 4 /\
    rs = decode_groups (wire_frame x01 payload)
           (firstn (4 * (length payload / 4)) payload).
Proof.
  intros Hlen _.
  exists (decode_groups (wire_frame x01 payload) payload). repeat split.
  - rewrite feed_feed_run. cbn [buffer init app].
    now rewrite feed_run_wire.
  - apply decode_groups_length.
  - apply decode_groups_complete.
Qed.

Lemma partial_group_dropped_6_bytes :
  exists rs,
    feed init (wire_frame x01 [x01; x00; x02; x00; x03; x00]) = Some (rs, init) /\
    len rs = len [x01; x00; x02; x00; x03; x00] / 4 /\
    rs = decode_groups (wire_frame x01 [x01; x00; x02; x00; x03; x00])
           (firstn (4 * (length [x01; x00; x02; x00; x03; x00] / 4))
                   [x01; x00; x02; x00; x03; x00]).
Proof.
  apply (partial_group_dropped [x01; x00; x02; x00; x03; x00]).
  - vm_compute. discriminate.
  - vm_compute. discriminate.
Defined.

(** ** What stays in the buffer *)

Lemma has_header_split (b : bytes) :
  ~ no_header b -> exists pre post, b = pre ++ xaa :: x55 :: post.
Proof.
  intros H. destruct (find_nat b HEADER) as [k|] eqn:Hk.
  - destruct (find_nat_Some b k Hk) as [Hs _].
    apply startswith_header in Hs as [r Hr].
    exists (firstn k b), r. now rewrite <- Hr, firstn_skipn.
  - now apply no_header_nat in Hk.
Qed.

(** C10: after every call of [feed], from any parser state, the buffer
    holds the two header bytes somewhere or has at most five bytes. *)
Theorem buffer_header_or_short (p : t) (data : bytes) :
  exists rs p',
    feed p data = Some (rs, p') /\
    ((exists pre post, buffer p' = pre ++ xaa :: x55 :: post) \/
     len (buffer p') <= 5).
Proof.
  destruct (feed_run_returns (buffer p ++ data)) as (rs & b & Hrun).
  exists rs, (mk b). rewrite feed_feed_run, Hrun. split; [reflexivity|].
  cbn [buffer].
  destruct (feed_run_leaves _ _ _ Hrun) as [H|H]; [left|right; assumption].
  now apply has_header_split.
Qed.

(** A call on header-free bytes emits nothing; it keeps fewer than six
    bytes as they are and clears six or more. *)
Lemma feed_noise (p : t) (data : bytes) :
  no_header (buffer p ++ data) ->
  feed p data =
  Some ([], mk (if len (buffer p ++ data) <? 6 then buffer p ++ data else [])).
Proof.
  intros H. rewrite feed_feed_run, feed_run_unfold.
  destruct (len (buffer p ++ data) <? 6) eqn:E.
  - apply Z.ltb_lt in E. now rewrite feed_step_short.
  - apply Z.ltb_ge in E. now rewrite feed_step_noise.
Qed.

Lemma feed_all_noise (chunks : list bytes) :
  forall (p : t) (k : nat),
    no_header (buffer p ++ concat chunks) -> len (buffer p) <= 5 ->
    exists p', feed_all p (firstn k chunks) = Some ([], p') /\ len (buffer p') <= 5.
Proof.
  induction chunks as [|c cs IH]; intros p k Hn Hb.
  - rewrite firstn_nil. now exists p.
  - destruct k as [|k]; [now exists p|].
    cbn [firstn feed_all concat] in *. rewrite app_assoc in Hn.
    rewrite (feed_noise p c) by (now apply no_header_app_l in Hn).
    set (p1 := mk (if len (buffer p ++ c) <? 6 then buffer p ++ c else [])).
    destruct (IH p1 k) as (p' & Hp' & Hlen).
    + subst p1. cbn [buffer]. destruct (len (buffer p ++ c) <? 6); [assumption|].
      now apply no_header_app_r in Hn.
    + subst p1. cbn [buffer]. destruct (len (buffer p ++ c) <? 6) eqn:E.
      * apply Z.ltb_lt in E. lia.
      * unfold len. cbn. lia.
    + exists p'. now rewrite Hp'.
Qed.

(** The same with what the next call does: it keeps fewer than six bytes
    as they are and clears six or more. *)
Lemma feed_all_noise_next (chunks : list bytes) :
  forall (p : t) (k : nat),
    no_header (buffer p ++ concat chunks) -> len (buffer p) <= 5 ->
    exists p',
      feed_all p (firstn k chunks) = Some ([], p') /\ len (buffer p') <= 5 /\
      forall c, nth_error chunks k = Some c ->
                feed p' c =
                Some ([], mk (if len (buffer p' ++ c) <? 6 then buffer p' ++ c else [])).
Proof.
  induction chunks as [|c cs IH]; intros p k Hn Hb.
  - rewrite firstn_nil. exists p. repeat split; [assumption|].
    intros c Hc. destruct k; discriminate.
  - destruct k as [|k].
    + exists p. repeat split; [assumption|].
      intros c' Hc. cbn [nth_error] in Hc. injection Hc as <-.
      apply feed_noise. cbn [concat] in Hn. rewrite app_assoc in Hn.
      now apply no_header_app_l in Hn.
    + cbn [firstn feed_all concat nth_error] in *. rewrite app_assoc in Hn.
      rewrite (feed_noise p c) by (now apply no_header_app_l in Hn).
      set (p1 := mk (if len (buffer p ++ c) <? 6 then buffer p ++ c else [])).
      destruct (IH p1 k) as (p' & Hp' & Hlen & Hnext).
      * subst p1. cbn [buffer]. destruct (len (buffer p ++ c) <? 6); [assumption|].
        now apply no_header_app_r in Hn.
      * subst p1. cbn [buffer]. destruct (len (buffer p ++ c) <? 6) eqn:E.
        -- apply Z.ltb_lt in E. lia.
        -- unfold len. cbn. lia.
      * exists p'. rewrite Hp'. repeat split; assumption.
Qed.

(** Chunks of six bytes or more: every call clears the buffer. *)
Lemma feed_all_noise_long (chunks : list bytes) :
  forall (p p' : t) (k : nat) (rs : list entry),
    no_header (buffer p ++ concat chunks) ->
    Forall (fun c => 6 <= len c) chunks ->
    buffer p = [] ->
    feed_all p (firstn k chunks) = Some (rs, p') -> buffer p' = [].
Proof.
  induction chunks as [|c cs IH]; intros p p' k rs Hn Hall Hb H.
  - rewrite firstn_nil in H. cbn [feed_all] in H. now injection H as _ <-.
  - destruct k as [|k]; [cbn [firstn feed_all] in H; now injection H as _ <-|].
    inversion Hall as [|? ? Hc Hcs]; subst.
    cbn [firstn feed_all concat] in *. rewrite app_assoc in Hn.
    rewrite (feed_noise p c) in H by (now apply no_header_app_l in Hn).
    rewrite Hb in *. cbn [app] in *.
    replace (len c <? 6) with false in H by (symmetry; apply Z.ltb_ge; lia).
    destruct (feed_all (mk []) (firstn k cs)) as [[rs1 p1]|] eqn:E; [|discriminate].
    injection H as _ <-.
    apply (IH (mk []) p1 k rs1); [|assumption|reflexivity|exact E].
    cbn [buffer app]. now apply no_header_app_r in Hn.
Qed.

(** C4, as the code has it: on header-free input nothing is emitted and
    the buffer holds at most five bytes after each call.  A call that
    sees six bytes or more (buffered and fed together) clears the buffer;
    a call that sees fewer keeps them all.  So the buffer has size 0 after
    each call when every chunk has six bytes or more. *)
Theorem noise_buffer_bounded (chunks : list bytes) (k : nat) :
  no_header (concat chunks) ->
  exists p,
    feed_all init (firstn k chunks) = Some ([], p) /\ len (buffer p) <= 5 /\
    (forall c, nth_error chunks k = Some c ->
               (6 <= len (buffer p) + len c -> feed p c = Some ([], mk [])) /\
               (len (buffer p) + len c < 6 -> feed p c = Some ([], mk (buffer p ++ c)))) /\
    (Forall (fun c => 6 <= len c) chunks -> buffer p = []).
Proof.
  intros H.
  destruct (feed_all_noise_next chunks init k) as (p & Hp & Hlen & Hnext);
    [exact H | unfold len; cbn; lia |].
  exists p. split; [exact Hp|]. split; [exact Hlen|]. split.
  - intros c Hc. specialize (Hnext c Hc). rewrite len_app in Hnext.
    split; intros Hl; rewrite Hnext.
    + now replace (len (buffer p) + len c <? 6) with false
        by (symmetry; apply Z.ltb_ge; lia).
    + now replace (len (buffer p) + len c <? 6) with true
        by (symmetry; apply Z.ltb_lt; lia).
  - intros Hall. now apply (feed_all_noise_long chunks init p k [] H Hall eq_refl).
Qed.

Lemma noise_buffer_bounded_example :
  exists p,
    feed_all init (firstn 2 [[x00; x01; x02]; [xaa; x03; x55; x04]; [x05]])
    = Some ([], p) /\ len (buffer p) <= 5 /\
    (forall c, nth_error [[x00; x01; x02]; [xaa; x03; x55; x04]; [x05]] 2 = Some c ->
               (6 <= len (buffer p) + len c -> feed p c = Some ([], mk [])) /\
               (len (buffer p) + len c < 6 -> feed p c = Some ([], mk (buffer p ++ c)))) /\
    (Forall (fun c => 6 <= len c) [[x00; x01; x02]; [xaa; x03; x55; x04]; [x05]] ->
     buffer p = []).
Proof.
  apply (noise_buffer_bounded [[x00; x01; x02]; [xaa; x03; x55; x04]; [x05]] 2).
  vm_compute. reflexivity.
Defined.

(** C4 as stated fails: one byte of noise stays in the buffer. *)
Lemma noise_byte_is_kept :
  no_header [x00] /\ feed init [x00] = Some ([], mk [x00]) /\
  len (buffer (mk [x00])) = 1.
Proof. repeat split. Qed.

End Decoder.

(* ================================================================= *)
(** * Properties: the checksum *)

Section Checksum.

Import Utils.

Lemma u16_high_bits (z : Z) : u16 z -> forall i, 16 <= i -> Z.testbit z i = false.
Proof.
  intros H i Hi. rewrite <- (Z.mod_small z (2 ^ 16)) by exact H.
  apply Z.mod_pow2_bits_high. lia.
Qed.

Lemma high_bits_u16 (z : Z) : (forall i, 16 <= i -> Z.testbit z i = false) -> u16 z.
Proof.
  intros H. assert (E : z mod 2 ^ 16 = z).
  { apply Z.bits_inj'. intros i Hi. rewrite Z.testbit_mod_pow2 by lia.
    destruct (i <? 16) eqn:Ei; [reflexivity|].
    apply Z.ltb_ge in Ei. now rewrite H. }
  unfold u16. rewrite <- E. apply Z.mod_pos_bound. lia.
Qed.

Lemma lxor_u16 (a b : Z) : u16 a -> u16 b -> u16 (Z.lxor a b).
Proof.
  intros Ha Hb. apply high_bits_u16. intros i Hi.
  now rewrite Z.lxor_spec, (u16_high_bits a), (u16_high_bits b).
Qed.

Lemma land_pow2 (a n : Z) :
  0 <= n -> Z.land a (2 ^ n) = if Z.testbit a n then 2 ^ n else 0.
Proof.
  intros Hn. apply Z.bits_inj'. intros i Hi.
  rewrite Z.land_spec, Z.pow2_bits_eqb by assumption.
  destruct (Z.eqb_spec n i) as [->|Hne].
  - destruct (Z.testbit a i) eqn:E; cbn [andb].
    + now rewrite Z.pow2_bits_true.
    + now rewrite Z.bits_0.
  - rewrite andb_false_r.
    destruct (Z.testbit a n); [now rewrite Z.pow2_bits_false | now rewrite Z.bits_0].
Qed.

(** The code's round is the specification's, on every integer. *)
Lemma crc_round_spec (acc : Z) : crc_round 0x1021 acc = spec_round acc.
Proof.
  unfold crc_round, spec_round.
  change 0x8000 with (2 ^ 15). rewrite land_pow2 by lia.
  change 0xFFFF with (Z.ones 16).
  rewrite Z.land_ones, Z.shiftl_mul_pow2 by lia.
  change (2 ^ 1) with 2. rewrite (Z.mul_comm acc 2).
  destruct (Z.testbit acc 15); reflexivity.
Qed.

Lemma crc_update_spec (acc : Z) (b : byte) : crc_update 0x1021 acc b = spec_byte acc b.
Proof.
  unfold crc_update, spec_byte. rewrite Z.shiftl_mul_pow2 by lia.
  generalize (Z.lxor acc (byte_val b * 2 ^ 8)). intros z.
  cbv [Nat.iter nat_rect]. now rewrite !crc_round_spec.
Qed.

Lemma fold_crc_update_spec (data : bytes) (acc : Z) :
  fold_left (crc_update 0x1021) data acc = fold_left spec_byte data acc.
Proof.
  revert acc. induction data as [|b data IH]; intros acc; [reflexivity|].
  cbn [fold_left]. now rewrite crc_update_spec, IH.
Qed.

(** ** The accumulator stays within 16 bits *)

Lemma spec_round_u16 (acc : Z) : u16 (spec_round acc).
Proof.
  unfold spec_round.
  assert (H : u16 ((2 * acc) mod 2 ^ 16)) by (apply Z.mod_pos_bound; lia).
  destruct (Z.testbit acc 15); [|exact H].
  apply lxor_u16; [exact H | unfold u16; lia].
Qed.

Lemma byte_shift_u16 (b : byte) : u16 (byte_val b * 2 ^ 8).
Proof. pose proof (byte_val_range b). unfold u16. lia. Qed.

Lemma spec_byte_u16 (acc : Z) (b : byte) : u16 (spec_byte acc b).
Proof. unfold spec_byte. cbv [Nat.iter nat_rect]. apply spec_round_u16. Qed.

Lemma fold_spec_byte_u16 (data : bytes) (acc : Z) :
  u16 acc -> u16 (fold_left spec_byte data acc).
Proof.
  revert acc. induction data as [|b data IH]; intros acc H; [exact H|].
  cbn [fold_left]. apply IH, spec_byte_u16.
Qed.

(** XORing a byte in at bits 8 to 15 leaves the other bits as they are. *)
Lemma xor_in_bits_8_15 (acc : Z) (b : byte) (i : Z) :
  i < 8 \/ 16 <= i ->
  Z.testbit (Z.lxor acc (Z.shiftl (byte_val b) 8)) i = Z.testbit acc i.
Proof.
  intros Hi. rewrite Z.lxor_spec.
  replace (Z.testbit (Z.shiftl (byte_val b) 8) i) with false;
    [now rewrite xorb_false_r|].
  symmetry. rewrite Z.shiftl_mul_pow2 by lia.
  destruct Hi as [Hi|Hi].
  - now apply Z.mul_pow2_bits_low.
  - now apply u16_high_bits; [apply byte_shift_u16|].
Qed.

Lemma crc16_is_spec (data : bytes) : crc16_ccitt data = crc16_ccitt_false data.
Proof.
  unfold crc16_ccitt, crc16_ccitt_with, crc16_ccitt_false.
  rewrite fold_crc_update_spec.
  assert (H : u16 (fold_left spec_byte data 0xFFFF)).
  { apply fold_spec_byte_u16. unfold u16. lia. }
  apply land_FFFF_small. unfold u16 in H. lia.
Qed.

(** C2: [crc16_ccitt] is a function of its input that computes
    CRC-16/CCITT-FALSE as specified: polynomial 0x1021, initial value
    0xFFFF, each byte XORed into bits 8 to 15 (the other bits untouched)
    and followed by eight shift/XOR rounds within 16 bits; the result is
    a 16-bit value, and the check input "123456789" gives 0x29B1. *)
Theorem crc16_ccitt_correct :
  (forall data, crc16_ccitt data = crc16_ccitt_false data) /\
  (forall data, 0 <= crc16_ccitt data <= 0xFFFF) /\
  (forall data acc b,
      fold_left (crc_update 0x1021) (data ++ [b]) acc =
      Nat.iter 8 (crc_round 0x1021)
               (Z.lxor (fold_left (crc_update 0x1021) data acc)
                       (Z.shiftl (byte_val b) 8))) /\
  (forall acc, crc_round 0x1021 acc = spec_round acc /\ u16 (crc_round 0x1021 acc)) /\
  (forall acc b i, i < 8 \/ 16 <= i ->
      Z.testbit (Z.lxor acc (Z.shiftl (byte_val b) 8)) i = Z.testbit acc i) /\
  crc16_ccitt b123456789 = 0x29B1.
Proof.
  split; [exact crc16_is_spec|].
  split; [exact crc16_range|].
  split; [intros data acc b; now rewrite fold_left_app|].
  split; [intros acc; rewrite crc_round_spec; split;
          [reflexivity | apply spec_round_u16]|].
  split; [exact xor_in_bits_8_15|].
  vm_compute. reflexivity.
Qed.

End Checksum.

(* ================================================================= *)
(** * Properties: what the checksum detects *)

Section Detection.

Import Utils.

Lemma lxor_cancel_r (a b c : Z) : Z.lxor a c = Z.lxor b c -> a = b.
Proof.
  intros H. apply (f_equal (fun z => Z.lxor z c)) in H.
  now rewrite !Z.lxor_assoc, Z.lxor_nilpotent, !Z.lxor_0_r in H.
Qed.

Lemma lxor_cancel_l (a b c : Z) : Z.lxor c a = Z.lxor c b -> a = b.
Proof. rewrite !(Z.lxor_comm c). apply lxor_cancel_r. Qed.

Lemma odd_lxor (a b : Z) : Z.odd (Z.lxor a b) = xorb (Z.odd a) (Z.odd b).
Proof. now rewrite <- !Z.bit0_odd, Z.lxor_spec. Qed.

Lemma u16_bit15 (acc : Z) : u16 acc -> Z.testbit acc 15 = (2 ^ 15 <=? acc).
Proof.
  unfold u16. intros H. rewrite Z.testbit_eqb by lia.
  destruct (Z.leb_spec (2 ^ 15) acc) as [Hge|Hlt].
  - replace (acc / 2 ^ 15) with 1; [reflexivity|].
    apply (Z.div_unique acc (2 ^ 15) 1 (acc - 2 ^ 15)); lia.
  - rewrite Z.div_small by lia. reflexivity.
Qed.

(** A round is one-to-one on 16-bit values: the polynomial is odd, so the
    parity of the result tells whether bit 15 was set. *)
Lemma spec_round_inj (a b : Z) :
  u16 a -> u16 b -> spec_round a = spec_round b -> a = b.
Proof.
  intros Ha Hb. unfold spec_round. rewrite !u16_bit15 by assumption.
  unfold u16 in *.
  destruct (Z.leb_spec (2 ^ 15) a) as [Ha'|Ha'];
    destruct (Z.leb_spec (2 ^ 15) b) as [Hb'|Hb'].
  - intros H. apply lxor_cancel_r in H.
    assert (Ea : (2 * a) mod 2 ^ 16 = 2 * a - 2 ^ 16).
    { symmetry. apply (Z.mod_unique (2 * a) (2 ^ 16) 1); lia. }
    assert (Eb : (2 * b) mod 2 ^ 16 = 2 * b - 2 ^ 16).
    { symmetry. apply (Z.mod_unique (2 * b) (2 ^ 16) 1); lia. }
    lia.
  - intros H. apply (f_equal Z.odd) in H.
    assert (Ea : (2 * a) mod 2 ^ 16 = 2 * a - 2 ^ 16).
    { symmetry. apply (Z.mod_unique (2 * a) (2 ^ 16) 1); lia. }
    rewrite odd_lxor, Ea, (Z.mod_small (2 * b)) in H by lia.
    replace (2 * a - 2 ^ 16) with (2 * (a - 2 ^ 15)) in H by lia.
    rewrite !Z.odd_even in H. discriminate.
  - intros H. apply (f_equal Z.odd) in H.
    assert (Eb : (2 * b) mod 2 ^ 16 = 2 * b - 2 ^ 16).
    { symmetry. apply (Z.mod_unique (2 * b) (2 ^ 16) 1); lia. }
    rewrite odd_lxor, Eb, (Z.mod_small (2 * a)) in H by lia.
    replace (2 * b - 2 ^ 16) with (2 * (b - 2 ^ 15)) in H by lia.
    rewrite !Z.odd_even in H. discriminate.
  - rewrite !Z.mod_small by lia. lia.
Qed.

Lemma iter_spec_round_u16 (n : nat) (a : Z) : u16 a -> u16 (Nat.iter n spec_round a).
Proof.
  destruct n as [|n]; [trivial|]. intros _.
  rewrite Nat.iter_succ. apply spec_round_u16.
Qed.

Lemma iter_spec_round_inj (n : nat) (a b : Z) :
  u16 a -> u16 b -> Nat.iter n spec_round a = Nat.iter n spec_round b -> a = b.
Proof.
  intros Ha Hb. induction n as [|n IH]; [trivial|].
  rewrite !Nat.iter_succ. intros H.
  apply spec_round_inj in H; auto using iter_spec_round_u16.
Qed.

(** Processing one byte is one-to-one in the accumulator and in the byte. *)
Lemma spec_byte_inj_acc (a a' : Z) (b : byte) :
  u16 a -> u16 a' -> spec_byte a b = spec_byte a' b -> a = a'.
Proof.
  intros Ha Ha' H. unfold spec_byte in H.
  apply iter_spec_round_inj in H; auto using lxor_u16, byte_shift_u16.
  now apply lxor_cancel_r in H.
Qed.

Lemma spec_byte_inj_byte (a : Z) (b b' : byte) :
  u16 a -> spec_byte a b = spec_byte a b' -> b = b'.
Proof.
  intros Ha H. unfold spec_byte in H.
  apply iter_spec_round_inj in H; auto using lxor_u16, byte_shift_u16.
  apply lxor_cancel_l in H. apply byte_val_inj. lia.
Qed.

Lemma fold_spec_byte_inj (data : bytes) (a a' : Z) :
  u16 a -> u16 a' -> fold_left spec_byte data a = fold_left spec_byte data a' -> a = a'.
Proof.
  revert a a'. induction data as [|b data IH]; intros a a' Ha Ha' H; [exact H|].
  cbn [fold_left] in H. apply IH in H; auto using spec_byte_u16.
  now apply spec_byte_inj_acc in H.
Qed.

(** Changing one byte changes the checksum. *)
Lemma crc_single_byte (pre post : bytes) (b b' : byte) :
  b' <> b -> crc16_ccitt (pre ++ b' :: post) <> crc16_ccitt (pre ++ b :: post).
Proof.
  intros Hne H. rewrite !crc16_is_spec in H. unfold crc16_ccitt_false in H.
  rewrite !fold_left_app in H. cbn [fold_left] in H.
  apply fold_spec_byte_inj in H; auto using spec_byte_u16.
  apply spec_byte_inj_byte in H; [contradiction|].
  apply fold_spec_byte_u16. unfold u16. lia.
Qed.

End Detection.

(* ================================================================= *)
(** * Properties: resynchronisation *)

Section Resync.

Import Parser.

(** A complete candidate frame whose CRC field does not match: the pass
    removes the first byte of the buffer and nothing else. *)
Lemma frame_at_head_mismatch (h0 h1 lb : byte) (body : bytes) (c0 c1 : byte)
      (rest : bytes) :
  len body = 1 + byte_val lb ->
  Utils.crc16_ccitt (lb :: body) <> byte_val c0 + 256 * byte_val c1 ->
  frame_at_head (h0 :: h1 :: lb :: body ++ c0 :: c1 :: rest) =
  Continue (h1 :: lb :: body ++ c0 :: c1 :: rest) [].
Proof.
  intros Hlen Hcrc. destruct body as [|tb payload].
  - pose proof (byte_val_range lb). unfold len in Hlen. cbn [length] in Hlen. lia.
  - cbn [app]. rewrite frame_at_head_complete.
    + cbv zeta. apply Z.eqb_neq in Hcrc. now rewrite Hcrc.
    + unfold len in *. cbn [length] in Hlen. lia.
Qed.

Lemma crc_mismatch_drops_first_byte (lb : byte) (body : bytes) (c0 c1 : byte)
      (rest : bytes) :
  len body = 1 + byte_val lb ->
  Utils.crc16_ccitt (lb :: body) <> byte_val c0 + 256 * byte_val c1 ->
  feed_step (xaa :: x55 :: lb :: body ++ c0 :: c1 :: rest) =
  Continue (skipn 1 (xaa :: x55 :: lb :: body ++ c0 :: c1 :: rest)) [].
Proof.
  intros Hlen Hcrc. rewrite (feed_step_found _ O); [|..|reflexivity].
  - cbn [skipn]. now apply frame_at_head_mismatch.
  - pose proof (byte_val_range lb). pose proof (len_nonneg rest).
    unfold len in *. cbn [length]. rewrite length_app. cbn [length]. lia.
Qed.

(** The same behind bytes that hold no header: they go first, then the
    first byte of the candidate frame. *)
Lemma crc_mismatch_after_noise (noise : bytes) (lb : byte) (body : bytes)
      (c0 c1 : byte) (rest : bytes) :
  no_header noise ->
  len body = 1 + byte_val lb ->
  Utils.crc16_ccitt (lb :: body) <> byte_val c0 + 256 * byte_val c1 ->
  feed_step (noise ++ xaa :: x55 :: lb :: body ++ c0 :: c1 :: rest) =
  Continue (skipn 1 (xaa :: x55 :: lb :: body ++ c0 :: c1 :: rest)) [].
Proof.
  intros Hn Hlen Hcrc. apply no_header_nat in Hn.
  rewrite (feed_step_found _ (length noise)).
  - rewrite skipn_length_app. cbn [skipn]. now apply frame_at_head_mismatch.
  - pose proof (byte_val_range lb). pose proof (len_nonneg rest).
    pose proof (len_nonneg noise).
    rewrite len_app. unfold len in *. cbn [length]. rewrite length_app.
    cbn [length]. lia.
  - now apply find_nat_skip.
Qed.

(** Noise without a header in front of a well-formed frame: one pass
    discards the noise and consumes the frame. *)
Lemma feed_step_skip_noise (noise : bytes) (typ : byte) (payload rest : bytes) :
  no_header noise -> len payload <= 255 ->
  feed_step (noise ++ wire_frame typ payload ++ rest) =
  Continue rest
    (if byte_val typ =? 1
     then decode_groups (wire_frame typ payload) payload
     else [Unknown (byte_val typ) (wire_frame typ payload)]).
Proof.
  intros Hn Hlen. apply no_header_nat in Hn.
  pose proof (feed_step_wire typ payload rest Hlen) as Hw.
  rewrite (feed_step_found _ O) in Hw.
  2:{ rewrite len_app, wire_frame_len.
      pose proof (len_nonneg rest). pose proof (len_nonneg payload). lia. }
  2:{ rewrite wire_frame_eq. reflexivity. }
  cbn [skipn] in Hw.
  rewrite (feed_step_found _ (length noise)).
  - now rewrite skipn_length_app.
  - rewrite !len_app, wire_frame_len.
    pose proof (len_nonneg rest). pose proof (len_nonneg payload).
    pose proof (len_nonneg noise). lia.
  - rewrite wire_frame_eq. cbn [app]. now apply find_nat_skip.
Qed.

Lemma feed_run_skip_noise (noise : bytes) (typ : byte) (payload : bytes) :
  no_header noise -> len payload <= 255 ->
  feed_run (noise ++ wire_frame typ payload) =
  Some (if byte_val typ =? 1
        then decode_groups (wire_frame typ payload) payload
        else [Unknown (byte_val typ) (wire_frame typ payload)], []).
Proof.
  intros Hn Hlen. rewrite feed_run_unfold.
  rewrite <- (app_nil_r (wire_frame typ payload)) at 1.
  rewrite feed_step_skip_noise, feed_run_nil by assumption.
  unfold emit. cbn. now rewrite app_nil_r.
Qed.

(** One byte changed from offset 3 on (type, payload or CRC field): the
    candidate frame has the length of the original and fails the check. *)
Lemma corrupted_frame_rejected (typ : byte) (payload pre post rest : bytes)
      (b b' : byte) :
  len payload <= 255 ->
  wire_frame typ payload = pre ++ b :: post -> b' <> b -> (3 <= length pre)%nat ->
  feed_step ((pre ++ b' :: post) ++ rest) =
  Continue (skipn 1 ((pre ++ b' :: post) ++ rest)) [].
Proof.
  intros Hlen Hw Hne Hpre. pose proof (len_nonneg payload) as H0.
  rewrite wire_frame_eq in Hw.
  destruct pre as [|p0 [|p1 [|p2 pre3]]]; cbn [length] in Hpre; try lia.
  cbn [app] in Hw. injection Hw as <- <- <- Hw.
  destruct (crc_bytes_check (byte_of_Z (len payload) :: typ :: payload))
    as (c0 & c1 & Hcb & Hcrc).
  rewrite Hcb in Hw. clear Hcb.
  assert (Hlb : byte_val (byte_of_Z (len payload)) = len payload)
    by (rewrite byte_val_of_Z; apply Z.mod_small; lia).
  set (lb := byte_of_Z (len payload)) in *.
  assert (Hbody : len (typ :: payload) = 1 + byte_val lb)
    by (unfold len in *; cbn [length]; lia).
  assert (Hvne : byte_val b' <> byte_val b)
    by (intros E; now apply byte_val_inj in E).
  change (typ :: payload ++ [c0; c1]) with ((typ :: payload) ++ [c0; c1]) in Hw.
  apply app_eq_app in Hw as [l [[E1 E2]|[E1 E2]]].
  - destruct l as [|x l].
    + (* the first CRC byte *)
      cbn [app] in E2. injection E2 as -> ->.
      rewrite app_nil_r in E1. rewrite <- E1.
      cbn [app]. rewrite <- !app_assoc. cbn [app].
      apply (crc_mismatch_drops_first_byte lb (typ :: payload) b' c1 rest);
        [assumption|]. lia.
    + (* the type byte or a payload byte *)
      cbn [app] in E2. injection E2 as -> ->.
      replace (((xaa :: x55 :: lb :: pre3) ++ b' :: l ++ [c0; c1]) ++ rest)
        with (xaa :: x55 :: lb :: (pre3 ++ b' :: l) ++ c0 :: c1 :: rest)
        by (repeat (cbn [app]; rewrite <- ?app_assoc); reflexivity).
      apply crc_mismatch_drops_first_byte.
      * rewrite <- Hbody, E1. unfold len. rewrite !length_app. reflexivity.
      * rewrite <- Hcrc, E1.
        apply (crc_single_byte (lb :: pre3) l x b' Hne).
  - destruct l as [|x [|y l]].
    + (* the first CRC byte *)
      cbn [app] in E2. injection E2 as <- <-.
      rewrite app_nil_r in E1. subst pre3.
      cbn [app]. rewrite <- !app_assoc. cbn [app].
      apply (crc_mismatch_drops_first_byte lb (typ :: payload) b' c1 rest);
        [assumption|]. lia.
    + (* the second CRC byte *)
      cbn [app] in E2. injection E2 as <- <- <-.
      subst pre3.
      cbn [app]. rewrite <- !app_assoc. cbn [app].
      apply (crc_mismatch_drops_first_byte lb (typ :: payload) c0 b' rest);
        [assumption|]. lia.
    + cbn [app] in E2. injection E2 as _ _ E2.
      destruct l; discriminate.
Qed.

Lemma make_frame_inv (samples : list (Z * Z)) (frame : bytes) :
  VirtualSender.make_frame samples = Some frame ->
  len samples <= 63 /\ frame = wire_frame x01 (payload_of (map mask16 samples)).
Proof.
  intros H. destruct (Z_le_dec (len samples) 63) as [Hle|Hgt].
  - rewrite make_frame_wire in H by assumption. split; congruence.
  - rewrite make_frame_too_long in H by lia. discriminate.
Qed.

(** C3, as the code has it.  A complete candidate frame that fails the
    check costs exactly its first byte (after the bytes in front of the
    header, which go in any case), and the loop goes on.  When one byte
    of a well-formed frame of any type is changed, at any offset but that
    of the length byte, and the changed frame holds no header pair after
    its first byte, the decoder emits nothing for it and decodes the
    well-formed frame of any type that follows; when that frame comes
    from [make_frame], what is decoded are its samples. *)
Theorem resync_after_corrupted_frame
        (typ1 typ2 : byte) (payload1 payload2 pre post : bytes) (b b' : byte) :
  len payload1 <= 255 -> len payload2 <= 255 ->
  wire_frame typ1 payload1 = pre ++ b :: post -> b' <> b -> length pre <> 2%nat ->
  no_header (skipn 1 (pre ++ b' :: post)) ->
  (forall noise lb body c0 c1 rest,
      no_header noise ->
      len body = 1 + byte_val lb ->
      Utils.crc16_ccitt (lb :: body) <> byte_val c0 + 256 * byte_val c1 ->
      feed_step (noise ++ xaa :: x55 :: lb :: body ++ c0 :: c1 :: rest) =
      Continue (skipn 1 (xaa :: x55 :: lb :: body ++ c0 :: c1 :: rest)) []) /\
  ((3 <= length pre)%nat ->
   feed_step ((pre ++ b' :: post) ++ wire_frame typ2 payload2) =
   Continue (skipn 1 ((pre ++ b' :: post) ++ wire_frame typ2 payload2)) []) /\
  feed init ((pre ++ b' :: post) ++ wire_frame typ2 payload2)
  = Some (frame_entries (typ2, payload2), init) /\
  feed init (wire_frame typ2 payload2) = Some (frame_entries (typ2, payload2), init) /\
  (forall s2,
      VirtualSender.make_frame s2 = Some (wire_frame typ2 payload2) ->
      frame_entries (typ2, payload2)
      = entries_of (wire_frame typ2 payload2) (map mask16 s2) /\
      samples_of (frame_entries (typ2, payload2)) = map mask16 s2).
Proof.
  intros Hl1 Hl2 Hf Hne Hpos Hnh.
  set (f2 := wire_frame typ2 payload2) in *.
  assert (Hent : frame_entries (typ2, payload2)
                 = (if byte_val typ2 =? 1
                    then decode_groups f2 payload2
                    else [Unknown (byte_val typ2) f2])) by reflexivity.
  split; [exact crc_mismatch_after_noise|].
  assert (Hrej : (3 <= length pre)%nat ->
                 feed_step ((pre ++ b' :: post) ++ f2) =
                 Continue (skipn 1 ((pre ++ b' :: post) ++ f2)) []).
  { intros Hp.
    apply (corrupted_frame_rejected typ1 payload1 pre post f2 b b');
      assumption. }
  split; [exact Hrej|].
  assert (Hsecond : feed init f2 = Some (frame_entries (typ2, payload2), init)).
  { rewrite feed_feed_run. cbn [buffer init app]. subst f2.
    rewrite feed_run_wire by assumption. now rewrite Hent. }
  split; [|split; [exact Hsecond|]].
  - rewrite feed_feed_run. cbn [buffer init app].
    destruct (le_lt_dec 3 (length pre)) as [Hp|Hp].
    + (* the check fails, one byte goes, the rest is noise before [f2] *)
      rewrite feed_run_unfold, (Hrej Hp).
      assert (E : skipn 1 ((pre ++ b' :: post) ++ f2)
                  = skipn 1 (pre ++ b' :: post) ++ f2).
      { destruct pre; [cbn [length] in Hp; lia | reflexivity]. }
      rewrite E. subst f2. rewrite feed_run_skip_noise by assumption.
      now rewrite Hent.
    + (* a header byte is changed: the whole frame is noise *)
      assert (Hno : no_header (pre ++ b' :: post)).
      { rewrite wire_frame_eq in Hf.
        apply no_header_nat. apply no_header_nat in Hnh.
        destruct pre as [|q0 [|q1 pre]]; cbn [length] in Hp, Hpos; try lia.
        - cbn [app] in *. injection Hf as <- Hf.
          cbn [skipn] in Hnh. cbn [find_nat]. rewrite Hnh.
          replace (startswith (b' :: post) HEADER) with false; [reflexivity|].
          symmetry. destruct (startswith (b' :: post) HEADER) eqn:Es; [|reflexivity].
          apply startswith_header in Es as [r Es]. congruence.
        - cbn [app] in *. injection Hf as <- <- Hf.
          cbn [skipn] in Hnh. cbn [find_nat] in *.
          replace (startswith (xaa :: b' :: post) HEADER) with false.
          + destruct (startswith (b' :: post) HEADER); [discriminate|].
            destruct (find_nat post HEADER); [discriminate|reflexivity].
          + symmetry.
            destruct (startswith (xaa :: b' :: post) HEADER) eqn:Es; [|reflexivity].
            apply startswith_header in Es as [r Es]. congruence. }
      subst f2. rewrite feed_run_skip_noise by assumption.
      now rewrite Hent.
  - intros s2 Hs2. pose proof Hs2 as Hinv.
    apply make_frame_inv in Hinv as [Hn2 E2].
    assert (Hmade : feed init f2 = Some (entries_of f2 (map mask16 s2), init)).
    { rewrite feed_feed_run. cbn [buffer init app]. rewrite E2.
      rewrite feed_run_wire
        by (rewrite payload_of_len, map_mask16_len; lia).
      change (byte_val x01 =? 1) with true. cbv iota.
      rewrite (decode_payload_of _ _ (in_range_mask16 s2)). reflexivity. }
    rewrite Hsecond in Hmade. injection Hmade as Hmade.
    split; [exact Hmade|]. rewrite Hmade. apply samples_of_entries.
Qed.

Lemma resync_after_corrupted_payload_byte :
  (forall noise lb body c0 c1 rest,
      no_header noise ->
      len body = 1 + byte_val lb ->
      Utils.crc16_ccitt (lb :: body) <> byte_val c0 + 256 * byte_val c1 ->
      feed_step (noise ++ xaa :: x55 :: lb :: body ++ c0 :: c1 :: rest) =
      Continue (skipn 1 (xaa :: x55 :: lb :: body ++ c0 :: c1 :: rest)) []) /\
  ((3 <= length [xaa; x55; x03; x07; x10])%nat ->
   feed_step (([xaa; x55; x03; x07; x10] ++ xff :: [x30; x25; xdd])
                ++ wire_frame x01 [x03; x00; x04; x00; x09; x09]) =
   Continue (skipn 1 (([xaa; x55; x03; x07; x10] ++ xff :: [x30; x25; xdd])
                        ++ wire_frame x01 [x03; x00; x04; x00; x09; x09])) []) /\
  feed init (([xaa; x55; x03; x07; x10] ++ xff :: [x30; x25; xdd])
               ++ wire_frame x01 [x03; x00; x04; x00; x09; x09])
  = Some (frame_entries (x01, [x03; x00; x04; x00; x09; x09]), init) /\
  feed init (wire_frame x01 [x03; x00; x04; x00; x09; x09])
  = Some (frame_entries (x01, [x03; x00; x04; x00; x09; x09]), init) /\
  (forall s2,
      VirtualSender.make_frame s2
      = Some (wire_frame x01 [x03; x00; x04; x00; x09; x09]) ->
      frame_entries (x01, [x03; x00; x04; x00; x09; x09])
      = entries_of (wire_frame x01 [x03; x00; x04; x00; x09; x09]) (map mask16 s2) /\
      samples_of (frame_entries (x01, [x03; x00; x04; x00; x09; x09]))
      = map mask16 s2).
Proof.
  apply (resync_after_corrupted_frame
           x07 x01 [x10; x20; x30] [x03; x00; x04; x00; x09; x09]
           [xaa; x55; x03; x07; x10] [x30; x25; xdd] x20 xff).
  - vm_compute. discriminate.
  - vm_compute. discriminate.
  - vm_compute. reflexivity.
  - discriminate.
  - cbn. discriminate.
  - vm_compute. reflexivity.
Defined.

(** C3 as stated fails in two ways.  With the length byte of the first
    frame changed from 4 to 255 the decoder waits for 261 bytes and emits
    nothing.  With the last CRC byte of a frame whose payload begins with
    0xAA 0x55 0xFF changed, the check fails, one byte goes, and the pair
    inside the payload is taken for a header announcing 261 bytes: again
    nothing is emitted and the second frame stays in the buffer. *)
Lemma corrupted_length_blocks_next_frame :
  VirtualSender.make_frame [(1, 2)] = Some frame_1_2 /\
  VirtualSender.make_frame [(3, 4)] = Some frame_3_4 /\
  VirtualSender.make_frame [(0x55AA, 0x00FF)] = Some frame_55aa_ff /\
  frame_1_2 = [xaa; x55] ++ x04 :: [x01; x01; x00; x02; x00; x36; xb2] /\
  feed init (([xaa; x55] ++ xff :: [x01; x01; x00; x02; x00; x36; xb2]) ++ frame_3_4)
  = Some ([], mk (([xaa; x55] ++ xff :: [x01; x01; x00; x02; x00; x36; xb2])
                    ++ frame_3_4)) /\
  frame_55aa_ff = [xaa; x55; x04; x01; xaa; x55; xff; x00; xfc] ++ x96 :: [] /\
  feed init (([xaa; x55; x04; x01; xaa; x55; xff; x00; xfc] ++ x00 :: []) ++ frame_3_4)
  = Some ([], mk ([xaa; x55; xff; x00; xfc; x00] ++ frame_3_4)).
Proof. repeat split; vm_compute; reflexivity. Qed.

End Resync.

(* ================================================================= *)
(** * Properties: the scan of [detect_r_peaks] *)

Section Scan.

Import Main.

Lemma py_range_cons (a b : Z) : a < b -> py_range a b = a :: py_range (a + 1) b.
Proof.
  intros H. unfold py_range.
  replace (Z.to_nat (b - a)) with (S (Z.to_nat (b - (a + 1)))) by lia.
  cbn [seq map]. f_equal; [lia|].
  rewrite <- seq_shift, map_map. apply map_ext. intros k. lia.
Qed.

Lemma py_range_nil (a b : Z) : b <= a -> py_range a b = [].
Proof. intros H. unfold py_range. now replace (Z.to_nat (b - a)) with O by lia. Qed.

Lemma py_range_In (a b i : Z) : In i (py_range a b) <-> a <= i < b.
Proof.
  unfold py_range. rewrite in_map_iff. split.
  - intros (k & <- & Hk). apply in_seq in Hk. lia.
  - intros H. exists (Z.to_nat (i - a)). split; [lia|]. apply in_seq. lia.
Qed.


(** The indices the loop reads are inside the list. *)
Lemma scan_indices_inside (raw_data : list float) (i : Z) :
  In i (py_range 1 (len raw_data - 1)) ->
  nth_error raw_data (Z.to_nat (i - 1)) = Some (item raw_data (i - 1)) /\
  nth_error raw_data (Z.to_nat i) = Some (item raw_data i) /\
  nth_error raw_data (Z.to_nat (i + 1)) = Some (item raw_data (i + 1)).
Proof.
  intros H. apply py_range_In in H. unfold item, len in *.
  repeat split; apply nth_error_nth'; lia.
Qed.

Lemma scan_step_passes (raw_data : list float) (thr : float) (mip : Z)
      (st : list Z * Z) (i : Z) :
  scan_step raw_data thr mip st i =
  if passes raw_data thr i && (i - snd st >=? mip) then (fst st ++ [i], i) else st.
Proof.
  unfold scan_step, passes.
  destruct (item raw_data i <=? thr)%float; [reflexivity|].
  cbn [negb andb]. now destruct (_ && _).
Qed.

(** The loop is the scan [accepted]. *)
Lemma scan_accepted (raw_data : list float) (thr : float) (mip : Z)
      (indices : list Z) (acc : list Z) (last_peak : Z) :
  fst (fold_left (scan_step raw_data thr mip) indices (acc, last_peak)) =
  acc ++ accepted (passes raw_data thr) mip last_peak indices.
Proof.
  revert acc last_peak.
  induction indices as [|i rest IH]; intros acc last_peak; cbn [fold_left accepted].
  - now rewrite app_nil_r.
  - rewrite scan_step_passes. cbn [fst snd].
    destruct (passes raw_data thr i && (i - last_peak >=? mip)).
    + rewrite IH, <- app_assoc. reflexivity.
    + apply IH.
Qed.

(** ** What a scan keeps *)

Lemma accepted_In (test : Z -> bool) (d last : Z) (indices : list Z) (x : Z) :
  In x (accepted test d last indices) -> In x indices /\ test x = true.
Proof.
  revert last. induction indices as [|i rest IH]; intros last; cbn [accepted].
  - intros [].
  - destruct (test i && (i - last >=? d)) eqn:E.
    + intros [<-|H].
      * apply andb_true_iff in E as [E _]. split; [now left | exact E].
      * destruct (IH _ H). split; [now right | assumption].
    + intros H. destruct (IH _ H). split; [now right | assumption].
Qed.

Lemma accepted_spaced (test : Z -> bool) (d last : Z) (indices : list Z) :
  spaced d last (accepted test d last indices).
Proof.
  revert last. induction indices as [|i rest IH]; intros last; cbn [accepted].
  - exact I.
  - destruct (test i && (i - last >=? d)) eqn:E; [|apply IH].
    apply andb_true_iff in E as [_ E]. cbn [spaced]. split; [lia | apply IH].
Qed.

Lemma spaced_sorted (d last : Z) (l : list Z) :
  1 <= d -> spaced d last l ->
  StronglySorted Z.lt l /\ Forall (fun x => last < x) l.
Proof.
  intros Hd. revert last. induction l as [|x rest IH]; intros last H.
  - split; constructor.
  - destruct H as [Hx Hr]. destruct (IH x Hr) as [Hs Hf]. split.
    + constructor; assumption.
    + constructor; [lia|]. eapply Forall_impl; [|exact Hf]. cbn. intros; lia.
Qed.

Lemma spaced_gaps (d last : Z) (l : list Z) : spaced d last l -> gaps_at_least d l.
Proof.
  revert last. induction l as [|x rest IH]; intros last H k a b Ha Hb.
  - destruct k; discriminate.
  - destruct H as [_ Hr]. destruct k as [|k].
    + cbn in Ha. injection Ha as <-. destruct rest as [|y rest]; [discriminate|].
      cbn in Hb. injection Hb as <-. now destruct Hr.
    + cbn in Ha, Hb. exact (IH x Hr k a b Ha Hb).
Qed.




End Scan.

(* ================================================================= *)
(** * Properties: [detect_r_peaks] *)

Section Detect.

Import Main.

Lemma statistics_None (raw_data : list float) :
  3 <= len raw_data ->
  statistics raw_data = None -> float_of_int (len raw_data) = None.
Proof.
  intros Hn. unfold statistics.
  destruct raw_data as [|x rest]; [unfold len in Hn; cbn in Hn; lia|].
  cbn [py_min py_max]. now destruct (float_of_int _).
Qed.

Lemma min_interval_points_pos (self : t) (fs mip : Z) :
  min_interval_points self fs = Some mip -> 1 <= mip.
Proof.
  unfold min_interval_points.
  destruct (float_of_int _); [|discriminate].
  destruct (py_round _); [|discriminate].
  cbn. intros [= <-]. lia.
Qed.

(** [detect_r_peaks] with its loop replaced by the scan. *)
Lemma detect_r_peaks_eq (self : t) (raw_data : list float) (fs : Z) :
  detect_r_peaks self raw_data fs =
  if len raw_data <? 3 then Some [] else
  match min_interval_points self fs, statistics raw_data with
  | Some mip, Some (vmin, vmax, vmean) =>
      if (vmax - vmin <=? 1e-9)%float then Some []
      else Some (accepted (passes raw_data (threshold self vmin vmax vmean))
                          mip (- mip * 2) (py_range 1 (len raw_data - 1)))
  | _, _ => None
  end.
Proof.
  unfold detect_r_peaks. destruct (len raw_data <? 3); [reflexivity|].
  destruct (min_interval_points self fs) as [mip|]; [|reflexivity].
  destruct (statistics raw_data) as [[[vmin vmax] vmean]|]; [|reflexivity].
  destruct (vmax - vmin <=? 1e-9)%float; [reflexivity|].
  now rewrite scan_accepted.
Qed.

Lemma gaps_nil (d : Z) : gaps_at_least d [].
Proof. intros [|k] a b H; discriminate. Qed.

(** C9: whenever [detect_r_peaks] returns, its indices increase strictly,
    lie between 1 and [n - 2], and neighbours are at least
    [max(1, round(min_r_interval * fs))] apart, [fs] being the rate after
    the guard.  It fails to return only when one of its conversions
    raises: the rounding of [min_r_interval * fs], or [float(n)]. *)
Theorem detect_r_peaks_invariant (self : t) (raw_data : list float) (fs : Z) :
  match detect_r_peaks self raw_data fs with
  | Some peaks =>
      StronglySorted Z.lt peaks /\
      Forall (fun i => 1 <= i <= len raw_data - 2) peaks /\
      forall f r,
        float_of_int (effective_fs self fs) = Some f ->
        py_round (min_r_interval self * f)%float = Some r ->
        gaps_at_least (Z.max 1 r) peaks
  | None =>
      3 <= len raw_data /\
      (min_interval_points self fs = None \/ float_of_int (len raw_data) = None)
  end.
Proof.
  rewrite detect_r_peaks_eq.
  destruct (len raw_data <? 3) eqn:En.
  { repeat split; try constructor. intros; apply gaps_nil. }
  apply Z.ltb_ge in En.
  destruct (min_interval_points self fs) as [mip|] eqn:Em.
  2:{ split; [assumption | now left]. }
  destruct (statistics raw_data) as [[[vmin vmax] vmean]|] eqn:Es.
  2:{ split; [assumption | right; now apply statistics_None]. }
  destruct (vmax - vmin <=? 1e-9)%float.
  { repeat split; try constructor. intros; apply gaps_nil. }
  pose proof (min_interval_points_pos _ _ _ Em) as Hpos.
  set (peaks := accepted _ _ _ _).
  pose proof (accepted_spaced (passes raw_data (threshold self vmin vmax vmean))
                              mip (- mip * 2) (py_range 1 (len raw_data - 1))) as Hsp.
  fold peaks in Hsp.
  split; [|split].
  - now apply (spaced_sorted mip (- mip * 2)).
  - apply Forall_forall. intros i Hi.
    apply accepted_In in Hi as [Hi _]. apply py_range_In in Hi. lia.
  - intros f r Hf Hr. unfold min_interval_points in Em.
    rewrite Hf, Hr in Em. cbn in Em. injection Em as <-.
    now apply (spaced_gaps _ (- Z.max 1 r * 2)).
Qed.

End Detect.

(* ================================================================= *)
(** * Properties: comparisons of floats *)

Section FloatOrder.

Lemma SFcompare_antisym (x y : spec_float) :
  SFcompare y x = option_map CompOpp (SFcompare x y).
Proof.
  destruct x as [sx|sx| |sx mx ex], y as [sy|sy| |sy my ey]; cbn;
    try reflexivity;
    try (destruct sx; reflexivity);
    try (destruct sy; reflexivity);
    try (destruct sx, sy; reflexivity).
  destruct sx, sy; try reflexivity.
  - rewrite (Z.compare_antisym ex ey).
    destruct (ex ?= ey) eqn:E; cbn; try reflexivity.
    change (PosDef.Pos.compare_cont Eq) with Pos.compare.
    now rewrite (Pos.compare_antisym mx my).
  - rewrite (Z.compare_antisym ex ey).
    destruct (ex ?= ey) eqn:E; cbn; try reflexivity.
    change (PosDef.Pos.compare_cont Eq) with Pos.compare.
    now rewrite (Pos.compare_antisym mx my).
Qed.

Lemma SFcompare_None (x y : spec_float) :
  SFcompare x y = None <-> x = S754_nan \/ y = S754_nan.
Proof.
  destruct x as [sx|sx| |sx mx ex], y as [sy|sy| |sy my ey]; cbn;
    split; intros H; try discriminate; auto;
    destruct H as [H|H]; discriminate.
Qed.

Lemma SFcompare_refl (x : spec_float) : x <> S754_nan -> SFcompare x x = Some Eq.
Proof.
  destruct x as [s|s| |s m e]; cbn; intros H; try reflexivity.
  - now destruct s.
  - contradiction.
  - change (PosDef.Pos.compare_cont Eq) with Pos.compare.
    rewrite Z.compare_refl, Pos.compare_refl. now destruct s.
Qed.

Lemma is_nan_false (x : float) : is_nan x = false <-> Prim2SF x <> S754_nan.
Proof.
  unfold is_nan. rewrite eqb_spec. unfold SFeqb. split.
  - intros H E. rewrite E in H. discriminate.
  - intros H. now rewrite SFcompare_refl.
Qed.


(** Without NaN, [x <= y] is the negation of [y < x]. *)
Lemma leb_negb_ltb (x y : float) :
  Prim2SF x <> S754_nan -> Prim2SF y <> S754_nan ->
  (x <=? y)%float = negb (y <? x)%float.
Proof.
  intros Hx Hy. rewrite leb_spec, ltb_spec. unfold SFleb, SFltb.
  rewrite (SFcompare_antisym (Prim2SF x) (Prim2SF y)).
  destruct (SFcompare (Prim2SF x) (Prim2SF y)) as [[| |]|] eqn:E; try reflexivity.
  apply SFcompare_None in E. tauto.
Qed.


End FloatOrder.

(* ================================================================= *)
(** * Properties: which indices [detect_r_peaks] accepts *)

Section Acceptance.

Import Main.


(** Two inputs the window never passes.  At [fs = 0] the guard
    [if fs <= 0] takes the configured rate, so the spacing is 54 samples
    (120 Hz) and not [max(1, round(0.45 * 0)) = 1].  With an infinite
    value the threshold is NaN, and the test [val <= thr] lets index 1
    through although no value is above a NaN. *)
Remark detect_r_peaks_outside_the_window :
  detect_r_peaks init [0; 1; 0; 1; 0]%float 0 = Some [1] /\
  min_interval_points init 0 = Some 54 /\
  option_map (Z.max 1) (py_round (min_r_interval init * 0)%float) = Some 1 /\
  statistics [0; 1; 0; 1; 0]%float = Some (0, 1, 0.4)%float /\
  is_peak [0; 1; 0; 1; 0]%float (threshold init 0 1 0.4) 3 = true /\
  1 <= 3 - previous [1] 3 (- 1 * 2) /\
  detect_r_peaks init [0; infinity; 0]%float 120 = Some [1] /\
  statistics [0; infinity; 0]%float = Some (0, infinity, infinity)%float /\
  is_nan (threshold init 0 infinity infinity) = true /\
  is_peak [0; infinity; 0]%float (threshold init 0 infinity infinity) 1 = false.
Proof. repeat split; vm_compute; try reflexivity; discriminate. Qed.

End Acceptance.

(* ================================================================= *)
(** * Properties: rate estimation *)

Section Rate.

Import Main.

Lemma getitem_app {A} (pre : list A) (x : A) (rest : list A) :
  getitem (pre ++ x :: rest) (len pre) = Some x.
Proof.
  unfold getitem. pose proof (len_nonneg pre) as H.
  replace (len pre <? 0) with false by (symmetry; apply Z.ltb_ge; lia).
  replace (len pre <? 0) with false by (symmetry; apply Z.ltb_ge; lia).
  unfold len. rewrite Nat2Z.id, nth_error_app2, Nat.sub_diag by lia. reflexivity.
Qed.

(** The list comprehension over [range(1, len(peak_times))] computes the
    differences of neighbours. *)
Lemma intervals_deltas (pre : list float) (a : float) (rest : list float) :
  map_opt (fun i => match getitem (pre ++ a :: rest) i,
                          getitem (pre ++ a :: rest) (i - 1) with
                    | Some x, Some y => Some (x - y)%float
                    | _, _ => None
                    end)
          (py_range (len pre + 1) (len (pre ++ a :: rest)))
  = Some (deltas (a :: rest)).
Proof.
  revert pre a. induction rest as [|b rest IH]; intros pre a.
  - rewrite py_range_nil; [reflexivity|]. rewrite len_app. unfold len. cbn. lia.
  - rewrite py_range_cons.
    2:{ rewrite len_app. unfold len. cbn [length]. lia. }
    cbn [map_opt deltas].
    replace (len pre + 1 - 1) with (len pre) by lia.
    rewrite getitem_app.
    replace (pre ++ a :: b :: rest) with ((pre ++ [a]) ++ b :: rest)
      by (now rewrite <- app_assoc).
    replace (len pre + 1) with (len (pre ++ [a]))
      by (rewrite len_app; reflexivity).
    rewrite getitem_app, IH. reflexivity.
Qed.

Lemma map_opt_length {A B} (f : A -> option B) (l : list A) (l' : list B) :
  map_opt f l = Some l' -> length l' = length l.
Proof.
  revert l'. induction l as [|x l IH]; intros l'; cbn [map_opt].
  - now intros [= <-].
  - destruct (f x); [|discriminate].
    destruct (map_opt f l) as [ys|]; [|discriminate].
    intros [= <-]. cbn [length]. now rewrite (IH ys).
Qed.

(** ** A period that is not positive gives a rate outside the band *)

Lemma binary_round_aux_sign (s : bool) (m e : Z) (l : location) :
  match binary_round_aux prec emax s m e l with
  | S754_zero s' | S754_infinity s' | S754_finite s' _ _ => s' = s
  | S754_nan => True
  end.
Proof.
  unfold binary_round_aux.
  destruct (shr_fexp prec emax m e l) as [mrs e'].
  destruct (shr_fexp prec emax _ e' loc_Exact) as [mrs2 e2].
  destruct (shr_m mrs2); [reflexivity| |exact I].
  now destruct (e2 <=? emax - prec).
Qed.

Lemma nonpositive_period_outside (period : float) :
  (period <=? 0)%float = true ->
  (30 <=? 60 / period)%float && (60 / period <=? 220)%float = false.
Proof.
  rewrite !leb_spec, div_spec.
  change (Prim2SF 0) with (S754_zero false).
  change (Prim2SF 30) with (S754_finite false 8444249301319680 (-48)).
  change (Prim2SF 220) with (S754_finite false 7740561859543040 (-45)).
  change (Prim2SF 60) with (S754_finite false 8444249301319680 (-47)).
  unfold SF64div, SFleb.
  destruct (Prim2SF period) as [s|s| |s m e]; cbn [SFcompare SFdiv xorb].
  - intros _. destruct s; reflexivity.
  - destruct s; [reflexivity | discriminate].
  - discriminate.
  - destruct s; [intros _ | discriminate].
    destruct (SFdiv_core_binary prec emax 8444249301319680 (-47) (Z.pos m) e)
      as [[mz ez] lz].
    pose proof (binary_round_aux_sign true mz ez lz) as Hs.
    destruct (binary_round_aux prec emax true mz ez lz) as [s'|s'| |s' m' e'];
      try subst s'; reflexivity.
Qed.

Lemma mean_nil : mean [] = Some nan.
Proof. reflexivity. Qed.

(** From the peak times on, the code computes the specified rate. *)
Lemma bpm_of_peak_times (rel_xs : list float) (peaks : list Z)
      (peak_times : list float) :
  2 <= len peaks ->
  map_opt (getitem rel_xs) peaks = Some peak_times ->
  bpm_of_peaks rel_xs peaks = rate_of_peak_times peak_times.
Proof.
  intros Hn Hpt. unfold bpm_of_peaks, rate_of_peak_times.
  replace (len peaks <? 2) with false by (symmetry; apply Z.ltb_ge; lia).
  rewrite Hpt. apply map_opt_length in Hpt.
  destruct peak_times as [|t0 [|t1 ts]];
    try (unfold len in Hn; rewrite <- Hpt in Hn; cbn [length] in Hn; lia).
  pose proof (intervals_deltas [] t0 (t1 :: ts)) as Hi.
  cbn [app] in Hi. change (len [] + 1) with 1 in Hi. rewrite Hi. clear Hi.
  assert (Hds : exists d dr, deltas (t0 :: t1 :: ts) = d :: dr)
    by (cbn [deltas]; eauto).
  destruct Hds as (d & dr & Hds). rewrite Hds. clear Hds.
  set (ds := d :: dr). cbv beta iota.
  unfold mean at 1.
  destruct (float_of_int (len ds)) as [fl|]; [|reflexivity].
  cbn [option_map].
  set (avg := (py_sum ds / fl)%float).
  change (filter _ ds) with (filter (within_half avg) ds).
  destruct (filter (within_half avg) ds) as [|d0 filtered] eqn:Ef.
  - (* no delta left: the mean is NaN and so is the rate *)
    reflexivity.
  - unfold mean.
    destruct (float_of_int (len (d0 :: filtered))) as [ff|]; [|reflexivity].
    cbn [option_map].
    destruct (py_sum (d0 :: filtered) / ff <=? 0)%float eqn:Eg; [|reflexivity].
    now rewrite nonpositive_period_outside.
Qed.

Lemma bpm_of_few_peaks (rel_xs : list float) (peaks : list Z) :
  len peaks < 2 -> bpm_of_peaks rel_xs peaks = Some None.
Proof.
  intros H. unfold bpm_of_peaks.
  now replace (len peaks <? 2) with true by (symmetry; apply Z.ltb_lt; lia).
Qed.

(** [_estimate_bpm_from_wave] is the rate of the detected peaks. *)
Lemma estimate_bpm_eq (self : t) (voltages rel_xs : list float) (peaks : list Z) :
  0 < sampling_rate self ->
  detect_r_peaks self voltages (sampling_rate self) = Some peaks ->
  _estimate_bpm_from_wave self voltages rel_xs = bpm_of_peaks rel_xs peaks.
Proof.
  intros Hfs Hd. unfold _estimate_bpm_from_wave.
  replace (sampling_rate self <=? 0) with false by (symmetry; apply Z.leb_gt; lia).
  cbn [orb]. destruct (len voltages <? 3) eqn:En.
  - unfold detect_r_peaks in Hd. rewrite En in Hd. injection Hd as <-. reflexivity.
  - now rewrite Hd.
Qed.

(** C6: fewer than two peaks give [None]; otherwise the deltas of the
    peak times are filtered to [[0.5 * avg, 1.5 * avg]] around their own
    mean, the rate is 60 over the mean of the filtered deltas, and an
    integer is reported, the rate rounded, exactly when the rate lies in
    [[30, 220]].  A period of 2.4 s (25 per minute) gives [None], a period
    of 0.833 s gives 72, from peak times and from whole windows sampled at
    120 Hz with a spike every 288 and every 100 samples. *)
Theorem rate_estimation_spec :
  (forall rel_xs peaks,
      len peaks < 2 -> bpm_of_peaks rel_xs peaks = Some None) /\
  (forall rel_xs peaks peak_times,
      2 <= len peaks ->
      map_opt (getitem rel_xs) peaks = Some peak_times ->
      bpm_of_peaks rel_xs peaks = rate_of_peak_times peak_times) /\
  (forall rel_xs peaks peak_times avg period r,
      2 <= len peaks ->
      map_opt (getitem rel_xs) peaks = Some peak_times ->
      mean (deltas peak_times) = Some avg ->
      mean (filter (within_half avg) (deltas peak_times)) = Some period ->
      (bpm_of_peaks rel_xs peaks = Some (Some r) <->
       (30 <=? 60 / period)%float && (60 / period <=? 220)%float = true /\
       py_round (60 / period)%float = Some r)) /\
  (forall self voltages rel_xs peaks,
      0 < sampling_rate self ->
      detect_r_peaks self voltages (sampling_rate self) = Some peaks ->
      _estimate_bpm_from_wave self voltages rel_xs = bpm_of_peaks rel_xs peaks) /\
  bpm_of_peaks [0; 2.4; 4.8]%float [0; 1; 2] = Some None /\
  bpm_of_peaks [0; 0.833; 1.666; 2.499]%float [0; 1; 2; 3] = Some (Some 72) /\
  _estimate_bpm_from_wave init (spike_train 600 288 100) (times_120 600) = Some None /\
  _estimate_bpm_from_wave init (spike_train 600 100 50) (times_120 600)
  = Some (Some 72).
Proof.
  split; [exact bpm_of_few_peaks|].
  split; [exact bpm_of_peak_times|].
  split.
  { intros rel_xs peaks peak_times avg period r Hn Hpt Ha Hp.
    rewrite (bpm_of_peak_times rel_xs peaks peak_times Hn Hpt).
    unfold rate_of_peak_times. rewrite Ha, Hp. cbv zeta.
    destruct ((30 <=? 60 / period)%float && (60 / period <=? 220)%float).
    - destruct (py_round (60 / period)%float) as [z|]; cbn [option_map]; split.
      + intros [= <-]. now split.
      + intros [_ [= <-]]. reflexivity.
      + discriminate.
      + intros [_ H]. discriminate.
    - split; [discriminate | intros [H _]; discriminate]. }
  split; [exact estimate_bpm_eq|].
  repeat split; vm_compute; reflexivity.
Qed.

End Rate.

(* ================================================================= *)
(** * Properties: the time stamps of [on_bytes] *)

Section Stamps.

Import Main.

Lemma all_from_spec (fuel : nat) (p : Z -> bool) (z : Z) :
  all_from fuel z p = true ->
  forall k, z <= k < z + Z.of_nat fuel -> p k = true.
Proof.
  revert z. induction fuel as [|fuel IH]; intros z H k Hk; [lia|].
  cbn [all_from] in H. apply andb_true_iff in H as [H1 H2].
  destruct (Z.eq_dec k z) as [->|Hne]; [assumption|].
  apply (IH (z + 1) H2). lia.
Qed.

Lemma float_of_int_to_float (z : Z) (f : float) :
  float_of_int z = Some f -> f = to_float z.
Proof.
  unfold float_of_int. cbv zeta.
  destruct (is_infinity (to_float z)); [discriminate | now intros [= <-]].
Qed.

(** ** Two facts of float subtraction *)

Lemma is_finite_spec (x : float) :
  is_finite x = true ->
  exists s, Prim2SF x = S754_zero s \/ exists m e, Prim2SF x = S754_finite s m e.
Proof.
  unfold is_finite, is_nan, is_infinity.
  rewrite !eqb_spec, abs_spec.
  change (Prim2SF infinity) with (S754_infinity false).
  destruct (Prim2SF x) as [s|s| |s m e]; cbn.
  - intros _. exists s. now left.
  - destruct s; discriminate.
  - discriminate.
  - intros _. exists s. right. now exists m, e.
Qed.

Lemma sub_diag_finite (x : float) : is_finite x = true -> (x - x)%float = 0%float.
Proof.
  intros H. apply Prim2SF_inj. rewrite sub_spec.
  change (Prim2SF 0) with (S754_zero false).
  destruct (is_finite_spec x H) as (s & [E|(m & e & E)]); rewrite E.
  - now destruct s.
  - unfold SF64sub, SFsub. now rewrite Z.sub_diag.
Qed.

Lemma sub_zero (x : float) : (x - 0)%float = x.
Proof.
  apply Prim2SF_inj. rewrite sub_spec.
  change (Prim2SF 0) with (S754_zero false).
  destruct (Prim2SF x) as [s|s| |s m e]; try reflexivity. now destruct s.
Qed.

(** ** Products of small floats are finite *)


Lemma digits2_size (p : positive) : digits2_pos p = Pos.size p.
Proof. induction p as [p IH|p IH|]; cbn; congruence. Qed.

Lemma digits_lt_pow (p : positive) : Z.pos p < 2 ^ Z.pos (digits2_pos p).
Proof.
  rewrite digits2_size. pose proof (Pos.size_gt p) as H.
  apply Pos2Z.pos_lt_pos in H. now rewrite Pos2Z.inj_pow in H.
Qed.

Lemma pow_digits_le (p : positive) : 2 ^ Z.pos (digits2_pos p) <= 2 * Z.pos p.
Proof.
  rewrite digits2_size. pose proof (Pos.size_le p) as H.
  apply Pos2Z.pos_le_pos in H. now rewrite Pos2Z.inj_pow in H.
Qed.

Lemma digits_le_of_lt_pow (p : positive) (k : Z) :
  0 <= k -> Z.pos p < 2 ^ k -> Z.pos (digits2_pos p) <= k.
Proof.
  intros Hk H. pose proof (pow_digits_le p) as Hp.
  assert (Hlt : 2 ^ Z.pos (digits2_pos p) < 2 ^ (k + 1)).
  { rewrite Z.pow_add_r by lia. change (2 ^ 1) with 2. lia. }
  apply Z.pow_lt_mono_r_iff in Hlt; lia.
Qed.

Lemma digits_mul (p q : positive) :
  Z.pos (digits2_pos (p * q)) <= Z.pos (digits2_pos p) + Z.pos (digits2_pos q).
Proof.
  apply digits_le_of_lt_pow; [lia|].
  rewrite Z.pow_add_r by lia. rewrite Pos2Z.inj_mul.
  pose proof (digits_lt_pow p). pose proof (digits_lt_pow q). nia.
Qed.

Lemma Zdigits2_succ (m : Z) : 0 <= m -> Zdigits2 (m + 1) <= Zdigits2 m + 1.
Proof.
  intros Hm. destruct m as [|p|p]; [cbn; lia| |lia].
  change (Z.pos p + 1) with (Z.pos (p + 1)). cbn [Zdigits2].
  apply digits_le_of_lt_pow; [lia|].
  rewrite Z.pow_add_r by lia. change (2 ^ 1) with 2.
  pose proof (pow_digits_le p). pose proof (digits_lt_pow p). lia.
Qed.

Lemma shr_1_narrow (d : Z) (r : shr_record) : 0 <= d -> narrow d r -> narrow d (shr_1 r).
Proof.
  intros Hd. destruct r as [m rb sb]. unfold narrow. cbn [shr_m].
  destruct m as [|[p|p|]|p]; cbn [shr_1 shr_m Zdigits2 digits2_pos];
    rewrite ?Pos2Z.inj_succ; lia.
Qed.

Lemma iter_pos_invariant {A} (f : A -> A) (P : A -> Prop) :
  (forall x, P x -> P (f x)) -> forall n x, P x -> P (SpecFloat.iter_pos f n x).
Proof.
  intros Hf. induction n as [n IH|n IH|]; intros x Hx; cbn [SpecFloat.iter_pos]; auto.
Qed.

Lemma shr_record_of_loc_m (m : Z) (l : location) : shr_m (shr_record_of_loc m l) = m.
Proof. destruct l as [|[| |]]; reflexivity. Qed.

Lemma shr_fexp_narrow (d b m e : Z) (l : location) :
  0 <= d -> 0 <= m -> Zdigits2 m <= d -> e <= b ->
  narrow d (fst (shr_fexp prec emax m e l)) /\
  snd (shr_fexp prec emax m e l) <= Z.max b (Z.max (d + b - 53) (-1074)).
Proof.
  intros Hd Hm Hdig He. unfold shr_fexp, shr.
  assert (Hn : narrow d (shr_record_of_loc m l)).
  { unfold narrow. now rewrite shr_record_of_loc_m. }
  destruct (fexp prec emax (Zdigits2 m + e) - e) as [|p|p] eqn:E; cbn [fst snd].
  - split; [assumption | lia].
  - split.
    + apply iter_pos_invariant; [intros x; now apply shr_1_narrow | assumption].
    + unfold fexp, emin, prec, emax in E. lia.
  - split; [assumption | lia].
Qed.

Lemma round_nearest_even_narrow (d : Z) (r : shr_record) :
  narrow d r ->
  0 <= round_nearest_even (shr_m r) (loc_of_shr_record r) /\
  Zdigits2 (round_nearest_even (shr_m r) (loc_of_shr_record r)) <= d + 1.
Proof.
  intros [Hm Hd]. pose proof (Zdigits2_succ _ Hm) as Hs.
  destruct r as [m [|] [|]]; cbn [shr_m loc_of_shr_record round_nearest_even] in *;
    try (destruct (Z.even m)); split; lia.
Qed.

(** Rounding a mantissa of at most 106 digits with an exponent that is
    not positive gives a zero or a finite number. *)
Lemma binary_round_aux_finite (s : bool) (m : positive) (e : Z) :
  Z.pos (digits2_pos m) <= 106 -> e <= 0 ->
  match binary_round_aux prec emax s (Z.pos m) e loc_Exact with
  | S754_zero _ | S754_finite _ _ _ => True
  | S754_infinity _ | S754_nan => False
  end.
Proof.
  intros Hd He. unfold binary_round_aux.
  pose proof (shr_fexp_narrow 106 0 (Z.pos m) e loc_Exact
                              ltac:(lia) ltac:(lia) Hd He) as [H1 H1e].
  destruct (shr_fexp prec emax (Z.pos m) e loc_Exact) as [mrs1 e1].
  cbn [fst snd] in H1, H1e.
  pose proof (round_nearest_even_narrow 106 mrs1 H1) as [H2 H2d].
  pose proof (shr_fexp_narrow 107 53
                (round_nearest_even (shr_m mrs1) (loc_of_shr_record mrs1))
                e1 loc_Exact ltac:(lia) H2 ltac:(lia) ltac:(lia)) as [[H3 _] H3e].
  destruct (shr_fexp prec emax _ e1 loc_Exact) as [mrs2 e2].
  cbn [fst snd] in H3, H3e.
  destruct (shr_m mrs2) as [|p|p]; [exact I| |lia].
  replace (e2 <=? emax - prec) with true; [exact I|].
  symmetry. apply Z.leb_le. unfold emax, prec. lia.
Qed.

Lemma SFmul_small (x y : spec_float) :
  valid_binary x = true -> valid_binary y = true ->
  small_exp x = true -> small_exp y = true ->
  match SFmul prec emax x y with
  | S754_zero _ | S754_finite _ _ _ => True
  | S754_infinity _ | S754_nan => False
  end.
Proof.
  intros Vx Vy Hx Hy.
  destruct x as [sx|sx| |sx mx ex], y as [sy|sy| |sy my ey];
    try discriminate; cbn [SFmul]; try exact I.
  cbn [small_exp] in Hx, Hy. apply Z.leb_le in Hx, Hy.
  assert (Dx : Z.pos (digits2_pos mx) <= 53).
  { cbn [SpecFloat.valid_binary] in Vx. unfold bounded, canonical_mantissa in Vx.
    apply andb_true_iff in Vx as [Vx _]. apply Z.eqb_eq in Vx.
    unfold fexp, emin, prec, emax in Vx. lia. }
  assert (Dy : Z.pos (digits2_pos my) <= 53).
  { cbn [SpecFloat.valid_binary] in Vy. unfold bounded, canonical_mantissa in Vy.
    apply andb_true_iff in Vy as [Vy _]. apply Z.eqb_eq in Vy.
    unfold fexp, emin, prec, emax in Vy. lia. }
  apply binary_round_aux_finite; [|lia].
  pose proof (digits_mul mx my). lia.
Qed.

Lemma is_finite_of_spec (x : float) :
  match Prim2SF x with
  | S754_zero _ | S754_finite _ _ _ => True
  | S754_infinity _ | S754_nan => False
  end -> is_finite x = true.
Proof.
  unfold is_finite, is_nan, is_infinity.
  rewrite !eqb_spec, abs_spec.
  change (Prim2SF infinity) with (S754_infinity false).
  destruct (Prim2SF x) as [s|s| |s m e]; try contradiction; intros _.
  - reflexivity.
  - unfold SFeqb. cbn [SFabs].
    rewrite SFcompare_refl by discriminate. reflexivity.
Qed.

(** Every integer below 65536, and the inverse of every one but 0, is a
    float of that kind. *)
Lemma small_floats (z : Z) :
  0 <= z < 65536 ->
  small_exp (Prim2SF (to_float z)) = true /\
  (0 < z -> small_exp (Prim2SF (1 / to_float z)) = true).
Proof.
  intros Hz.
  assert (H : all_from (Z.to_nat 65536) 0
                (fun z => small_exp (Prim2SF (to_float z))
                          && ((z =? 0) || small_exp (Prim2SF (1 / to_float z))))
              = true)
    by (vm_compute; reflexivity).
  pose proof (all_from_spec _ _ _ H z ltac:(lia)) as Hp. cbv beta in Hp.
  apply andb_true_iff in Hp as [H1 H2]. split; [exact H1|].
  intros Hpos. apply orb_true_iff in H2 as [H2|H2]; [|exact H2].
  apply Z.eqb_eq in H2. lia.
Qed.

(** Every integer from 0 to 65535 converts. *)
Lemma small_ints_convert (z : Z) :
  0 <= z < 65536 -> float_of_int z = Some (to_float z).
Proof.
  intros Hz. destruct (small_floats z Hz) as [H _].
  unfold float_of_int. cbv zeta.
  replace (is_infinity (to_float z)) with false; [reflexivity|].
  symmetry. unfold is_infinity. rewrite eqb_spec, abs_spec.
  change (Prim2SF infinity) with (S754_infinity false).
  now destruct (Prim2SF (to_float z)) as [s|s| |s m e].
Qed.

(** The offset of the first byte of a chunk is finite. *)
Lemma offset_finite (k sr : Z) :
  0 <= k < 65536 -> 0 < sr < 65536 ->
  is_finite (to_float k * (1 / to_float sr)) = true.
Proof.
  intros Hk Hsr. apply is_finite_of_spec. rewrite mul_spec.
  apply SFmul_small; try apply Prim2SF_valid.
  - now apply small_floats.
  - apply small_floats; lia.
Qed.

(** ** The loop over the chunk *)

Lemma map_opt_map {A B} (f : A -> option B) (g : A -> B) (l : list A) :
  (forall x, In x l -> f x = Some (g x)) -> map_opt f l = Some (map g l).
Proof.
  induction l as [|x l IH]; intros H; [reflexivity|].
  cbn [map_opt map]. rewrite (H x (or_introl eq_refl)), IH; [reflexivity|].
  intros y Hy. apply H. now right.
Qed.

Lemma py_range_length (a b : Z) : length (py_range a b) = Z.to_nat (b - a).
Proof. unfold py_range. now rewrite length_map, length_seq. Qed.

Lemma py_range_nth (a b : Z) (k : nat) :
  Z.of_nat k < b - a -> nth_error (py_range a b) k = Some (a + Z.of_nat k).
Proof.
  intros H. unfold py_range.
  rewrite nth_error_map, nth_error_seq.
  replace (k <? Z.to_nat (b - a))%nat with true
    by (symmetry; apply Nat.ltb_lt; lia).
  reflexivity.
Qed.

Lemma combine_nth_error {A B} (l1 : list A) (l2 : list B) (k : nat) (x : A) (y : B) :
  nth_error l1 k = Some x -> nth_error l2 k = Some y ->
  nth_error (combine l1 l2) k = Some (x, y).
Proof.
  revert l2 k. induction l1 as [|a l1 IH]; intros l2 k H1 H2.
  - destruct k; discriminate.
  - destruct l2 as [|b l2]; [destruct k; discriminate|].
    destruct k as [|k]; cbn in *; [congruence | now apply IH].
Qed.

Lemma map_snd_combine {A B} (l1 : list A) (l2 : list B) :
  length l1 = length l2 -> map snd (combine l1 l2) = l2.
Proof.
  revert l2. induction l1 as [|a l1 IH]; intros [|b l2] H; try discriminate.
  - reflexivity.
  - cbn. f_equal. apply IH. now injection H.
Qed.

Lemma float_of_int_defined (z : Z) :
  float_of_int z <> None -> float_of_int z = Some (to_float z).
Proof.
  destruct (float_of_int z) as [f|] eqn:E; [|congruence].
  intros _. now rewrite (float_of_int_to_float z f E).
Qed.

(** When no conversion overflows, the loop computes [stamp_at] for each
    position. *)
Lemma stamps_eq (self : t) (now : float) (b : bytes) :
  0 < sampling_rate self -> b <> [] ->
  (forall z, z = sampling_rate self \/ 0 <= z < len b -> float_of_int z <> None) ->
  stamps self now b =
  Some (map (fun ib : Z * byte => (stamp_at self now (len b) (fst ib), byte_val (snd ib)))
            (combine (py_range 0 (len b)) b)).
Proof.
  intros Hsr Hb Hconv.
  assert (Hn : 0 < len b).
  { destruct b; [congruence|]. unfold len. cbn [length]. lia. }
  unfold stamps, sample_period.
  replace (negb (sampling_rate self =? 0) && (sampling_rate self >? 0)) with true.
  2:{ symmetry. apply andb_true_iff. split.
      - apply negb_true_iff, Z.eqb_neq. lia.
      - apply Z.gtb_lt. lia. }
  rewrite (float_of_int_defined (sampling_rate self)) by (apply Hconv; now left).
  rewrite (float_of_int_defined (len b - 1)) by (apply Hconv; right; lia).
  cbn [option_map].
  apply map_opt_map. intros [i byte] Hin.
  apply in_combine_l, py_range_In in Hin.
  rewrite (float_of_int_defined i) by (apply Hconv; right; lia).
  reflexivity.
Qed.

Lemma plots_fold (ps : list (float * Z)) (st : plots) :
  let st' :=
    fold_left (fun st (p : float * Z) =>
                 mk_plots (pts st)
                          (deque_append (pts st) (plot_x st) (fst p))
                          (deque_append (pts st) (plot_y st) (snd p))
                          (sample_times st ++ [fst p]))
              ps st in
  plot_x st' = deque_extend (pts st) (plot_x st) (map fst ps) /\
  plot_y st' = deque_extend (pts st) (plot_y st) (map snd ps) /\
  sample_times st' = sample_times st ++ map fst ps.
Proof.
  revert st. induction ps as [|p ps IH]; intros st; cbn [fold_left map].
  - unfold deque_extend. cbn. now rewrite app_nil_r.
  - destruct (IH (mk_plots (pts st)
                           (deque_append (pts st) (plot_x st) (fst p))
                           (deque_append (pts st) (plot_y st) (snd p))
                           (sample_times st ++ [fst p]))) as (Hx & Hy & Ht).
    cbn [pts plot_x plot_y sample_times] in *. cbv zeta.
    rewrite Hx, Hy, Ht, <- app_assoc. repeat split.
Qed.

(** The stamps as the code computes them: each byte of a non-empty chunk
    is stored with its own value as raw code and with the stamp
    [now - ((n - 1) * dt - i * dt)], [dt = 1.0 / sampling_rate], computed
    in binary64 arithmetic; the last byte is stamped exactly [now] when
    the offset [(n - 1) * dt] is finite, as it is for every rate below
    65536 and every chunk of up to 65536 bytes.  The rate and the
    positions must convert to floats, as every integer below 65536 does
    ([small_ints_convert]); otherwise Python raises. *)
Lemma on_bytes_stamps_code (self : t) (st : plots) (now : float) (b : bytes) :
  0 < sampling_rate self -> b <> [] ->
  (forall z, z = sampling_rate self \/ 0 <= z < len b -> float_of_int z <> None) ->
  exists l st',
    stamps self now b = Some l /\
    on_bytes self st now b = Some st' /\
    length l = length b /\
    (forall i byte,
        nth_error b i = Some byte ->
        nth_error l i = Some (stamp_at self now (len b) (Z.of_nat i), byte_val byte)) /\
    (is_finite (to_float (len b - 1) * (1 / to_float (sampling_rate self)))%float = true ->
     stamp_at self now (len b) (len b - 1) = now) /\
    (sampling_rate self < 65536 -> len b <= 65536 ->
     stamp_at self now (len b) (len b - 1) = now) /\
    plot_x st' = deque_extend (pts st) (plot_x st) (map fst l) /\
    plot_y st' = deque_extend (pts st) (plot_y st) (map byte_val b) /\
    sample_times st' = sample_times st ++ map fst l.
Proof.
  intros Hsr Hb Hconv.
  set (l := map (fun ib : Z * byte =>
                   (stamp_at self now (len b) (fst ib), byte_val (snd ib)))
                (combine (py_range 0 (len b)) b)).
  assert (Hs : stamps self now b = Some l) by now apply stamps_eq.
  assert (Hlen : length l = length b).
  { subst l. rewrite length_map, length_combine, py_range_length.
    unfold len. lia. }
  assert (Hsnd : map snd l = map byte_val b).
  { subst l. rewrite map_map. cbn [snd].
    rewrite <- (map_map snd byte_val). f_equal.
    apply map_snd_combine. rewrite py_range_length. unfold len. lia. }
  destruct (plots_fold l st) as (Hx & Hy & Ht).
  eexists l, _. split; [exact Hs|]. split.
  { unfold on_bytes. destruct b as [|b0 b']; [congruence|].
    rewrite Hs. reflexivity. }
  split; [exact Hlen|]. split.
  { intros i byte Hi. subst l. rewrite nth_error_map.
    rewrite (combine_nth_error _ _ i (Z.of_nat i) byte); [reflexivity| |exact Hi].
    rewrite py_range_nth; [reflexivity|].
    assert (i < length b)%nat by (apply nth_error_Some; congruence).
    unfold len. lia. }
  assert (Hlast : is_finite (to_float (len b - 1)
                             * (1 / to_float (sampling_rate self)))%float = true ->
                  stamp_at self now (len b) (len b - 1) = now).
  { intros Hfin. unfold stamp_at. cbv zeta.
    now rewrite (sub_diag_finite _ Hfin), sub_zero. }
  split; [exact Hlast|]. split.
  { intros Hr Hl. apply Hlast, offset_finite; [|lia].
    destruct b; [congruence|]. unfold len in *. cbn [length] in *. lia. }
  rewrite <- Hsnd. now repeat split.
Qed.

(** The stamp is the quotient formula up to rounding, not bit for bit: at
    3 samples per second, in a chunk of four bytes received at time 0,
    the byte at position 1 is stamped
    [-(3 * (1/3) - 1 * (1/3)) = -0.6666666666666667], one unit in the
    last place from the binary64 quotient
    [-(2/3) = -0.6666666666666666]. *)
Remark stamp_rounding_example :
  stamps (mk 3 0.45 0.45 5) 0 [x01; x02; x03; x04]
  = Some [((-1)%float, 1); ((-0.6666666666666667)%float, 2);
          ((-0.33333333333333337)%float, 3); (0%float, 4)] /\
  (0 - to_float (4 - 1 - 1) / to_float 3)%float = (-0.6666666666666666)%float /\
  (-0.6666666666666667 =? -0.6666666666666666)%float = false.
Proof. repeat split; vm_compute; reflexivity. Qed.

End Stamps.

(* ================================================================= *)
(** * Properties: streams of frames *)

Section Streams.

Import Parser.

Lemma wire_frame_nonempty (typ : byte) (payload : bytes) :
  (length (@nil byte) < length (wire_frame typ payload))%nat.
Proof. rewrite wire_frame_eq. cbn [length]. lia. Qed.

Lemma fit_app (fs1 fs2 : list (byte * bytes)) : fit (fs1 ++ fs2) -> fit fs1 /\ fit fs2.
Proof. unfold fit. apply Forall_app. Qed.

Lemma stream_cons (f : byte * bytes) (fs : list (byte * bytes)) :
  stream (f :: fs) = wire_frame (fst f) (snd f) ++ stream fs.
Proof. reflexivity. Qed.

Lemma stream_app (fs1 fs2 : list (byte * bytes)) :
  stream (fs1 ++ fs2) = stream fs1 ++ stream fs2.
Proof. unfold stream. now rewrite map_app, concat_app. Qed.

Lemma feed_run_frame (f : byte * bytes) (rest : bytes) :
  len (snd f) <= 255 ->
  feed_run (wire_frame (fst f) (snd f) ++ rest) = emit (frame_entries f) (feed_run rest).
Proof.
  intros H. rewrite feed_run_unfold, feed_step_wire by assumption. reflexivity.
Qed.

Lemma feed_run_stream (frames : list (byte * bytes)) (rest : bytes) :
  fit frames ->
  feed_run (stream frames ++ rest) =
  emit (concat (map frame_entries frames)) (feed_run rest).
Proof.
  induction 1 as [|f fs Hf Hfs IH].
  - cbn [stream map concat app]. now rewrite emit_nil.
  - rewrite stream_cons, <- app_assoc, feed_run_frame by assumption.
    rewrite IH, emit_emit. reflexivity.
Qed.

(** A prefix of a stream of frames consists of whole frames and the
    beginning of the next one; the loop of [feed] decodes the whole
    frames and keeps the beginning. *)
Lemma stream_prefix (frames : list (byte * bytes)) :
  fit frames ->
  forall a b,
    a ++ b = stream frames ->
    exists fs1 fs2 p,
      frames = fs1 ++ fs2 /\
      p ++ b = stream fs2 /\
      feed_run a = Some (concat (map frame_entries fs1), p) /\
      match fs2 with
      | [] => p = []
      | f :: _ => (length p < length (wire_frame (fst f) (snd f)))%nat
      end.
Proof.
  induction 1 as [|f fs Hf Hfs IH]; intros a b Hab.
  - cbn in Hab. apply app_eq_nil in Hab as [-> ->].
    exists [], [], []. repeat split.
  - rewrite stream_cons in Hab.
    apply app_eq_app in Hab as [l [[Ha Hb]|[Hw Hb]]].
    + (* the first frame lies within [a] *)
      subst a. destruct (IH l b (eq_sym Hb)) as (fs1 & fs2 & p & -> & Hp & Hrun & Hlen).
      exists (f :: fs1), fs2, p. repeat split; try assumption.
      rewrite feed_run_frame, Hrun by assumption. reflexivity.
    + destruct l as [|x l].
      * (* [a] is exactly the first frame *)
        rewrite app_nil_r in Hw. subst a. cbn [app] in Hb. subst b.
        exists [f], fs, []. repeat split.
        -- rewrite <- (app_nil_r (wire_frame _ _)), feed_run_frame, feed_run_nil
             by assumption.
           cbn. now rewrite app_nil_r.
        -- destruct fs as [|g fs']; [reflexivity|].
           apply wire_frame_nonempty.
      * (* [a] ends inside the first frame *)
        exists [], (f :: fs), a. repeat split.
        -- rewrite stream_cons, Hw, Hb, <- app_assoc. reflexivity.
        -- apply (feed_run_prefix (fst f) (snd f) a (x :: l)); [assumption..|discriminate].
        -- rewrite Hw, length_app. cbn [length]. lia.
Qed.

Lemma feed_all_stream (chunks : list bytes) :
  forall (frames : list (byte * bytes)) (p : bytes),
    fit frames ->
    p ++ concat chunks = stream frames ->
    match frames with
    | [] => p = []
    | f :: _ => (length p < length (wire_frame (fst f) (snd f)))%nat
    end ->
    feed_all (mk p) chunks = Some (concat (map frame_entries frames), init).
Proof.
  induction chunks as [|c cs IH]; intros frames p Hfit Hp Hlen.
  - cbn [concat] in Hp. rewrite app_nil_r in Hp. subst p.
    destruct frames as [|f fs].
    + reflexivity.
    + rewrite stream_cons, length_app in Hlen. lia.
  - cbn [concat] in Hp. rewrite app_assoc in Hp.
    destruct (stream_prefix frames Hfit _ _ Hp)
      as (fs1 & fs2 & p' & -> & Hp' & Hrun & Hlen').
    apply fit_app in Hfit as [_ Hfit2].
    cbn [feed_all]. rewrite feed_feed_run. cbn [buffer]. rewrite Hrun.
    cbn [option_map fst snd].
    rewrite (IH fs2 p' Hfit2 Hp' Hlen').
    now rewrite map_app, concat_app.
Qed.

(** X1: a stream of well-formed frames of any types, cut into chunks at
    arbitrary places and fed chunk by chunk to a fresh parser, gives the
    entries of each frame, frame after frame, and leaves the buffer empty. *)
Theorem stream_any_chunking (frames : list (byte * bytes)) (chunks : list bytes) :
  fit frames ->
  concat chunks = stream frames ->
  feed_all init chunks = Some (concat (map frame_entries frames), init).
Proof.
  intros Hfit Hc. apply feed_all_stream; [assumption|exact Hc|].
  destruct frames as [|f fs]; [reflexivity|]. apply wire_frame_nonempty.
Qed.

Lemma stream_any_chunking_example :
  fit [(x01, [x01; x00; x02; x00]); (x07, [xff]); (x01, [x03; x00; x04; x00])] /\
  concat [[xaa; x55; x04]; [x01; x01; x00; x02; x00; x36; xb2; xaa; x55; x01; x07];
          []; [xff; xcb; x7c; xaa]; [x55; x04; x01; x03; x00; x04; x00; xf8; xf5]]
  = stream [(x01, [x01; x00; x02; x00]); (x07, [xff]); (x01, [x03; x00; x04; x00])] /\
  feed_all init
    [[xaa; x55; x04]; [x01; x01; x00; x02; x00; x36; xb2; xaa; x55; x01; x07];
     []; [xff; xcb; x7c; xaa]; [x55; x04; x01; x03; x00; x04; x00; xf8; xf5]]
  = Some (concat (map frame_entries
                      [(x01, [x01; x00; x02; x00]); (x07, [xff]);
                       (x01, [x03; x00; x04; x00])]), init).
Proof.
  assert (Hfit : fit [(x01, [x01; x00; x02; x00]); (x07, [xff]);
                      (x01, [x03; x00; x04; x00])]).
  { repeat constructor; vm_compute; discriminate. }
  assert (Hc : concat [[xaa; x55; x04];
                       [x01; x01; x00; x02; x00; x36; xb2; xaa; x55; x01; x07];
                       []; [xff; xcb; x7c; xaa];
                       [x55; x04; x01; x03; x00; x04; x00; xf8; xf5]]
               = stream [(x01, [x01; x00; x02; x00]); (x07, [xff]);
                         (x01, [x03; x00; x04; x00])]).
  { vm_compute. reflexivity. }
  exact (conj Hfit (conj Hc (stream_any_chunking _ _ Hfit Hc))).
Defined.

End Streams.

(* ================================================================= *)
(** * Properties: what [feed] keeps and what it returns *)

Section Safety.

Import Parser.

(** Induction over the passes of the loop of [feed]. *)
Lemma feed_run_induction (P : bytes -> list entry -> bytes -> Prop) :
  (forall buf b, feed_step buf = Break b -> P buf [] b) ->
  (forall buf mid out rs b,
      feed_step buf = Continue mid out ->
      feed_run mid = Some (rs, b) -> P mid rs b -> P buf (out ++ rs) b) ->
  forall buf rs b, feed_run buf = Some (rs, b) -> P buf rs b.
Proof.
  intros Hbreak Hcont buf.
  remember (length buf) as n eqn:Hn.
  revert buf Hn. induction n as [n IH] using lt_wf_ind. intros buf Hn rs b Hrun.
  rewrite feed_run_unfold in Hrun.
  pose proof (feed_step_cases buf) as Hc.
  destruct (feed_step buf) as [b0|mid out|] eqn:Hs.
  - injection Hrun as <- <-. now apply Hbreak.
  - destruct (feed_run mid) as [[rs' b']|] eqn:Hm; [|discriminate].
    cbn in Hrun. injection Hrun as <- <-.
    apply (Hcont buf mid out rs' b' Hs Hm).
    apply (IH (length mid)); [lia|reflexivity|assumption].
  - contradiction.
Qed.

(** A pass that ends the loop leaves a buffer on which the next pass ends
    the loop as well, without touching it. *)
Lemma feed_step_settled (buf b : bytes) :
  feed_step buf = Break b -> feed_step b = Break b.
Proof.
  intros Hs.
  destruct (Z_lt_le_dec (len buf) 6) as [Hshort|Hlong].
  - rewrite feed_step_short in Hs by assumption. injection Hs as <-.
    now apply feed_step_short.
  - destruct (find_nat buf HEADER) as [k|] eqn:Hf.
    + rewrite (feed_step_found buf k Hlong Hf) in Hs.
      pose proof (frame_at_head_cases (skipn k buf)) as Hc.
      rewrite Hs in Hc. subst b.
      destruct (Z_lt_le_dec (len (skipn k buf)) 6) as [Hs6|Hl6].
      * now apply feed_step_short.
      * apply find_nat_Some in Hf as [Hst _].
        apply startswith_header in Hst as [r Hr].
        rewrite (feed_step_found (skipn k buf) 0 Hl6).
        -- exact Hs.
        -- rewrite Hr. apply find_nat_header_here.
    + rewrite feed_step_noise in Hs; [|assumption|now apply no_header_nat].
      injection Hs as <-. reflexivity.
Qed.

Lemma feed_run_settled (buf : bytes) (rs : list entry) (b : bytes) :
  feed_run buf = Some (rs, b) -> feed_step b = Break b.
Proof.
  apply (feed_run_induction (fun _ _ b => feed_step b = Break b)).
  - intros ? ?. apply feed_step_settled.
  - intros. assumption.
Qed.

(** X2: once a call of [feed] has returned, a call with no data returns
    nothing and leaves the parser as it is. *)
Theorem feed_nothing_is_idle (p : t) (data : bytes) (rs : list entry) (p' : t) :
  feed p data = Some (rs, p') -> feed p' [] = Some ([], p').
Proof.
  rewrite !feed_feed_run. intros H.
  destruct (feed_run (buffer p ++ data)) as [[rs0 b]|] eqn:Hrun; [|discriminate].
  cbn in H. injection H as <- <-. cbn [buffer]. rewrite app_nil_r.
  rewrite feed_run_unfold, (feed_run_settled _ _ _ Hrun). reflexivity.
Qed.

Lemma feed_nothing_is_idle_example :
  feed init [x00; xaa; x55; x04; x01; x01; x00; x02; x00; x36; xb2; xaa; x55; x09]
  = Some ([Sample 1 2 frame_1_2], mk [xaa; x55; x09]) /\
  feed (mk [xaa; x55; x09]) [] = Some ([], mk [xaa; x55; x09]).
Proof.
  assert (H : feed init [x00; xaa; x55; x04; x01; x01; x00; x02; x00; x36; xb2;
                         xaa; x55; x09]
              = Some ([Sample 1 2 frame_1_2], mk [xaa; x55; x09])).
  { vm_compute. reflexivity. }
  exact (conj H (feed_nothing_is_idle _ _ _ _ H)).
Defined.

(** What a pass that goes on has done: it has dropped everything up to
    and including the first byte of a header whose frame fails the
    check, or it has dropped what precedes a well-formed frame and
    consumed that frame. *)
Lemma feed_step_continue (buf mid : bytes) (out : list entry) :
  feed_step buf = Continue mid out ->
  exists k : nat,
    (out = [] /\ (k < length buf)%nat /\ mid = skipn (S k) buf) \/
    (exists f, len (snd f) <= 255 /\
               skipn k buf = wire_frame (fst f) (snd f) ++ mid /\
               out = frame_entries f).
Proof.
  intros Hs.
  destruct (Z_lt_le_dec (len buf) 6) as [Hshort|Hlong].
  { rewrite feed_step_short in Hs by assumption. discriminate. }
  destruct (find_nat buf HEADER) as [k|] eqn:Hf.
  2:{ rewrite feed_step_noise in Hs; [discriminate|assumption|now apply no_header_nat]. }
  rewrite (feed_step_found buf k Hlong Hf) in Hs.
  apply find_nat_Some in Hf as [Hst Hk].
  apply startswith_header in Hst as [r Hr].
  exists k.
  destruct (nth_error (skipn k buf) 2) as [lb|] eqn:Hlb.
  2:{ rewrite frame_at_head_wait in Hs; [discriminate|]. intros lb0 H0. congruence. }
  destruct (Z_lt_le_dec (len (skipn k buf)) (6 + byte_val lb)) as [Hw|Hfull].
  { rewrite frame_at_head_wait in Hs; [discriminate|].
    intros lb0 H0. rewrite Hlb in H0. injection H0 as <-. exact Hw. }
  destruct (frame_split _ _ Hlb Hfull)
    as (h0 & h1 & tb & payload & c0 & c1 & rest & Hbuf & Hlen).
  rewrite Hbuf in Hr. injection Hr as -> -> _.
  rewrite Hbuf in Hs. rewrite frame_at_head_complete in Hs by assumption.
  cbv zeta in Hs.
  destruct (Utils.crc16_ccitt (lb :: tb :: payload) =? byte_val c0 + 256 * byte_val c1)
    eqn:Hcrc.
  - right. exists (tb, payload). cbn [fst snd].
    assert (Hwire : wire_frame tb payload = xaa :: x55 :: lb :: tb :: payload ++ [c0; c1]).
    { rewrite wire_frame_eq, Hlen, byte_of_Z_val.
      destruct (crc_bytes_check (lb :: tb :: payload)) as (d0 & d1 & Hd & Hv).
      rewrite Hd. apply Z.eqb_eq in Hcrc. rewrite Hv in Hcrc.
      pose proof (byte_val_range c0). pose proof (byte_val_range c1).
      pose proof (byte_val_range d0). pose proof (byte_val_range d1).
      assert (byte_val d0 = byte_val c0) as E0 by lia.
      assert (byte_val d1 = byte_val c1) as E1 by lia.
      apply byte_val_inj in E0, E1. now subst. }
    pose proof (byte_val_range lb).
    split; [lia|]. split.
    + rewrite Hbuf, Hwire. cbn [app]. do 4 f_equal.
      destruct (byte_val tb =? 1); injection Hs as <- _;
        now rewrite <- app_assoc.
    + unfold frame_entries. cbn [fst snd]. rewrite Hwire.
      destruct (byte_val tb =? 1); now injection Hs as _ <-.
  - left. injection Hs as <- <-. split; [reflexivity|]. split; [lia|].
    replace (S k) with (1 + k)%nat by lia.
    rewrite <- skipn_skipn, Hbuf. reflexivity.
Qed.

Lemma decode_groups_raw (frame payload : bytes) (e : entry) :
  In e (decode_groups frame payload) -> raw_frame e = frame.
Proof.
  remember (length payload) as m eqn:Hm. revert payload Hm.
  induction m as [m IH] using lt_wf_ind. intros payload Hm He.
  destruct payload as [|a0 [|a1 [|b0 [|b1 r]]]]; try contradiction.
  cbn [decode_groups] in He. destruct He as [<-|He]; [reflexivity|].
  apply (IH (length r) ltac:(subst m; cbn [length]; lia) r eq_refl He).
Qed.

Lemma frame_entries_raw (f : byte * bytes) (e : entry) :
  In e (frame_entries f) -> raw_frame e = wire_frame (fst f) (snd f).
Proof.
  unfold frame_entries. destruct (byte_val (fst f) =? 1).
  - apply decode_groups_raw.
  - intros [<-|[]]. reflexivity.
Qed.

(** The buffer the loop leaves is the end of the buffer it started with,
    and every entry it returns carries a well-formed frame that lies in
    the buffer it started with and decodes to that entry. *)
Lemma feed_run_sound (buf : bytes) (rs : list entry) (b : bytes) :
  feed_run buf = Some (rs, b) ->
  (exists pre, buf = pre ++ b) /\
  Forall (fun e => exists f pre post,
              len (snd f) <= 255 /\
              raw_frame e = wire_frame (fst f) (snd f) /\
              In e (frame_entries f) /\
              buf = pre ++ raw_frame e ++ post) rs.
Proof.
  apply (feed_run_induction
           (fun buf rs b =>
              (exists pre, buf = pre ++ b) /\
              Forall (fun e => exists f pre post,
                          len (snd f) <= 255 /\
                          raw_frame e = wire_frame (fst f) (snd f) /\
                          In e (frame_entries f) /\
                          buf = pre ++ raw_frame e ++ post) rs)).
  - intros buf0 b0 Hs. split; [|constructor].
    pose proof (feed_step_cases buf0) as Hc. rewrite Hs in Hc.
    destruct Hc as [[-> _]|[[-> _]|[_ [k ->]]]].
    + now exists [].
    + exists buf0. now rewrite app_nil_r.
    + exists (firstn k buf0). now rewrite firstn_skipn.
  - intros buf0 mid out rs0 b0 Hs _ [[pre Hpre] Hall].
    assert (Hmid : exists pre0, buf0 = pre0 ++ mid).
    { destruct (feed_step_continue _ _ _ Hs) as [k [(_ & _ & ->)|(f & _ & Hk & _)]].
      - exists (firstn (S k) buf0). now rewrite firstn_skipn.
      - exists (firstn k buf0 ++ wire_frame (fst f) (snd f)).
        rewrite <- app_assoc, <- Hk. now rewrite firstn_skipn. }
    destruct Hmid as [pre0 Hpre0].
    split.
    + exists (pre0 ++ pre). now rewrite <- app_assoc, <- Hpre.
    + apply Forall_app. split.
      * destruct (feed_step_continue _ _ _ Hs) as [k [(-> & _ & _)|(f & Hf & Hk & ->)]];
          [constructor|].
        apply Forall_forall. intros e He.
        exists f, (firstn k buf0), mid.
        assert (Hraw : raw_frame e = wire_frame (fst f) (snd f)).
        { now apply frame_entries_raw. }
        repeat split; try assumption.
        rewrite Hraw, <- Hk. now rewrite firstn_skipn.
      * apply Forall_forall. intros e He.
        rewrite Forall_forall in Hall.
        destruct (Hall e He) as (f & pre1 & post1 & Hf & Hraw & Hin & Hm).
        exists f, (pre0 ++ pre1), post1. repeat split; try assumption.
        rewrite Hpre0, Hm, <- app_assoc. reflexivity.
Qed.

(** X3: every entry [feed] returns carries a raw frame that is
    well formed (header, length, type, payload of that length and the
    matching CRC), that lies as it is in the bytes buffered and fed, and
    that decodes to this entry. *)
Theorem feed_returns_checked_frames (p : t) (data : bytes) (rs : list entry) (p' : t) :
  feed p data = Some (rs, p') ->
  Forall (fun e => exists f pre post,
              len (snd f) <= 255 /\
              raw_frame e = wire_frame (fst f) (snd f) /\
              In e (frame_entries f) /\
              buffer p ++ data = pre ++ raw_frame e ++ post) rs.
Proof.
  rewrite feed_feed_run. intros H.
  destruct (feed_run (buffer p ++ data)) as [[rs0 b]|] eqn:Hrun; [|discriminate].
  cbn in H. injection H as <- <-. exact (proj2 (feed_run_sound _ _ _ Hrun)).
Qed.

Lemma feed_returns_checked_frames_example :
  feed init [x00; xaa; x55; x04; x01; x01; x00; x02; x00; x36; xb2; xaa; x55; x09]
  = Some ([Sample 1 2 frame_1_2], mk [xaa; x55; x09]) /\
  Forall (fun e => exists f pre post,
              len (snd f) <= 255 /\
              raw_frame e = wire_frame (fst f) (snd f) /\
              In e (frame_entries f) /\
              buffer init ++ [x00; xaa; x55; x04; x01; x01; x00; x02; x00; x36; xb2;
                              xaa; x55; x09]
              = pre ++ raw_frame e ++ post) [Sample 1 2 frame_1_2].
Proof.
  assert (H : feed init [x00; xaa; x55; x04; x01; x01; x00; x02; x00; x36; xb2;
                         xaa; x55; x09]
              = Some ([Sample 1 2 frame_1_2], mk [xaa; x55; x09])).
  { vm_compute. reflexivity. }
  exact (conj H (feed_returns_checked_frames _ _ _ _ H)).
Defined.

(** X4: the buffer [feed] keeps is the end of the bytes buffered and fed:
    bytes are dropped from the front only, never changed, reordered or
    added. *)
Theorem feed_keeps_a_suffix (p : t) (data : bytes) (rs : list entry) (p' : t) :
  feed p data = Some (rs, p') ->
  exists dropped, buffer p ++ data = dropped ++ buffer p'.
Proof.
  rewrite feed_feed_run. intros H.
  destruct (feed_run (buffer p ++ data)) as [[rs0 b]|] eqn:Hrun; [|discriminate].
  cbn in H. injection H as <- <-. exact (proj1 (feed_run_sound _ _ _ Hrun)).
Qed.

Lemma feed_keeps_a_suffix_example :
  feed (mk [x00; xaa]) [x55; x04; x01; x01; x00; x02; x00; x36; xb2; xaa; x55; x09]
  = Some ([Sample 1 2 frame_1_2], mk [xaa; x55; x09]) /\
  exists dropped,
    buffer (mk [x00; xaa])
    ++ [x55; x04; x01; x01; x00; x02; x00; x36; xb2; xaa; x55; x09]
    = dropped ++ buffer (mk [xaa; x55; x09]).
Proof.
  assert (H : feed (mk [x00; xaa])
                   [x55; x04; x01; x01; x00; x02; x00; x36; xb2; xaa; x55; x09]
              = Some ([Sample 1 2 frame_1_2], mk [xaa; x55; x09])).
  { vm_compute. reflexivity. }
  exact (conj H (feed_keeps_a_suffix _ _ _ _ H)).
Defined.

(** X5: bytes without a header in front of a stream of well-formed
    frames are discarded, whatever the parser had buffered of them, and
    the frames are decoded as if the noise had not been there. *)
Theorem noise_before_frames_is_discarded
        (p : t) (noise : bytes) (f : byte * bytes) (frames : list (byte * bytes)) :
  no_header (buffer p ++ noise) -> fit (f :: frames) ->
  feed p (noise ++ stream (f :: frames))
  = Some (concat (map frame_entries (f :: frames)), init).
Proof.
  intros Hn Hfit. inversion Hfit as [|? ? Hf Hfs]; subst.
  rewrite feed_feed_run, app_assoc, stream_cons.
  rewrite feed_run_unfold, feed_step_skip_noise by assumption.
  fold (frame_entries f).
  rewrite <- (app_nil_r (stream frames)), feed_run_stream, feed_run_nil by assumption.
  cbn. now rewrite app_nil_r.
Qed.

Lemma noise_before_frames_is_discarded_example :
  no_header (buffer (mk [x00; xaa]) ++ [xaa; x01; x55; xaa]) /\
  fit [(x01, [x01; x00; x02; x00]); (x07, [xff])] /\
  feed (mk [x00; xaa])
       ([xaa; x01; x55; xaa] ++ stream [(x01, [x01; x00; x02; x00]); (x07, [xff])])
  = Some (concat (map frame_entries [(x01, [x01; x00; x02; x00]); (x07, [xff])]), init).
Proof.
  assert (Hn : no_header (buffer (mk [x00; xaa]) ++ [xaa; x01; x55; xaa])).
  { vm_compute. reflexivity. }
  assert (Hfit : fit [(x01, [x01; x00; x02; x00]); (x07, [xff])]).
  { repeat constructor; vm_compute; discriminate. }
  exact (conj Hn (conj Hfit (noise_before_frames_is_discarded _ _ _ _ Hn Hfit))).
Defined.

End Safety.

(* ================================================================= *)
(** * Properties: the checksum as a code *)

Section Code.

Import Utils.

(** ** The low 16 bits are all that counts *)

Ltac bitwise :=
  apply Z.bits_inj'; intros ?n ?Hn;
  repeat (rewrite Z.lxor_spec || rewrite Z.land_spec);
  repeat match goal with
         | |- context [Z.testbit ?x ?n] => destruct (Z.testbit x n)
         end; reflexivity.

Lemma land_lxor_distr (a b c : Z) :
  Z.land (Z.lxor a b) c = Z.lxor (Z.land a c) (Z.land b c).
Proof. bitwise. Qed.

Lemma low16_bits (a b : Z) :
  Z.land a 0xFFFF = Z.land b 0xFFFF ->
  forall i, i < 16 -> Z.testbit a i = Z.testbit b i.
Proof.
  intros H i Hi. destruct (Z.neg_nonneg_cases i) as [Hneg|Hnn].
  - now rewrite !Z.testbit_neg_r.
  - assert (E : Z.testbit (Z.land a 0xFFFF) i = Z.testbit (Z.land b 0xFFFF) i)
      by now rewrite H.
    change 0xFFFF with (Z.ones 16) in E.
    now rewrite !Z.land_spec, !Z.ones_spec_low, !andb_true_r in E by lia.
Qed.

Lemma crc_round_low16 (poly a b : Z) :
  Z.land a 0xFFFF = Z.land b 0xFFFF -> crc_round poly a = crc_round poly b.
Proof.
  intros H. pose proof (low16_bits a b H) as Hb. unfold crc_round.
  change 0x8000 with (2 ^ 15). rewrite !land_pow2 by lia.
  rewrite (Hb 15) by lia.
  assert (E : Z.land (Z.shiftl a 1) 0xFFFF = Z.land (Z.shiftl b 1) 0xFFFF).
  { apply Z.bits_inj'. intros i Hi. change 0xFFFF with (Z.ones 16).
    rewrite !Z.land_spec, !Z.shiftl_spec by lia.
    destruct (Z_lt_le_dec i 16) as [Hlt|Hge].
    - rewrite (Hb (i - 1)) by lia. reflexivity.
    - rewrite Z.ones_spec_high by lia. now rewrite !andb_false_r. }
  now rewrite E.
Qed.

Lemma crc_update_low16 (poly a b : Z) (x : byte) :
  Z.land a 0xFFFF = Z.land b 0xFFFF -> crc_update poly a x = crc_update poly b x.
Proof.
  intros H. unfold crc_update.
  change 8%nat with (7 + 1)%nat. rewrite !Nat.iter_add. f_equal.
  cbv [Nat.iter nat_rect]. apply crc_round_low16.
  now rewrite !land_lxor_distr, H.
Qed.

Lemma fold_crc_update_low16 (poly : Z) (data : bytes) (a b : Z) :
  Z.land a 0xFFFF = Z.land b 0xFFFF ->
  Z.land (fold_left (crc_update poly) data a) 0xFFFF
  = Z.land (fold_left (crc_update poly) data b) 0xFFFF.
Proof.
  intros H. destruct data as [|x data]; [exact H|].
  cbn [fold_left]. now rewrite (crc_update_low16 poly a b x H).
Qed.

(** X6: the checksum of data in two parts is the checksum of the second
    part started from the checksum of the first, for every polynomial
    and every initial value. *)
Theorem crc16_ccitt_chains (a b : bytes) (poly init_val : Z) :
  crc16_ccitt_with (a ++ b) poly init_val
  = crc16_ccitt_with b poly (crc16_ccitt_with a poly init_val).
Proof.
  unfold crc16_ccitt_with. rewrite fold_left_app.
  apply fold_crc_update_low16.
  rewrite <- Z.land_assoc. reflexivity.
Qed.

(** ** Errors within two neighbouring bytes *)

Lemma double_lxor (a b : Z) :
  (2 * Z.lxor a b) mod 2 ^ 16 = Z.lxor ((2 * a) mod 2 ^ 16) ((2 * b) mod 2 ^ 16).
Proof.
  rewrite <- !Z.land_ones by lia.
  replace (2 * Z.lxor a b) with (Z.shiftl (Z.lxor a b) 1)
    by (rewrite Z.shiftl_mul_pow2 by lia; change (2 ^ 1) with 2; lia).
  replace (2 * a) with (Z.shiftl a 1)
    by (rewrite Z.shiftl_mul_pow2 by lia; change (2 ^ 1) with 2; lia).
  replace (2 * b) with (Z.shiftl b 1)
    by (rewrite Z.shiftl_mul_pow2 by lia; change (2 ^ 1) with 2; lia).
  rewrite Z.shiftl_lxor. apply land_lxor_distr.
Qed.

(** A round of the checksum is linear over XOR. *)
Lemma spec_round_lxor (a b : Z) :
  spec_round (Z.lxor a b) = Z.lxor (spec_round a) (spec_round b).
Proof.
  unfold spec_round. rewrite Z.lxor_spec, double_lxor.
  generalize ((2 * a) mod 2 ^ 16) as sa, ((2 * b) mod 2 ^ 16) as sb. intros sa sb.
  destruct (Z.testbit a 15), (Z.testbit b 15); cbn [xorb]; bitwise.
Qed.

Lemma iter_spec_round_lxor (n : nat) (a b : Z) :
  Nat.iter n spec_round (Z.lxor a b)
  = Z.lxor (Nat.iter n spec_round a) (Nat.iter n spec_round b).
Proof.
  induction n as [|n IH]; [reflexivity|].
  cbn [Nat.iter nat_rect]. change (nat_rect _ ?x _ n) with (Nat.iter n spec_round x).
  now rewrite IH, spec_round_lxor.
Qed.

Lemma lxor_byte_range (a b : byte) : 0 <= Z.lxor (byte_val a) (byte_val b) < 256.
Proof.
  pose proof (byte_val_range a) as Ha. pose proof (byte_val_range b) as Hb.
  assert (H : Z.lxor (byte_val a) (byte_val b) mod 2 ^ 8 = Z.lxor (byte_val a) (byte_val b)).
  { apply Z.bits_inj'. intros i Hi. rewrite Z.testbit_mod_pow2 by lia.
    destruct (i <? 8) eqn:Ei; [reflexivity|]. apply Z.ltb_ge in Ei.
    rewrite Z.lxor_spec.
    rewrite <- (Z.mod_small (byte_val a) (2 ^ 8)), <- (Z.mod_small (byte_val b) (2 ^ 8))
      by (change (2 ^ 8) with 256; lia).
    now rewrite !Z.mod_pow2_bits_high by lia. }
  rewrite <- H. change 256 with (2 ^ 8). apply Z.mod_pos_bound. lia.
Qed.

(** Eight rounds carry a difference in one byte into the low eight bits. *)
Lemma difference_spreads (d : Z) :
  0 <= d < 256 -> Z.land (Nat.iter 8 spec_round (d * 2 ^ 8)) 255 = 0 -> d = 0.
Proof.
  intros Hd H.
  assert (E : all_from 256 0
                (fun d => (d =? 0)
                          || negb (Z.land (Nat.iter 8 spec_round (d * 2 ^ 8)) 255 =? 0))
              = true) by (vm_compute; reflexivity).
  pose proof (all_from_spec _ _ _ E d ltac:(lia)) as Hp. cbv beta in Hp.
  rewrite H in Hp. cbn [Z.eqb negb] in Hp. rewrite orb_false_r in Hp. lia.
Qed.

Lemma low8_of_shifted_byte (b : byte) : Z.land (byte_val b * 2 ^ 8) 255 = 0.
Proof.
  apply Z.bits_inj'. intros i Hi. rewrite Z.land_spec, Z.bits_0.
  destruct (Z_lt_le_dec i 8) as [Hlt|Hge].
  - now rewrite Z.mul_pow2_bits_low.
  - change 255 with (Z.ones 8). rewrite Z.ones_spec_high by lia. apply andb_false_r.
Qed.

Lemma shifted_lxor (a b : Z) :
  Z.lxor (a * 2 ^ 8) (b * 2 ^ 8) = Z.lxor a b * 2 ^ 8.
Proof. rewrite <- !Z.shiftl_mul_pow2 by lia. symmetry. apply Z.shiftl_lxor. Qed.

Lemma fold_left_step {A B} (f : A -> B -> A) (x : B) (l : list B) (a : A) :
  fold_left f (x :: l) a = fold_left f l (f a x).
Proof. reflexivity. Qed.

Lemma spec_byte_eq (acc : Z) (b : byte) :
  spec_byte acc b = Nat.iter 8 spec_round (Z.lxor acc (byte_val b * 2 ^ 8)).
Proof. reflexivity. Qed.

Lemma spec_two_bytes_inj (s : Z) (a1 a2 b1 b2 : byte) :
  u16 s ->
  spec_byte (spec_byte s a1) a2 = spec_byte (spec_byte s b1) b2 ->
  a1 = b1 /\ a2 = b2.
Proof.
  intros Hs H.
  assert (H1 : a1 = b1).
  { rewrite (spec_byte_eq (spec_byte s a1) a2), (spec_byte_eq (spec_byte s b1) b2) in H.
    apply iter_spec_round_inj in H;
      [|apply lxor_u16; [apply spec_byte_u16|apply byte_shift_u16]..].
    rewrite !spec_byte_eq, !iter_spec_round_lxor in H.
    rewrite !Z.lxor_assoc in H. apply lxor_cancel_l in H.
    apply (f_equal (fun z => Z.land z 255)) in H. cbv beta in H.
    rewrite !land_lxor_distr, !low8_of_shifted_byte, !Z.lxor_0_r in H.
    assert (D : Z.land (Nat.iter 8 spec_round
                          (Z.lxor (byte_val a1) (byte_val b1) * 2 ^ 8)) 255 = 0).
    { rewrite <- shifted_lxor, iter_spec_round_lxor, land_lxor_distr, H.
      exact (Z.lxor_nilpotent _). }
    apply difference_spreads in D; [|apply lxor_byte_range].
    apply Z.lxor_eq in D. exact (byte_val_inj _ _ D). }
  split; [exact H1|]. subst b1.
  apply spec_byte_inj_byte in H; [exact H|apply spec_byte_u16].
Qed.

(** X7: the checksum tells apart any two inputs that differ in one byte
    only, and any two that differ within two neighbouring bytes only. *)
Theorem crc16_ccitt_detects_bursts (pre post : bytes) :
  (forall a b : byte,
      crc16_ccitt (pre ++ a :: post) = crc16_ccitt (pre ++ b :: post) -> a = b) /\
  (forall a1 a2 b1 b2 : byte,
      crc16_ccitt (pre ++ a1 :: a2 :: post) = crc16_ccitt (pre ++ b1 :: b2 :: post) ->
      a1 = b1 /\ a2 = b2).
Proof.
  assert (Hs : u16 (fold_left spec_byte pre 0xFFFF)).
  { apply fold_spec_byte_u16. unfold u16. lia. }
  split.
  - intros a b H. rewrite !crc16_is_spec in H. unfold crc16_ccitt_false in H.
    rewrite !fold_left_app, !fold_left_step in H.
    apply fold_spec_byte_inj in H; [|apply spec_byte_u16..].
    apply spec_byte_inj_byte in H; assumption.
  - intros a1 a2 b1 b2 H. rewrite !crc16_is_spec in H. unfold crc16_ccitt_false in H.
    rewrite !fold_left_app, !fold_left_step in H.
    apply fold_spec_byte_inj in H; [|apply spec_byte_u16..].
    apply spec_two_bytes_inj in H; assumption.
Qed.

End Code.

(* ================================================================= *)
(** * Properties: the encoder and the virtual sender *)

Section Sender.

Import Parser.

Lemma land_FFFF_mod (z : Z) : Z.land z 0xFFFF = z mod 65536.
Proof. change 0xFFFF with (Z.ones 16). rewrite Z.land_ones by lia. reflexivity. Qed.

Lemma mask16_wrap16 (s : Z * Z) : mask16 s = wrap16 s.
Proof. unfold mask16, wrap16. now rewrite !land_FFFF_mod. Qed.

Lemma map_mask16_wrap16 (samples : list (Z * Z)) :
  map mask16 samples = map wrap16 samples.
Proof. apply map_ext, mask16_wrap16. Qed.

(** What a fresh parser makes of the frame [make_frame] builds. *)
Lemma feed_make_frame (samples : list (Z * Z)) (frame : bytes) :
  VirtualSender.make_frame samples = Some frame ->
  feed init frame = Some (entries_of frame (map mask16 samples), init).
Proof.
  intros H. apply make_frame_inv in H as [Hlen ->].
  rewrite feed_feed_run. cbn [buffer init app].
  rewrite feed_run_wire.
  - change (byte_val x01 =? 1) with true. cbv iota.
    rewrite decode_payload_of by apply in_range_mask16. reflexivity.
  - rewrite payload_of_len, map_mask16_len. lia.
Qed.

(** X8: [make_frame] returns a frame exactly when it is given at most 63
    samples; the frame then has 6 bytes more than the 4 bytes of each
    sample and begins with the header, the length of the payload and the
    type 1.  From 64 samples on it raises. *)
Theorem make_frame_layout (samples : list (Z * Z)) :
  match VirtualSender.make_frame samples with
  | Some frame =>
      len samples <= 63 /\
      len frame = 6 + 4 * len samples /\
      firstn 4 frame = [xaa; x55; byte_of_Z (4 * len samples); x01] /\
      byte_val (byte_of_Z (4 * len samples)) = 4 * len samples
  | None => 64 <= len samples
  end.
Proof.
  destruct (Z_le_gt_dec (len samples) 63) as [Hle|Hgt].
  - rewrite make_frame_wire by assumption. split; [assumption|].
    pose proof (len_nonneg samples).
    rewrite wire_frame_len, wire_frame_eq, payload_of_len, map_mask16_len.
    repeat split. rewrite byte_val_of_Z. apply Z.mod_small. lia.
  - rewrite make_frame_too_long by lia. lia.
Qed.

(** X9: the frame [make_frame] builds from any integers decodes to these
    integers modulo 65536, sample by sample: a value outside the 16-bit
    range wraps around, a negative one as well. *)
Theorem make_frame_wraps_values (samples : list (Z * Z)) :
  len samples <= 63 ->
  exists frame rs,
    VirtualSender.make_frame samples = Some frame /\
    feed init frame = Some (rs, init) /\
    samples_of rs = map wrap16 samples.
Proof.
  intros Hlen. exists (wire_frame x01 (payload_of (map mask16 samples))).
  exists (entries_of (wire_frame x01 (payload_of (map mask16 samples)))
                     (map mask16 samples)).
  pose proof (make_frame_wire samples Hlen) as Hm.
  split; [exact Hm|]. split.
  - exact (feed_make_frame _ _ Hm).
  - rewrite samples_of_entries. apply map_mask16_wrap16.
Qed.

Lemma make_frame_wraps_values_example :
  len [(-1, 65543); (70000, 5)] <= 63 /\
  wrap16 (-1, 65543) = (65535, 7) /\
  exists frame rs,
    VirtualSender.make_frame [(-1, 65543); (70000, 5)] = Some frame /\
    feed init frame = Some (rs, init) /\
    samples_of rs = map wrap16 [(-1, 65543); (70000, 5)].
Proof.
  assert (H : len [(-1, 65543); (70000, 5)] <= 63) by (vm_compute; discriminate).
  exact (conj H (conj eq_refl (make_frame_wraps_values _ H))).
Defined.

(** X10: two lists of samples are given the same frame only when they
    agree modulo 65536, sample by sample; lists of 16-bit values with the
    same frame are equal. *)
Theorem make_frame_injective (s1 s2 : list (Z * Z)) (frame : bytes) :
  VirtualSender.make_frame s1 = Some frame ->
  VirtualSender.make_frame s2 = Some frame ->
  map wrap16 s1 = map wrap16 s2 /\
  (in_range s1 -> in_range s2 -> s1 = s2).
Proof.
  intros H1 H2.
  assert (E : map mask16 s1 = map mask16 s2).
  { apply feed_make_frame in H1, H2. rewrite H1 in H2.
    injection H2 as H2. apply (f_equal samples_of) in H2.
    now rewrite !samples_of_entries in H2. }
  split.
  - now rewrite <- !map_mask16_wrap16.
  - intros R1 R2. now rewrite <- (mask16_in_range s1 R1), <- (mask16_in_range s2 R2).
Qed.

Lemma make_frame_injective_example :
  VirtualSender.make_frame [(1, 2)] = Some frame_1_2 /\
  VirtualSender.make_frame [(65537, -65534)] = Some frame_1_2 /\
  map wrap16 [(1, 2)] = map wrap16 [(65537, -65534)] /\
  (in_range [(1, 2)] -> in_range [(65537, -65534)] -> [(1, 2)] = [(65537, -65534)]).
Proof.
  assert (H1 : VirtualSender.make_frame [(1, 2)] = Some frame_1_2)
    by (vm_compute; reflexivity).
  assert (H2 : VirtualSender.make_frame [(65537, -65534)] = Some frame_1_2)
    by (vm_compute; reflexivity).
  exact (conj H1 (conj H2 (make_frame_injective _ _ _ H1 H2))).
Defined.

(** ** The loop of the sender *)

Lemma py_range_app (a b c : Z) :
  a <= b <= c -> py_range a c = py_range a b ++ py_range b c.
Proof.
  remember (Z.to_nat (b - a)) as n eqn:Hn. revert a Hn.
  induction n as [|n IH]; intros a Hn H.
  - assert (b = a) as -> by lia. now rewrite (py_range_nil a a) by lia.
  - rewrite (py_range_cons a c), (py_range_cons a b) by lia.
    cbn [app]. f_equal. apply IH; lia.
Qed.

Lemma saw_sample_in_range (max_adc : Z) (l : list Z) :
  0 <= max_adc -> in_range (map (saw_sample max_adc) l).
Proof.
  intros Hm. unfold in_range. apply Forall_forall. intros s Hs.
  apply in_map_iff in Hs as (i & <- & _). unfold saw_sample. cbn [fst snd].
  pose proof (Z.mod_pos_bound i 65536 ltac:(lia)) as Hi.
  pose proof (Z.mod_pos_bound (i mod 65536) (max_adc + 1) ltac:(lia)) as Ha.
  pose proof (Z.mod_le (i mod 65536) (max_adc + 1) ltac:(lia) ltac:(lia)).
  lia.
Qed.

(** The loop over [range(samples_per_frame)]: the counter goes up by one
    modulo 65536 in each pass. *)
Lemma gen_samples_eq (max_adc : Z) (k : nat) :
  0 <= max_adc ->
  forall (i : Z) (acc : list (Z * Z)),
    VirtualSender.gen_samples max_adc k (i mod 65536) acc
    = Some ((i + Z.of_nat k) mod 65536,
            acc ++ map (saw_sample max_adc) (py_range (i + 1) (i + Z.of_nat k + 1))).
Proof.
  intros Hm. induction k as [|k IH]; intros i acc.
  - cbn [VirtualSender.gen_samples]. rewrite Z.add_0_r, py_range_nil by lia.
    now rewrite app_nil_r.
  - cbn [VirtualSender.gen_samples]. cbv zeta.
    destruct (max_adc + 1 =? 0) eqn:E; [lia|].
    rewrite land_FFFF_mod, Zplus_mod_idemp_l.
    rewrite IH, <- app_assoc. cbn [app].
    rewrite (py_range_cons (i + 1)) by lia. cbn [map].
    replace (i + 1 + Z.of_nat k) with (i + Z.of_nat (S k)) by lia.
    reflexivity.
Qed.

Lemma pass_samples_len (max_adc : Z) (n p : nat) :
  len (pass_samples max_adc n p) = Z.of_nat n.
Proof.
  unfold pass_samples, len. rewrite length_map, py_range_length. lia.
Qed.

Lemma samples_of_app (rs1 rs2 : list entry) :
  samples_of (rs1 ++ rs2) = samples_of rs1 ++ samples_of rs2.
Proof.
  induction rs1 as [|[sid adc fr|typ fr] rs1 IH]; cbn [samples_of app];
    [reflexivity| |]; now rewrite IH.
Qed.

Lemma pass_frames_fit (max_adc : Z) (n p0 passes : nat) :
  (n <= 63)%nat -> fit (pass_frames max_adc n p0 passes).
Proof.
  intros Hn. unfold fit, pass_frames. apply Forall_forall. intros f Hf.
  apply in_map_iff in Hf as (p & <- & _). cbn [snd].
  rewrite payload_of_len, pass_samples_len. lia.
Qed.

Lemma pass_frames_samples (max_adc : Z) (n passes : nat) :
  0 <= max_adc ->
  forall p0 : nat,
    samples_of (concat (map frame_entries (pass_frames max_adc n p0 passes)))
    = map (saw_sample max_adc)
          (py_range (Z.of_nat (p0 * n) + 1) (Z.of_nat ((p0 + passes) * n) + 1)).
Proof.
  intros Hm. induction passes as [|passes IH]; intros p0.
  - cbn. rewrite Nat.add_0_r, py_range_nil by lia. reflexivity.
  - unfold pass_frames. cbn [seq map concat]. fold (pass_frames max_adc n (S p0) passes).
    rewrite samples_of_app, IH.
    unfold frame_entries. cbn [fst snd]. change (byte_val x01 =? 1) with true. cbv iota.
    rewrite decode_payload_of by apply saw_sample_in_range, Hm.
    rewrite samples_of_entries. unfold pass_samples. rewrite <- map_app. f_equal.
    replace (Z.of_nat (p0 * n + n)) with (Z.of_nat (S p0 * n)) by lia.
    replace (S p0 + passes)%nat with (p0 + S passes)%nat by lia.
    symmetry. apply py_range_app. nia.
Qed.

End Sender.

(* ================================================================= *)
(** * Properties: the plot buffers *)

Section Buffers.

Import Main.

Lemma lastn_all {A} (n : nat) (l : list A) : (length l <= n)%nat -> lastn n l = l.
Proof.
  intros H. unfold lastn. replace (length l - n)%nat with 0%nat by lia. reflexivity.
Qed.

Lemma lastn_length {A} (n : nat) (l : list A) : length (lastn n l) = Nat.min (length l) n.
Proof. unfold lastn. rewrite length_skipn. lia. Qed.

(** Only the last [n] elements of the front part matter for the last [n]
    elements of the whole. *)
Lemma lastn_app_lastn {A} (n : nat) (l xs : list A) :
  lastn n (lastn n l ++ xs) = lastn n (l ++ xs).
Proof.
  destruct (Nat.le_gt_cases (length l) n) as [Hle|Hgt].
  - now rewrite (lastn_all n l Hle).
  - unfold lastn at 1 3. rewrite !length_app, lastn_length.
    replace (Nat.min (length l) n) with n by lia.
    replace (n + length xs - n)%nat with (length xs) by lia.
    replace (length l + length xs - n)%nat with ((length l - n) + length xs)%nat by lia.
    rewrite Nat.add_comm, <- skipn_skipn. f_equal.
    unfold lastn. rewrite skipn_app.
    replace (length l - n - length l)%nat with 0%nat by lia. reflexivity.
Qed.

Lemma deque_append_lastn {A} (n : nat) (d : list A) (x : A) :
  deque_append n d x = lastn n (d ++ [x]).
Proof. reflexivity. Qed.

(** A deque that has been filled by appending holds the most recent
    elements, as many as it can take. *)
Lemma deque_extend_lastn {A} (n : nat) (xs d : list A) :
  (length d <= n)%nat -> deque_extend n d xs = lastn n (d ++ xs).
Proof.
  revert d. induction xs as [|x xs IH]; intros d Hd.
  - cbn. rewrite app_nil_r. symmetry. now apply lastn_all.
  - unfold deque_extend. cbn [fold_left]. fold (deque_extend n (deque_append n d x) xs).
    rewrite IH.
    + rewrite deque_append_lastn, lastn_app_lastn, <- app_assoc. reflexivity.
    + rewrite deque_append_lastn, lastn_length. lia.
Qed.

Lemma map_opt_Forall2 {A B} (f : A -> option B) (l : list A) (l' : list B) :
  map_opt f l = Some l' -> Forall2 (fun x y => f x = Some y) l l'.
Proof.
  revert l'. induction l as [|x l IH]; intros l' H; cbn [map_opt] in H.
  - injection H as <-. constructor.
  - destruct (f x) as [y|] eqn:Ey; [|discriminate].
    destruct (map_opt f l) as [ys|]; [|discriminate].
    injection H as <-. constructor; [assumption|now apply IH].
Qed.

(** Whenever [on_bytes] computes its stamps, there is one for each byte,
    paired with the value of that byte. *)
Lemma stamps_values (self : t) (now : float) (b : bytes) (l : list (float * Z)) :
  stamps self now b = Some l -> map snd l = map byte_val b.
Proof.
  unfold stamps. destruct (sample_period self) as [dt|]; [|discriminate].
  destruct (float_of_int (len b - 1)) as [fn1|]; [|discriminate].
  intros H. apply map_opt_Forall2 in H.
  assert (Hlen : length (py_range 0 (len b)) = length b).
  { rewrite py_range_length. unfold len. lia. }
  rewrite <- (map_snd_combine (py_range 0 (len b)) b Hlen), map_map.
  induction H as [|[i byte] [ts adc] ps l0 Hp _ IH]; [reflexivity|].
  cbn [map snd]. f_equal; [|exact IH].
  destruct (float_of_int i); [|discriminate]. cbn in Hp. now injection Hp as _ <-.
Qed.

(** One call of [on_bytes]: the capacity stays, the two plot deques are
    extended by as many elements as there are bytes, the readings by the
    values of the bytes. *)
Lemma on_bytes_extends (self : t) (st st' : plots) (now : float) (b : bytes) :
  on_bytes self st now b = Some st' ->
  pts st' = pts st /\
  plot_y st' = deque_extend (pts st) (plot_y st) (map byte_val b) /\
  exists ts, length ts = length b /\
             plot_x st' = deque_extend (pts st) (plot_x st) ts /\
             sample_times st' = sample_times st ++ ts.
Proof.
  unfold on_bytes. destruct b as [|b0 b].
  - intros H. injection H as <-. repeat split. exists []. repeat split.
    now rewrite app_nil_r.
  - destruct (stamps self now (b0 :: b)) as [l|] eqn:Hl; [|discriminate].
    cbn [option_map]. intros H. injection H as <-.
    destruct (plots_fold l st) as (Hx & Hy & Ht).
    assert (Hp : forall (ps : list (float * Z)) (s : plots),
               pts (fold_left (fun st (p : float * Z) =>
                                 mk_plots (pts st)
                                          (deque_append (pts st) (plot_x st) (fst p))
                                          (deque_append (pts st) (plot_y st) (snd p))
                                          (sample_times st ++ [fst p])) ps s) = pts s).
    { induction ps as [|p ps IH]; intros s; [reflexivity|].
      cbn [fold_left]. now rewrite IH. }
    split; [apply Hp|]. split.
    + rewrite Hy. f_equal. exact (stamps_values _ _ _ _ Hl).
    + exists (map fst l). split; [|split; assumption].
      rewrite length_map, <- (length_map snd l), (stamps_values _ _ _ _ Hl).
      apply length_map.
Qed.

(** All calls of [on_bytes] since the buffers were made. *)
Lemma on_bytes_all_extends (self : t) (events : list (float * bytes)) :
  forall st st' : plots,
    on_bytes_all self st events = Some st' ->
    pts st' = pts st /\
    plot_y st' = deque_extend (pts st) (plot_y st)
                              (map byte_val (concat (map snd events))) /\
    exists ts, length ts = length (concat (map snd events)) /\
               plot_x st' = deque_extend (pts st) (plot_x st) ts /\
               sample_times st' = sample_times st ++ ts.
Proof.
  induction events as [|[now b] events IH]; intros st st' H.
  - cbn in H. injection H as <-. repeat split. exists []. repeat split.
    now rewrite app_nil_r.
  - cbn [on_bytes_all] in H.
    destruct (on_bytes self st now b) as [st1|] eqn:H1; [|discriminate].
    destruct (on_bytes_extends _ _ _ _ _ H1) as (Hp1 & Hy1 & ts1 & Hl1 & Hx1 & Ht1).
    destruct (IH _ _ H) as (Hp & Hy & ts & Hl & Hx & Ht).
    split; [congruence|]. split.
    + rewrite Hy, Hp1, Hy1. cbn [map concat snd]. rewrite map_app.
      unfold deque_extend. now rewrite fold_left_app.
    + exists (ts1 ++ ts). split; [|split].
      * cbn [map concat snd]. rewrite !length_app. congruence.
      * rewrite Hx, Hp1, Hx1. unfold deque_extend. now rewrite fold_left_app.
      * rewrite Ht, Ht1. now rewrite app_assoc.
Qed.

(** The capacity [_recreate_buffers] gives the plot deques. *)
Lemma recreate_buffers_capacity (self : t) (d : display) (st st0 : plots) :
  _recreate_buffers self d st = Some st0 ->
  1 <= Z.of_nat (pts st0) <= MAX_POINTS_LIMIT /\
  plot_x st0 = [] /\ plot_y st0 = [] /\ sample_times st0 = sample_times st.
Proof.
  unfold _recreate_buffers, MAX_POINTS_LIMIT.
  destruct (match time_window d with
            | Int w => Some (w * Z.max 1 (sampling_rate self))
            | Float w =>
                match float_of_int (Z.max 1 (sampling_rate self)) with
                | Some fm => py_int (w * fm)
                | None => None
                end
            end) as [p|]; [|discriminate].
  intros H. injection H as <-. cbn [pts plot_x plot_y sample_times].
  repeat split; destruct (p <=? 0) eqn:E1;
    try (destruct (1 >? 200000) eqn:E2); try (destruct (p >? 200000) eqn:E3); lia.
Qed.

(** X12: from the moment [_recreate_buffers] has made the plot buffers,
    whatever chunks [on_bytes] receives, the two buffers have the same
    length, never more than the capacity, which lies between 1 and
    200000; the readings kept are the values of the most recent bytes
    received, in order, and [sample_times] has grown by one stamp for
    each byte. *)
Theorem plot_buffers_hold_latest
        (self : t) (d : display) (st st0 st' : plots) (events : list (float * bytes)) :
  _recreate_buffers self d st = Some st0 ->
  on_bytes_all self st0 events = Some st' ->
  1 <= Z.of_nat (pts st') <= 200000 /\
  plot_y st' = lastn (pts st') (map byte_val (concat (map snd events))) /\
  length (plot_x st') = length (plot_y st') /\
  (length (plot_y st') <= pts st')%nat /\
  length (sample_times st')
  = (length (sample_times st) + length (concat (map snd events)))%nat.
Proof.
  intros H0 H.
  destruct (recreate_buffers_capacity _ _ _ _ H0) as (Hc & Hx0 & Hy0 & Ht0).
  destruct (on_bytes_all_extends _ _ _ _ H) as (Hp & Hy & ts & Hl & Hx & Ht).
  rewrite Hx0 in Hx. rewrite Hy0 in Hy. rewrite Ht0 in Ht.
  rewrite deque_extend_lastn in Hx by (cbn [length]; lia).
  rewrite deque_extend_lastn in Hy by (cbn [length]; lia).
  cbn [app] in Hx, Hy. rewrite Hp.
  split; [exact Hc|]. split; [exact Hy|].
  rewrite Hx, Hy, Ht, !lastn_length, length_map, length_app. lia.
Qed.

Lemma plot_buffers_hold_latest_example :
  _recreate_buffers (mk 1 0.45 0.45 5) (mk_display (Float 2.5) 8 0 1.05)
                    (mk_plots 7 [1%float] [9] [1%float])
  = Some (mk_plots 2 [] [] [1%float]) /\
  on_bytes_all (mk 1 0.45 0.45 5) (mk_plots 2 [] [] [1%float])
               [(10%float, [x01; x02]); (20%float, []); (30%float, [x03])]
  = Some (mk_plots 2 [10%float; 30%float] [2; 3]
                   [1%float; 9%float; 10%float; 30%float]) /\
  1 <= Z.of_nat (pts (mk_plots 2 [10%float; 30%float] [2; 3]
                               [1%float; 9%float; 10%float; 30%float])) <= 200000 /\
  plot_y (mk_plots 2 [10%float; 30%float] [2; 3] [1%float; 9%float; 10%float; 30%float])
  = lastn (pts (mk_plots 2 [10%float; 30%float] [2; 3]
                         [1%float; 9%float; 10%float; 30%float]))
          (map byte_val
               (concat (map snd [(10%float, [x01; x02]); (20%float, []);
                                 (30%float, [x03])]))) /\
  length (plot_x (mk_plots 2 [10%float; 30%float] [2; 3]
                           [1%float; 9%float; 10%float; 30%float]))
  = length (plot_y (mk_plots 2 [10%float; 30%float] [2; 3]
                             [1%float; 9%float; 10%float; 30%float])) /\
  (length (plot_y (mk_plots 2 [10%float; 30%float] [2%Z; 3%Z]
                            [1%float; 9%float; 10%float; 30%float]))
   <= pts (mk_plots 2 [10%float; 30%float] [2%Z; 3%Z]
                    [1%float; 9%float; 10%float; 30%float]))%nat /\
  length (sample_times (mk_plots 2 [10%float; 30%float] [2; 3]
                                 [1%float; 9%float; 10%float; 30%float]))
  = (length (sample_times (mk_plots 7 [1%float] [9%Z] [1%float]))
     + length (concat (map snd [(10%float, [x01; x02]); (20%float, []);
                                (30%float, [x03])])))%nat.
Proof.
  assert (H0 : _recreate_buffers (mk 1 0.45 0.45 5) (mk_display (Float 2.5) 8 0 1.05)
                                 (mk_plots 7 [1%float] [9] [1%float])
               = Some (mk_plots 2 [] [] [1%float])) by (vm_compute; reflexivity).
  assert (H : on_bytes_all (mk 1 0.45 0.45 5) (mk_plots 2 [] [] [1%float])
                           [(10%float, [x01; x02]); (20%float, []); (30%float, [x03])]
              = Some (mk_plots 2 [10%float; 30%float] [2; 3]
                               [1%float; 9%float; 10%float; 30%float]))
    by (vm_compute; reflexivity).
  exact (conj H0 (conj H (plot_buffers_hold_latest _ _ _ _ _ _ H0 H))).
Defined.

End Buffers.

(* ================================================================= *)
(** * Properties: the vertical scale and the conversion to volts *)

Section Display.

Import Main.

(** Rounding never makes a NaN of a positive mantissa. *)
Lemma binary_round_aux_not_nan (s : bool) (m : positive) (e : Z) :
  binary_round_aux prec emax s (Z.pos m) e loc_Exact <> S754_nan.
Proof.
  unfold binary_round_aux.
  pose proof (shr_fexp_narrow (Z.pos (digits2_pos m)) e (Z.pos m) e loc_Exact
                              ltac:(lia) ltac:(lia) ltac:(cbn [Zdigits2]; lia)
                              ltac:(lia)) as [H1 _].
  destruct (shr_fexp prec emax (Z.pos m) e loc_Exact) as [mrs1 e1].
  cbn [fst] in H1.
  pose proof (round_nearest_even_narrow _ mrs1 H1) as [H2 H2d].
  pose proof (shr_fexp_narrow (Z.pos (digits2_pos m) + 1) e1
                (round_nearest_even (shr_m mrs1) (loc_of_shr_record mrs1))
                e1 loc_Exact ltac:(lia) H2 H2d ltac:(lia)) as [[H3 _] _].
  destruct (shr_fexp prec emax _ e1 loc_Exact) as [mrs2 e2].
  cbn [fst] in H3.
  destruct (shr_m mrs2) as [|p|p]; [discriminate| |lia].
  destruct (e2 <=? emax - prec); discriminate.
Qed.

(** A float between two finite floats, the lower one positive, is finite
    and not zero. *)
Lemma between_finite (lo hi x : float) (ml mh : positive) (el eh : Z) (sh : bool) :
  Prim2SF lo = S754_finite false ml el ->
  Prim2SF hi = S754_finite sh mh eh ->
  between lo hi x = true ->
  exists s m e, Prim2SF x = S754_finite s m e.
Proof.
  intros Hlo Hhi. unfold between. rewrite !leb_spec, Hlo, Hhi. unfold SFleb.
  destruct (Prim2SF x) as [s|s| |s m e]; cbn [SFcompare].
  - discriminate.
  - destruct s; discriminate.
  - discriminate.
  - intros _. now exists s, m, e.
Qed.

(** The product of a finite float that is not zero and a float that is
    not NaN is not NaN. *)
Lemma mul_not_nan (x y : float) (s : bool) (m : positive) (e : Z) :
  Prim2SF x = S754_finite s m e -> is_nan y = false ->
  Prim2SF (x * y) <> S754_nan.
Proof.
  intros Hx Hy. apply is_nan_false in Hy. rewrite mul_spec, Hx. unfold SF64mul.
  destruct (Prim2SF y) as [sy|sy| |sy my ey]; cbn [SFmul]; try discriminate.
  - contradiction.
  - apply binary_round_aux_not_nan.
Qed.

(** X13: [_zoom_range] keeps the range factor between 0.4 and 4.0: from a
    factor within these bounds, a zoom by any number (not NaN) gives a
    factor within them again; the zoom buttons pass 1.12 and 1/1.12. *)
Theorem zoom_range_stays_within (d : display) (factor : float) :
  is_nan factor = false ->
  between 0.4 4.0 (v_range_factor d) = true ->
  between 0.4 4.0 (v_range_factor (_zoom_range d factor)) = true.
Proof.
  intros Hf Hv.
  destruct (between_finite 0.4 4.0 (v_range_factor d)
                           7205759403792794 4503599627370496 (-54) (-50) false
                           eq_refl eq_refl Hv) as (s & m & e & Hx).
  pose proof (mul_not_nan _ _ _ _ _ Hx Hf) as Hp.
  unfold _zoom_range. cbv zeta. cbn [v_range_factor].
  set (p := (v_range_factor d * factor)%float) in *.
  destruct (p <? 0.4)%float eqn:E1.
  - reflexivity.
  - destruct (4.0 <? p)%float eqn:E2.
    + reflexivity.
    + unfold between.
      rewrite (leb_negb_ltb 0.4 p), (leb_negb_ltb p 4.0), E1, E2;
        try assumption; try (cbn; discriminate).
      reflexivity.
Qed.

Lemma zoom_range_stays_within_example :
  is_nan 1.12 = false /\
  between 0.4 4.0 (v_range_factor init_display) = true /\
  between 0.4 4.0 (v_range_factor (_zoom_range init_display 1.12)) = true.
Proof.
  assert (Hf : is_nan 1.12 = false) by reflexivity.
  assert (Hv : between 0.4 4.0 (v_range_factor init_display) = true) by reflexivity.
  exact (conj Hf (conj Hv (zoom_range_stays_within init_display 1.12 Hf Hv))).
Defined.

(** ** Volts *)

Lemma digits_shift_52 (m : positive) :
  Z.pos (digits2_pos (4503599627370496 * m)) = Z.pos (digits2_pos m) + 52.
Proof.
  cbn [Pos.mul digits2_pos]. rewrite !Pos2Z.inj_succ. lia.
Qed.

(** Multiplying by 1.0 is exact. *)
Lemma mul_one_l (y : float) : (1 * y)%float = y.
Proof.
  apply Prim2SF_inj. rewrite mul_spec.
  change (Prim2SF 1) with (S754_finite false 4503599627370496 (-52)).
  pose proof (Prim2SF_valid y) as V. unfold SF64mul.
  destruct (Prim2SF y) as [s|s| |s m e]; cbn [SFmul xorb]; try reflexivity.
  cbn [SpecFloat.valid_binary] in V. unfold bounded, canonical_mantissa in V.
  apply andb_true_iff in V as [Vc Ve]. apply Z.eqb_eq in Vc. apply Z.leb_le in Ve.
  unfold binary_round_aux.
  assert (S1 : shr_fexp prec emax (Z.pos (4503599627370496 * m)) (-52 + e) loc_Exact
               = ({| shr_m := Z.pos m; shr_r := false; shr_s := false |}, e)).
  { unfold shr_fexp. cbn [Zdigits2]. rewrite digits_shift_52.
    replace (fexp prec emax (Z.pos (digits2_pos m) + 52 + (-52 + e)) - (-52 + e))
      with 52 by (unfold fexp in *; lia).
    unfold shr. cbn [Pos.mul]. cbv [SpecFloat.iter_pos shr_1 shr_record_of_loc shr_m shr_r shr_s orb].
    f_equal. lia. }
  rewrite S1. cbn [shr_m loc_of_shr_record round_nearest_even].
  assert (S2 : shr_fexp prec emax (Z.pos m) e loc_Exact
               = ({| shr_m := Z.pos m; shr_r := false; shr_s := false |}, e)).
  { unfold shr_fexp. cbn [Zdigits2].
    replace (fexp prec emax (Z.pos (digits2_pos m) + e) - e) with 0 by lia.
    reflexivity. }
  rewrite S2. cbn [shr_m].
  replace (e <=? emax - prec) with true by (symmetry; now apply Z.leb_le).
  reflexivity.
Qed.

(** The full-scale codes of 1 to 32 bits as floats. *)
Lemma full_scale_floats (n : nat) :
  (n < 32)%nat ->
  is_infinity (to_float (Z.shiftl 1 (Z.of_nat n + 1) - 1)) = false /\
  (to_float (Z.shiftl 1 (Z.of_nat n + 1) - 1)
   / to_float (Z.shiftl 1 (Z.of_nat n + 1) - 1))%float = 1%float /\
  (0 / to_float (Z.shiftl 1 (Z.of_nat n + 1) - 1))%float = 0%float.
Proof.
  intros Hn.
  do 32 (destruct n as [|n]; [vm_compute; repeat split; reflexivity|]).
  lia.
Qed.

Lemma mul_zero_l (y : float) :
  is_finite y = true -> is_zero (0 * y) = true.
Proof.
  intros Hy. apply is_finite_spec in Hy as [s [Hz|(m & e & Hf)]];
    unfold is_zero; rewrite eqb_spec, mul_spec;
    change (Prim2SF 0) with (S754_zero false);
    [rewrite Hz|rewrite Hf]; unfold SF64mul; cbn [SFmul]; reflexivity.
Qed.

(** X14: with 1 to 32 bits configured, [_adc_to_voltage] maps the
    full-scale code [2^bits - 1] to the reference voltage exactly, and
    the code 0 to zero volts when the reference voltage is finite. *)
Theorem adc_to_voltage_endpoints (self : t) (d : display) :
  1 <= adc_bits d <= 32 ->
  _adc_to_voltage self d (2 ^ adc_bits d - 1) = Some (vref self) /\
  (is_finite (vref self) = true ->
   exists v, _adc_to_voltage self d 0 = Some v /\ is_zero v = true).
Proof.
  intros Hb.
  destruct (full_scale_floats (Z.to_nat (adc_bits d - 1)) ltac:(lia)) as (Hi & H1 & H0).
  replace (Z.of_nat (Z.to_nat (adc_bits d - 1)) + 1) with (adc_bits d) in * by lia.
  assert (Hpow : 2 ^ adc_bits d = Z.shiftl 1 (adc_bits d)).
  { rewrite Z.shiftl_mul_pow2 by lia. lia. }
  assert (Hpos : 2 <= 2 ^ adc_bits d).
  { change 2 with (2 ^ 1) at 1. apply Z.pow_le_mono_r; lia. }
  unfold _adc_to_voltage.
  replace (adc_bits d <? 0) with false by (symmetry; apply Z.ltb_ge; lia).
  rewrite <- Hpow in *.
  replace (2 ^ adc_bits d - 1 <=? 0) with false by (symmetry; apply Z.leb_gt; lia).
  unfold float_of_int. cbv zeta. rewrite Hi.
  split.
  - rewrite H1. now rewrite mul_one_l.
  - intros Hv. change (is_infinity (to_float 0)) with false. cbv iota.
    change (to_float 0) with 0%float. rewrite H0.
    eexists. split; [reflexivity|]. now apply mul_zero_l.
Qed.

Lemma adc_to_voltage_endpoints_example :
  1 <= adc_bits init_display <= 32 /\
  _adc_to_voltage init (mk_display (Int 5) 8 0 1.05) 255 = Some 5%float /\
  _adc_to_voltage init init_display (2 ^ adc_bits init_display - 1) = Some (vref init) /\
  (is_finite (vref init) = true ->
   exists v, _adc_to_voltage init init_display 0 = Some v /\ is_zero v = true).
Proof.
  assert (Hb : 1 <= adc_bits init_display <= 32) by (cbn; lia).
  exact (conj Hb (conj eq_refl (adc_to_voltage_endpoints init init_display Hb))).
Defined.

End Display.

(* ================================================================= *)
(** * Properties: the rate that is shown and the number of peaks *)

Section Band.

Import Main.

(** A finite float that is not zero and whose exponent is above the
    smallest one has a mantissa of 53 bits. *)
Lemma normal_mantissa (s : bool) (m : positive) (e : Z) :
  valid_binary (S754_finite s m e) = true -> -1074 < e ->
  2 ^ 52 <= Z.pos m < 2 ^ 53.
Proof.
  intros V He. cbn [SpecFloat.valid_binary] in V.
  unfold bounded, canonical_mantissa in V.
  apply andb_true_iff in V as [V _]. apply Z.eqb_eq in V.
  assert (D : Z.pos (digits2_pos m) = 53).
  { unfold fexp, emin, prec, emax in V. lia. }
  pose proof (digits_lt_pow m) as H1. pose proof (pow_digits_le m) as H2.
  rewrite D in H1, H2. change (2 ^ 53) with (2 * 2 ^ 52) in H2. lia.
Qed.

Ltac round_case Hr :=
  cbv zeta in Hr;
  match type of Hr with
  | context [2 ^ ?k] =>
      let d := eval vm_compute in (2 ^ k) in change (2 ^ k) with d in Hr
  end;
  match type of Hr with
  | context [Z.pos ?m / ?d] =>
      let Hdm := fresh "Hdm" in
      let Hmb := fresh "Hmb" in
      pose proof (Z.div_mod (Z.pos m) d ltac:(lia)) as Hdm;
      pose proof (Z.mod_pos_bound (Z.pos m) d ltac:(lia)) as Hmb;
      repeat match type of Hr with
             | context [if ?c then _ else _] => destruct c eqn:?
             end;
      injection Hr as <-;
      repeat match goal with
             | H : (_ <? _) = true |- _ => apply Z.ltb_lt in H
             | H : (_ <? _) = false |- _ => apply Z.ltb_ge in H
             end;
      lia
  end.

(** The order of two positive finite floats, on their fields. *)
Lemma SFleb_finite_pos (m1 m2 : positive) (e1 e2 : Z) :
  SFleb (S754_finite false m1 e1) (S754_finite false m2 e2) = true ->
  e1 < e2 \/ (e1 = e2 /\ Z.pos m1 <= Z.pos m2).
Proof.
  unfold SFleb. cbn [SFcompare].
  destruct (Z.compare_spec e1 e2) as [E|E|E]; intros H.
  - right. split; [exact E|]. apply Pos2Z.pos_le_pos.
    unfold Pos.le, Pos.compare. intros G. rewrite G in H. discriminate.
  - left. exact E.
  - discriminate.
Qed.

(** The integer nearest to a float between 30 and 220 lies between 30
    and 220. *)
Lemma py_round_band (b : float) (r : Z) :
  (30 <=? b)%float && (b <=? 220)%float = true ->
  py_round b = Some r -> 30 <= r <= 220.
Proof.
  intros Hb Hr. apply andb_true_iff in Hb as [H30 H220].
  rewrite leb_spec in H30, H220.
  change (Prim2SF 30) with (S754_finite false 8444249301319680 (-48)) in H30.
  change (Prim2SF 220) with (S754_finite false 7740561859543040 (-45)) in H220.
  pose proof (Prim2SF_valid b) as V. unfold py_round in Hr.
  destruct (Prim2SF b) as [s|s| |s m e]; try discriminate Hr.
  { unfold SFleb in H30. cbn [SFcompare] in H30. discriminate H30. }
  destruct s.
  { unfold SFleb in H30. cbn [SFcompare] in H30. discriminate H30. }
  apply SFleb_finite_pos in H30, H220.
  pose proof (normal_mantissa false m e V ltac:(clear Hr; lia)) as Hm.
  change (2 ^ 52) with 4503599627370496 in Hm.
  change (2 ^ 53) with 9007199254740992 in Hm.
  clear V.
  assert (Hc : e = -48 \/ e = -47 \/ e = -46 \/ e = -45) by (clear Hr; lia).
  destruct Hc as [-> | [-> | [-> | ->]]];
    change (0 <=? _) with false in Hr; cbv iota in Hr; round_case Hr.
Qed.

Lemma bpm_of_peaks_band (rel_xs : list float) (peaks : list Z) (r : Z) :
  bpm_of_peaks rel_xs peaks = Some (Some r) -> 30 <= r <= 220.
Proof.
  destruct (Z_lt_le_dec (len peaks) 2) as [Hfew|Hmany].
  { rewrite bpm_of_few_peaks by assumption. discriminate. }
  destruct (map_opt (getitem rel_xs) peaks) as [pt|] eqn:E.
  - rewrite (bpm_of_peak_times _ _ _ Hmany E). unfold rate_of_peak_times.
    destruct (mean (deltas pt)) as [avg|]; [|discriminate].
    destruct (mean (filter (within_half avg) (deltas pt))) as [period|]; [|discriminate].
    cbv zeta.
    destruct ((30 <=? 60 / period)%float && (60 / period <=? 220)%float) eqn:Hb;
      [|discriminate].
    destruct (py_round (60 / period)) as [r0|] eqn:Hr; [|discriminate].
    cbn [option_map]. intros H. injection H as <-.
    exact (py_round_band _ _ Hb Hr).
  - unfold bpm_of_peaks. rewrite E. destruct (len peaks <? 2); discriminate.
Qed.

(** X15: a rate [_estimate_bpm_from_wave] returns is an integer from 30
    to 220: the rounding of a rate inside the band never leaves it. *)
Theorem reported_rate_in_band (self : t) (voltages rel_xs : list float) (bpm : Z) :
  _estimate_bpm_from_wave self voltages rel_xs = Some (Some bpm) ->
  30 <= bpm <= 220.
Proof.
  unfold _estimate_bpm_from_wave. cbv zeta.
  destruct ((sampling_rate self <=? 0) || (len voltages <? 3)); [discriminate|].
  destruct (detect_r_peaks self voltages (sampling_rate self)) as [peaks|];
    [|discriminate].
  apply bpm_of_peaks_band.
Qed.

Lemma reported_rate_in_band_example :
  _estimate_bpm_from_wave init (spike_train 600 100 50) (times_120 600) = Some (Some 72) /\
  30 <= 72 <= 220.
Proof.
  assert (H : _estimate_bpm_from_wave init (spike_train 600 100 50) (times_120 600)
              = Some (Some 72)) by (vm_compute; reflexivity).
  exact (conj H (reported_rate_in_band _ _ _ _ H)).
Defined.

(** ** The number of peaks *)

Lemma spaced_count (d hi : Z) (rest : list Z) :
  forall x : Z,
    x <= hi -> spaced d x rest -> Forall (fun i => i <= hi) rest ->
    len rest * d <= hi - x.
Proof.
  induction rest as [|y rest IH]; intros x Hx Hs Hall.
  - cbn. lia.
  - cbn [spaced] in Hs. destruct Hs as [Hd Hs]. inversion Hall as [|? ? Hy Hrest]; subst.
    specialize (IH y Hy Hs Hrest).
    replace (len (y :: rest)) with (len rest + 1) by (unfold len; cbn [length]; lia).
    lia.
Qed.

(** The indices [detect_r_peaks] returns lie inside the window, away from
    its two ends. *)
Lemma detect_r_peaks_inside (self : t) (raw_data : list float) (fs : Z) (peaks : list Z) :
  detect_r_peaks self raw_data fs = Some peaks ->
  Forall (fun i => 1 <= i <= len raw_data - 2) peaks.
Proof.
  rewrite detect_r_peaks_eq.
  destruct (len raw_data <? 3); [intros H; injection H as <-; constructor|].
  destruct (min_interval_points self fs) as [mip|]; [|discriminate].
  destruct (statistics raw_data) as [[[vmin vmax] vmean]|]; [|discriminate].
  destruct (vmax - vmin <=? 1e-9)%float; intros H; injection H as <-; [constructor|].
  apply Forall_forall. intros i Hi. apply accepted_In in Hi as [Hi _].
  apply py_range_In in Hi. lia.
Qed.

Lemma detect_r_peaks_count (self : t) (raw_data : list float) (fs : Z)
      (peaks : list Z) (mip : Z) :
  detect_r_peaks self raw_data fs = Some peaks ->
  min_interval_points self fs = Some mip ->
  3 <= len raw_data ->
  (len peaks - 1) * mip <= len raw_data - 3.
Proof.
  intros Hd Hm Hn. pose proof (detect_r_peaks_inside _ _ _ _ Hd) as Hin.
  pose proof (min_interval_points_pos _ _ _ Hm) as Hpos.
  rewrite detect_r_peaks_eq, Hm in Hd.
  assert (Hnil : (len (@nil Z) - 1) * mip <= len raw_data - 3).
  { unfold len at 1. cbn [length]. lia. }
  destruct (len raw_data <? 3); [injection Hd as <-; exact Hnil|].
  destruct (statistics raw_data) as [[[vmin vmax] vmean]|]; [|discriminate].
  destruct (vmax - vmin <=? 1e-9)%float; injection Hd as Hd; [subst; exact Hnil|].
  pose proof (accepted_spaced (passes raw_data (threshold self vmin vmax vmean))
                              mip (- mip * 2) (py_range 1 (len raw_data - 1))) as Hs.
  rewrite Hd in Hs.
  destruct peaks as [|x rest]; [exact Hnil|].
  cbn [spaced] in Hs. destruct Hs as [_ Hs].
  inversion Hin as [|? ? Hx Hrest]; subst.
  assert (Hc : len rest * mip <= (len raw_data - 2) - x).
  { apply spaced_count; [lia|assumption|].
    eapply Forall_impl; [|exact Hrest]. cbv beta. intros; lia. }
  replace (len (x :: rest) - 1) with (len rest) by (unfold len; cbn [length]; lia).
  lia.
Qed.

(** X16: in a window of [n >= 3] samples [detect_r_peaks] returns at most
    [1 + (n - 3) / d] peaks, [d] being the least distance in samples it
    keeps between two peaks. *)
Theorem peak_count_bound (self : t) (raw_data : list float) (fs : Z)
        (peaks : list Z) (mip : Z) :
  detect_r_peaks self raw_data fs = Some peaks ->
  min_interval_points self fs = Some mip ->
  3 <= len raw_data ->
  (len peaks - 1) * mip <= len raw_data - 3 /\
  len peaks <= 1 + (len raw_data - 3) / mip.
Proof.
  intros Hd Hm Hn.
  pose proof (detect_r_peaks_count _ _ _ _ _ Hd Hm Hn) as Hc.
  pose proof (min_interval_points_pos _ _ _ Hm) as Hpos.
  split; [exact Hc|].
  assert (len peaks - 1 <= (len raw_data - 3) / mip); [|lia].
  apply Z.div_le_lower_bound; lia.
Qed.

Lemma peak_count_bound_example :
  detect_r_peaks init [0; 1; 0; 1; 0]%float 2 = Some [1; 3] /\
  min_interval_points init 2 = Some 1 /\
  3 <= len [0; 1; 0; 1; 0]%float /\
  (len [1; 3] - 1) * 1 <= len [0; 1; 0; 1; 0]%float - 3 /\
  len [1; 3] <= 1 + (len [0; 1; 0; 1; 0]%float - 3) / 1.
Proof.
  assert (Hd : detect_r_peaks init [0; 1; 0; 1; 0]%float 2 = Some [1; 3])
    by (vm_compute; reflexivity).
  assert (Hm : min_interval_points init 2 = Some 1) by (vm_compute; reflexivity).
  assert (Hn : 3 <= len [0; 1; 0; 1; 0]%float) by (vm_compute; discriminate).
  exact (conj Hd (conj Hm (conj Hn (peak_count_bound _ _ _ _ _ Hd Hm Hn)))).
Defined.

End Band.

(* ================================================================= *)
(** * Properties: the window that is drawn and its markers *)

Section Timer.

Import Main.

(** The loop of [on_timer] over the buffers appends to [abs_xs] and to
    [ys] together. *)
Lemma window_samples_length (self : t) (d : display) (start_ts : float)
      (pairs : list (float * Z)) (xs vs : list float) :
  window_samples self d start_ts pairs = Some (xs, vs) ->
  length xs = length vs /\ (length vs <= length pairs)%nat.
Proof.
  revert xs vs. induction pairs as [|[ts adc] pairs IH]; intros xs vs H;
    cbn [window_samples] in H.
  - injection H as <- <-. split; [reflexivity|cbn; lia].
  - destruct (start_ts <=? ts)%float.
    + destruct (_adc_to_voltage self d adc) as [v|]; [|discriminate].
      destruct (window_samples self d start_ts pairs) as [[xs0 vs0]|]; [|discriminate].
      cbn in H. injection H as <- <-.
      destruct (IH _ _ eq_refl) as [H1 H2]. cbn [length]. lia.
    + destruct (IH _ _ H) as [H1 H2]. cbn [length]. lia.
Qed.

Lemma window_lengths (self : t) (d : display) (st : plots) (rel_xs ys : list float) :
  window self d st = Some (Some (rel_xs, ys)) ->
  length rel_xs = length ys /\ ys <> [] /\ (length ys <= length (plot_x st))%nat.
Proof.
  unfold window. destruct (plot_x st) as [|x0 xs0] eqn:Ex; [discriminate|].
  destruct (getitem (x0 :: xs0) (-1)) as [latest|]; [|discriminate].
  destruct (match time_window d with
            | Int w => float_of_int w
            | Float w => Some w
            end) as [w|]; [|discriminate].
  cbv zeta.
  destruct (window_samples self d (latest - w) (combine (x0 :: xs0) (plot_y st)))
    as [[abs_xs vs]|] eqn:Ew; [|discriminate].
  destruct abs_xs as [|a abs_xs]; [discriminate|].
  intros H. injection H as <- <-.
  destruct (window_samples_length _ _ _ _ _ _ Ew) as [H1 H2].
  cbn [length] in *. rewrite length_map. split; [exact H1|]. split.
  - intros ->. cbn in H1. discriminate.
  - rewrite length_combine in H2. cbn [length] in H2. lia.
Qed.

(** ** Looking up the peaks *)

Lemma getitem_inside {A} (l : list A) (i : Z) :
  0 <= i < len l ->
  exists x, getitem l i = Some x /\ nth_error l (Z.to_nat i) = Some x.
Proof.
  intros Hi. unfold getitem.
  replace (i <? 0) with false by (symmetry; apply Z.ltb_ge; lia).
  cbv zeta. replace (i <? 0) with false by (symmetry; apply Z.ltb_ge; lia).
  destruct (nth_error l (Z.to_nat i)) as [x|] eqn:E; [now exists x|].
  apply nth_error_None in E. unfold len in Hi. lia.
Qed.

Lemma map_getitem_inside {A} (l : list A) (idx : list Z) :
  Forall (fun i => 0 <= i < len l) idx ->
  exists xs, map_opt (getitem l) idx = Some xs /\
             Forall2 (fun i x => nth_error l (Z.to_nat i) = Some x) idx xs.
Proof.
  induction 1 as [|i idx Hi _ (xs & Hxs & Hall)].
  - exists []. split; [reflexivity|constructor].
  - destruct (getitem_inside l i Hi) as (x & Hx & Hn).
    exists (x :: xs). split.
    + cbn [map_opt]. now rewrite Hx, Hxs.
    + now constructor.
Qed.

(** ** Nothing in the analysis raises *)

Lemma deltas_length (ts : list float) : (length (deltas ts) <= length ts)%nat.
Proof.
  induction ts as [|a [|b ts] IH]; cbn [deltas length] in *; lia.
Qed.

Lemma mean_defined (xs : list float) :
  float_of_int (len xs) <> None -> exists m, mean xs = Some m.
Proof.
  unfold mean. destruct (float_of_int (len xs)) as [f|]; [|contradiction].
  intros _. eexists. reflexivity.
Qed.

Lemma py_round_defined (b : float) :
  (30 <=? b)%float && (b <=? 220)%float = true -> exists r, py_round b = Some r.
Proof.
  intros Hb.
  destruct (between_finite 30 220 b 8444249301319680 7740561859543040 (-48) (-45) false
                           eq_refl eq_refl Hb) as (s & m & e & Hx).
  unfold py_round. rewrite Hx. eexists. reflexivity.
Qed.

Lemma rate_of_peak_times_defined (peak_times : list float) :
  (forall z, 0 <= z <= len peak_times -> float_of_int z <> None) ->
  exists r, rate_of_peak_times peak_times = Some r.
Proof.
  intros Hc. unfold rate_of_peak_times.
  pose proof (deltas_length peak_times) as Hd.
  destruct (mean_defined (deltas peak_times)) as [avg ->].
  { apply Hc. unfold len. lia. }
  pose proof (filter_length_le (within_half avg) (deltas peak_times)) as Hf.
  destruct (mean_defined (filter (within_half avg) (deltas peak_times))) as [period ->].
  { apply Hc. unfold len. lia. }
  cbv zeta.
  destruct ((30 <=? 60 / period)%float && (60 / period <=? 220)%float) eqn:Hb.
  - destruct (py_round_defined _ Hb) as [r ->]. eexists. reflexivity.
  - eexists. reflexivity.
Qed.

Lemma bpm_of_peaks_defined (rel_xs : list float) (peaks : list Z) :
  Forall (fun i => 0 <= i < len rel_xs) peaks ->
  (forall z, 0 <= z <= len peaks -> float_of_int z <> None) ->
  exists r, bpm_of_peaks rel_xs peaks = Some r.
Proof.
  intros Hin Hc.
  destruct (Z_lt_le_dec (len peaks) 2) as [Hfew|Hmany].
  { rewrite bpm_of_few_peaks by assumption. now eexists. }
  destruct (map_getitem_inside rel_xs peaks Hin) as (pt & Hpt & _).
  rewrite (bpm_of_peak_times _ _ _ Hmany Hpt).
  apply rate_of_peak_times_defined.
  apply map_opt_length in Hpt. unfold len in *. rewrite Hpt. exact Hc.
Qed.

Lemma average_interval_defined (rel_xs : list float) (peaks : list Z) :
  Forall (fun i => 0 <= i < len rel_xs) peaks ->
  (forall z, 0 <= z <= len peaks -> float_of_int z <> None) ->
  exists r, average_interval rel_xs peaks = Some r.
Proof.
  intros Hin Hc. unfold average_interval.
  destruct (len peaks <? 2) eqn:E; [now eexists|]. apply Z.ltb_ge in E.
  destruct (map_getitem_inside rel_xs peaks Hin) as (pt & Hpt & _).
  rewrite Hpt. apply map_opt_length in Hpt.
  destruct pt as [|t0 pt].
  { unfold len in E. rewrite <- Hpt in E. cbn [length] in E. lia. }
  pose proof (intervals_deltas [] t0 pt) as Hi.
  cbn [app] in Hi. change (len [] + 1) with 1 in Hi. rewrite Hi. clear Hi.
  destruct (deltas (t0 :: pt)) as [|d0 ds] eqn:Ed; [now eexists|].
  destruct (float_of_int (len (d0 :: ds))) as [fl|] eqn:Ef; [now eexists|].
  exfalso. apply (Hc (len (d0 :: ds))); [|exact Ef].
  pose proof (deltas_length (t0 :: pt)) as Hd. rewrite Ed in Hd.
  unfold len. lia.
Qed.

Lemma detect_r_peaks_len (self : t) (raw_data : list float) (fs : Z) (peaks : list Z) :
  detect_r_peaks self raw_data fs = Some peaks -> len peaks <= len raw_data.
Proof.
  intros Hd. pose proof (len_nonneg raw_data) as Hn0.
  destruct (Z_lt_le_dec (len raw_data) 3) as [Hs|Hn].
  - rewrite detect_r_peaks_eq in Hd.
    replace (len raw_data <? 3) with true in Hd by (symmetry; apply Z.ltb_lt; lia).
    injection Hd as <-. exact Hn0.
  - destruct (min_interval_points self fs) as [mip|] eqn:Hm.
    + pose proof (detect_r_peaks_count _ _ _ _ _ Hd Hm Hn) as Hc.
      pose proof (min_interval_points_pos _ _ _ Hm) as Hp.
      pose proof (len_nonneg peaks). nia.
    + rewrite detect_r_peaks_eq, Hm in Hd.
      destruct (len raw_data <? 3); [|discriminate].
      injection Hd as <-. exact Hn0.
Qed.

(** X17: the window [on_timer] extracts from the plot buffers has as many
    times as voltages and is not empty; and when the least distance of
    [detect_r_peaks] can be computed for the rate configured and no
    conversion of a count up to the length of the window to a float
    overflows, the block of [on_timer] on the beats returns: no lookup of
    a peak leaves the window ([IndexError]), there are as many marker
    times as marker voltages, and every marker is a point of the curve. *)
Theorem beats_are_on_the_curve
        (self : t) (d : display) (st : plots) (rel_xs ys : list float) :
  window self d st = Some (Some (rel_xs, ys)) ->
  min_interval_points self (sampling_rate self) <> None ->
  (forall z, 0 <= z <= len ys -> float_of_int z <> None) ->
  length rel_xs = length ys /\ ys <> [] /\
  exists bpm period r_peak_x r_peak_y,
    beats self rel_xs ys = Some (bpm, period, r_peak_x, r_peak_y) /\
    length r_peak_x = length r_peak_y /\
    Forall (fun p => In p (combine rel_xs ys)) (combine r_peak_x r_peak_y).
Proof.
  intros Hw Hmip Hc.
  destruct (window_lengths _ _ _ _ _ Hw) as (Hlen & Hne & _).
  split; [exact Hlen|]. split; [exact Hne|].
  assert (Hlen' : len rel_xs = len ys) by (unfold len; now rewrite Hlen).
  (* [detect_r_peaks] returns *)
  destruct (detect_r_peaks self ys (sampling_rate self)) as [peaks|] eqn:Hd.
  2:{ exfalso. rewrite detect_r_peaks_eq in Hd.
      destruct (len ys <? 3) eqn:E3; [discriminate|]. apply Z.ltb_ge in E3.
      destruct (min_interval_points self (sampling_rate self)); [|contradiction].
      destruct (statistics ys) as [[[vmin vmax] vmean]|] eqn:Es.
      - destruct (vmax - vmin <=? 1e-9)%float; discriminate.
      - apply statistics_None in Es; [|assumption].
        apply (Hc (len ys)); [lia|exact Es]. }
  pose proof (detect_r_peaks_inside _ _ _ _ Hd) as Hin.
  pose proof (detect_r_peaks_len _ _ _ _ Hd) as Hpl.
  assert (Hcp : forall z, 0 <= z <= len peaks -> float_of_int z <> None)
    by (intros z Hz; apply Hc; lia).
  assert (Hinx : Forall (fun i => 0 <= i < len rel_xs) peaks).
  { eapply Forall_impl; [|exact Hin]. cbv beta. intros; lia. }
  assert (Hiny : Forall (fun i => 0 <= i < len ys) peaks).
  { eapply Forall_impl; [|exact Hin]. cbv beta. intros; lia. }
  destruct (bpm_of_peaks_defined rel_xs peaks Hinx Hcp) as [bpm0 Hb].
  destruct (average_interval_defined rel_xs peaks Hinx Hcp) as [period Hp].
  destruct (map_getitem_inside rel_xs peaks Hinx) as (px & Hpx & Hfx).
  destruct (map_getitem_inside ys peaks Hiny) as (py & Hpy & Hfy).
  assert (He : exists bpm, _estimate_bpm_from_wave self ys rel_xs = Some bpm).
  { unfold _estimate_bpm_from_wave. cbv zeta.
    destruct ((sampling_rate self <=? 0) || (len ys <? 3)); [now eexists|].
    rewrite Hd. now exists bpm0. }
  destruct He as [bpm He].
  unfold beats. rewrite He, Hd, Hp.
  destruct peaks as [|p0 peaks'].
  - exists bpm, period, [], []. repeat split. constructor.
  - rewrite Hpx, Hpy. exists bpm, period, px, py. split; [reflexivity|].
    apply map_opt_length in Hpx as Lx. apply map_opt_length in Hpy as Ly.
    split; [congruence|].
    clear -Hfx Hfy. revert py Hfy.
    induction Hfx as [|i x idx xs Hx _ IH]; intros py Hfy;
      inversion Hfy as [|? y ? ys' Hy Hrest]; subst; cbn [combine]; constructor.
    + clear -Hx Hy. revert Hx Hy. generalize (Z.to_nat i) as k. revert ys.
      induction rel_xs as [|a l IHl]; intros ys k Hx Hy.
      * destruct k; discriminate.
      * destruct ys as [|b ys]; [destruct k; discriminate|].
        destruct k as [|k]; cbn [nth_error combine] in *.
        -- injection Hx as <-. injection Hy as <-. now left.
        -- right. exact (IHl ys k Hx Hy).
    + now apply IH.
Qed.

Lemma beats_are_on_the_curve_example :
  window (mk 2 0.45 0.45 5) init_display
         (mk_plots 10 [0; 0.5; 1; 1.5; 2]%float [0; 255; 0; 255; 0] [])
  = Some (Some ([3; 3.5; 4; 4.5; 5]%float, [0; 5; 0; 5; 0]%float)) /\
  beats (mk 2 0.45 0.45 5) [3; 3.5; 4; 4.5; 5]%float [0; 5; 0; 5; 0]%float
  = Some (Some 60, Some 1%float, [3.5; 4.5]%float, [5; 5]%float) /\
  length [3; 3.5; 4; 4.5; 5]%float = length [0; 5; 0; 5; 0]%float /\
  [0; 5; 0; 5; 0]%float <> [] /\
  exists bpm period r_peak_x r_peak_y,
    beats (mk 2 0.45 0.45 5) [3; 3.5; 4; 4.5; 5]%float [0; 5; 0; 5; 0]%float
    = Some (bpm, period, r_peak_x, r_peak_y) /\
    length r_peak_x = length r_peak_y /\
    Forall (fun p => In p (combine [3; 3.5; 4; 4.5; 5]%float [0; 5; 0; 5; 0]%float))
           (combine r_peak_x r_peak_y).
Proof.
  assert (Hw : window (mk 2 0.45 0.45 5) init_display
                      (mk_plots 10 [0; 0.5; 1; 1.5; 2]%float [0; 255; 0; 255; 0] [])
               = Some (Some ([3; 3.5; 4; 4.5; 5]%float, [0; 5; 0; 5; 0]%float)))
    by (vm_compute; reflexivity).
  assert (Hb : beats (mk 2 0.45 0.45 5) [3; 3.5; 4; 4.5; 5]%float [0; 5; 0; 5; 0]%float
               = Some (Some 60, Some 1%float, [3.5; 4.5]%float, [5; 5]%float))
    by (vm_compute; reflexivity).
  refine (conj Hw (conj Hb (beats_are_on_the_curve _ _ _ _ _ Hw _ _))).
  - vm_compute. discriminate.
  - intros z Hz. rewrite small_ints_convert; [discriminate|].
    unfold len in Hz. cbn [length] in Hz. lia.
Defined.

End Timer.

(* ================================================================= *)
(** * Properties: rounding in binary64 arithmetic *)

Section Rounding.

(** ** Right shifts *)

Lemma shr_1_m (r : shr_record) : 0 <= shr_m r -> shr_m (shr_1 r) = shr_m r / 2.
Proof.
  destruct r as [[|[p|p|]|p] rb sb]; cbn [shr_1 shr_m]; intros H; try lia.
  - reflexivity.
  - apply (Z.div_unique _ 2 _ 1); lia.
  - apply (Z.div_unique _ 2 _ 0); lia.
  - reflexivity.
Qed.

Lemma shr_iter_m (p : positive) :
  forall r, 0 <= shr_m r ->
            shr_m (SpecFloat.iter_pos shr_1 p r) = shr_m r / 2 ^ Z.pos p.
Proof.
  induction p as [p IH|p IH|]; intros r Hr; cbn [SpecFloat.iter_pos].
  - assert (H1 : 0 <= shr_m (shr_1 r)) by (rewrite shr_1_m by assumption; apply Z.div_pos; lia).
    assert (H2 : 0 <= shr_m (SpecFloat.iter_pos shr_1 p (shr_1 r)))
      by (rewrite IH by assumption; apply Z.div_pos; lia).
    rewrite IH, IH, shr_1_m by assumption.
    rewrite !Z.div_div by lia. f_equal.
    change 2 with (2 ^ 1) at 1. rewrite <- !Z.pow_add_r by lia. f_equal. lia.
  - assert (H2 : 0 <= shr_m (SpecFloat.iter_pos shr_1 p r))
      by (rewrite IH by assumption; apply Z.div_pos; lia).
    rewrite IH, IH by assumption.
    rewrite !Z.div_div by lia. f_equal.
    rewrite <- !Z.pow_add_r by lia. f_equal. lia.
  - now apply shr_1_m.
Qed.

(** The first step of a rounding, on an exact mantissa: a right shift by
    [n] places when [n] is positive, nothing otherwise. *)
Lemma shr_fexp_m (m e : Z) :
  0 <= m ->
  let n := fexp prec emax (Zdigits2 m + e) - e in
  snd (shr_fexp prec emax m e loc_Exact) = e + Z.max 0 n /\
  shr_m (fst (shr_fexp prec emax m e loc_Exact)) = m / 2 ^ Z.max 0 n /\
  (n <= 0 -> loc_of_shr_record (fst (shr_fexp prec emax m e loc_Exact)) = loc_Exact).
Proof.
  intros Hm n. unfold shr_fexp, shr. fold n.
  destruct n as [|p|p] eqn:E; cbn [fst snd shr_record_of_loc shr_m loc_of_shr_record].
  - rewrite Z.add_0_r. change (2 ^ Z.max 0 0) with 1. rewrite Z.div_1_r. auto.
  - replace (Z.max 0 (Z.pos p)) with (Z.pos p) by lia.
    split; [reflexivity|]. split; [|lia].
    now rewrite shr_iter_m.
  - replace (Z.max 0 (Z.neg p)) with 0 by lia.
    rewrite Z.add_0_r. change (2 ^ 0) with 1. rewrite Z.div_1_r. auto.
Qed.

Lemma round_nearest_even_range (m : Z) (l : location) :
  m <= round_nearest_even m l <= m + 1.
Proof.
  destruct l as [|[| |]]; cbn [round_nearest_even]; try destruct (Z.even m); lia.
Qed.

Lemma div_lt_pow53 (m k d : Z) :
  0 <= m < 2 ^ d -> 0 <= k -> 0 <= d -> d - k <= 53 -> m / 2 ^ k < 2 ^ 53.
Proof.
  intros Hm Hk Hd Hdk. apply Z.div_lt_upper_bound; [lia|].
  rewrite <- Z.pow_add_r by lia.
  assert (2 ^ d <= 2 ^ (k + 53)) by (apply Z.pow_le_mono_r; lia). lia.
Qed.

Lemma Zdigits2_le (m k : Z) : 0 <= k -> 0 <= m < 2 ^ k -> Zdigits2 m <= k.
Proof.
  intros Hk Hm. destruct m as [|p|p]; cbn [Zdigits2]; [lia| |lia].
  apply digits_le_of_lt_pow; lia.
Qed.

(** ** What a rounding returns

    Rounding the exact mantissa [m] at exponent [e]: the result stands
    for [m1 * 2 ^ e1], where [e1] is the exponent the format gives to a
    number of this size and [m1] is [m] shifted to it, or that plus one;
    nothing is lost when there is no shift. *)
Lemma binary_round_aux_cases (s : bool) (m : positive) (e : Z) :
  let d := Z.pos (digits2_pos m) in
  let e1 := Z.max e (fexp prec emax (d + e)) in
  e1 <= 970 ->
  exists m1 : Z,
    Z.pos m / 2 ^ (e1 - e) <= m1 <= Z.pos m / 2 ^ (e1 - e) + 1 /\
    (e1 = e -> m1 = Z.pos m) /\
    match binary_round_aux prec emax s (Z.pos m) e loc_Exact with
    | S754_zero s' => s' = s /\ m1 = 0
    | S754_finite s' m' e' =>
        s' = s /\ e1 <= e' /\ Z.pos m' * 2 ^ (e' - e1) = m1 /\
        Z.pos (digits2_pos m') + e' <= Z.max (d + e) (-1074) + 1
    | _ => False
    end.
Proof.
  intros d e1 He1.
  pose proof (digits_lt_pow m) as Hlt. pose proof (pow_digits_le m) as Hge.
  fold d in Hlt, Hge.
  assert (Hd : 1 <= d) by (subst d; lia).
  unfold binary_round_aux.
  destruct (shr_fexp_m (Z.pos m) e ltac:(lia)) as (Hs1 & Hm1 & Hl1).
  cbn [Zdigits2] in Hs1, Hm1, Hl1. fold d in Hs1, Hm1, Hl1.
  set (n := fexp prec emax (d + e) - e) in *.
  assert (En : e1 - e = Z.max 0 n) by (subst e1 n; lia).
  destruct (shr_fexp prec emax (Z.pos m) e loc_Exact) as [mrs1 ea] eqn:E1.
  cbv beta iota. cbn [fst snd] in Hs1, Hm1, Hl1.
  assert (Ea : ea = e1) by lia. clear Hs1. rewrite Ea in *. clear Ea ea.
  set (q := shr_m mrs1) in *.
  pose proof (round_nearest_even_range q (loc_of_shr_record mrs1)) as Hr.
  set (m1 := round_nearest_even q (loc_of_shr_record mrs1)) in *.
  assert (Hq0 : 0 <= q) by (rewrite Hm1; apply Z.div_pos; lia).
  assert (Hfe : -1074 <= e1 /\ d + e - 53 <= e1).
  { subst e1 n. unfold fexp, emin, prec, emax in *. lia. }
  assert (Hq53 : q < 2 ^ 53).
  { rewrite Hm1. apply (div_lt_pow53 _ _ d); try lia. }
  exists m1. rewrite <- En in Hm1. rewrite <- Hm1.
  split; [exact Hr|]. split.
  { intros Ee. assert (Hn : n <= 0) by lia.
    subst m1. rewrite (Hl1 Hn). cbn [round_nearest_even].
    subst q. rewrite Hm1, Ee, Z.sub_diag. change (2 ^ 0) with 1. now rewrite Z.div_1_r. }
  destruct (shr_fexp_m m1 e1 ltac:(lia)) as (Hs2 & Hm2 & _).
  set (n2 := fexp prec emax (Zdigits2 m1 + e1) - e1) in *.
  destruct (shr_fexp prec emax m1 e1 loc_Exact) as [mrs2 eb] eqn:E2.
  cbv beta iota. cbn [fst snd] in Hs2, Hm2.
  destruct (Z_lt_le_dec m1 (2 ^ 53)) as [Hsmall|Hbig].
  - (* no second shift *)
    assert (Hdig : Zdigits2 m1 <= 53) by (apply Zdigits2_le; lia).
    assert (Hn2 : Z.max 0 n2 = 0).
    { subst n2. unfold fexp, emin, prec, emax in *. lia. }
    rewrite Hn2 in Hs2, Hm2. change (2 ^ 0) with 1 in Hm2.
    rewrite Z.div_1_r in Hm2. rewrite Z.add_0_r in Hs2. subst eb. rewrite Hm2.
    destruct m1 as [|p1|p1] eqn:Em1; [split; reflexivity| |lia].
    replace (e1 <=? emax - prec) with true
      by (symmetry; apply Z.leb_le; unfold emax, prec; lia).
    split; [reflexivity|]. split; [lia|]. split.
    { rewrite Z.sub_diag. change (2 ^ 0) with 1. lia. }
    (* the size of the result *)
    destruct (Z_le_gt_dec e1 e) as [Hns|Hsh].
    + (* no shift at all *)
      assert (Hn : n <= 0) by lia.
      assert (Ep : Z.pos p1 = Z.pos m).
      { rewrite <- Em1. subst m1. rewrite (Hl1 Hn). cbn [round_nearest_even].
        subst q. rewrite Hm1. replace (e1 - e) with 0 by lia.
        change (2 ^ 0) with 1. now rewrite Z.div_1_r. }
      injection Ep as ->. fold d. lia.
    + destruct (Z_le_gt_dec (e1 - e) d) as [Hk|Hk].
      * assert (Hp : Z.pos p1 < 2 ^ (d - (e1 - e) + 1)).
        { assert (Hq : q < 2 ^ (d - (e1 - e))).
          { subst q. rewrite Hm1. apply Z.div_lt_upper_bound; [lia|].
            rewrite <- Z.pow_add_r by lia.
            replace (e1 - e + (d - (e1 - e))) with d by lia. lia. }
          rewrite Z.pow_add_r by lia. change (2 ^ 1) with 2. lia. }
        apply digits_le_of_lt_pow in Hp; lia.
      * assert (Hq : q = 0).
        { subst q. rewrite Hm1. apply Z.div_small. split; [lia|].
          assert (2 ^ d <= 2 ^ (e1 - e)) by (apply Z.pow_le_mono_r; lia). lia. }
        assert (Ep : Z.pos p1 = 1) by lia. injection Ep as ->.
        cbn [digits2_pos]. subst e1 n. unfold fexp, emin, prec, emax in *. lia.
  - (* the mantissa has reached 2 ^ 53: one more shift, exact *)
    assert (Em1 : m1 = 2 ^ 53) by lia.
    assert (Hn2 : Z.max 0 n2 = 1).
    { subst n2. rewrite Em1. change (Zdigits2 (2 ^ 53)) with 54.
      unfold fexp, emin, prec, emax in *. lia. }
    rewrite Hn2 in Hs2, Hm2. subst eb. rewrite Hm2, Em1.
    change (2 ^ 53 / 2 ^ 1) with (Z.pos 4503599627370496).
    cbv iota.
    replace (e1 + 1 <=? emax - prec) with true
      by (symmetry; apply Z.leb_le; unfold emax, prec; lia).
    split; [reflexivity|]. split; [lia|]. split.
    { replace (e1 + 1 - e1) with 1 by lia. reflexivity. }
    change (Z.pos (digits2_pos 4503599627370496)) with 53.
    assert (Hq : q = 2 ^ 53 - 1) by lia.
    assert (Hsh : e < e1).
    { destruct (Z_le_gt_dec e1 e) as [Hns|Hsh]; [|lia].
      assert (Hn : n <= 0) by lia.
      exfalso. subst m1. rewrite (Hl1 Hn) in Em1. cbn [round_nearest_even] in Em1. lia. }
    assert (Hk : d - (e1 - e) >= 53).
    { destruct (Z_lt_le_dec (d - (e1 - e)) 53) as [Hc|Hc]; [|lia]. exfalso.
      assert (q < 2 ^ 52); [|lia].
      subst q. rewrite Hm1. apply Z.div_lt_upper_bound; [lia|].
      rewrite <- Z.pow_add_r by lia.
      assert (2 ^ d <= 2 ^ (e1 - e + 52)) by (apply Z.pow_le_mono_r; lia). lia. }
    lia.
Qed.

End Rounding.

Section RealValue.

Local Open Scope R_scope.

(** ** Powers of two *)

Lemma pow2_pos (e : Z) : 0 < powerRZ 2 e.
Proof. apply powerRZ_lt. lra. Qed.

Lemma pow2_add (a b : Z) : powerRZ 2 (a + b) = powerRZ 2 a * powerRZ 2 b.
Proof. apply powerRZ_add. lra. Qed.

Lemma pow2_IZR (n : Z) : (0 <= n)%Z -> powerRZ 2 n = IZR (2 ^ n).
Proof.
  intros Hn. destruct n as [|p|p]; [reflexivity| |lia].
  unfold powerRZ. rewrite pow_IZR. now rewrite positive_nat_Z.
Qed.

Lemma pow2_le (a b : Z) : (a <= b)%Z -> powerRZ 2 a <= powerRZ 2 b.
Proof.
  intros H. replace b with (a + (b - a))%Z by lia.
  rewrite pow2_add, (pow2_IZR (b - a)) by lia.
  pose proof (pow2_pos a) as Ha.
  assert (1 <= IZR (2 ^ (b - a))).
  { apply IZR_le. assert (0 < 2 ^ (b - a))%Z by (apply Z.pow_pos_nonneg; lia). lia. }
  nra.
Qed.

Lemma pow2_minus_52 : powerRZ 2 (-52) = / 4503599627370496.
Proof.
  assert (H : powerRZ 2 (-52) * powerRZ 2 52 = 1).
  { rewrite <- pow2_add. reflexivity. }
  rewrite (pow2_IZR 52) in H by lia. change (2 ^ 52)%Z with 4503599627370496%Z in H.
  apply Rmult_eq_reg_r with 4503599627370496; [|lra].
  rewrite H. field.
Qed.

Lemma IZR_cond_Zopp (s : bool) (z : Z) :
  IZR (cond_Zopp s z) = (if s then -1 else 1) * IZR z.
Proof. destruct s; cbn [cond_Zopp]; [rewrite opp_IZR|]; lra. Qed.

Lemma Rabs_sign (s : bool) (y : R) : Rabs ((if s then -1 else 1) * y) = Rabs y.
Proof.
  destruct s.
  - replace (-1 * y) with (- y) by lra. apply Rabs_Ropp.
  - now rewrite Rmult_1_l.
Qed.

(** ** The error of a rounding *)

(** Rounding the exact mantissa [m] at exponent [e], when the result
    cannot overflow: the result is a zero or a finite float, below
    [2 ^ (k + 1)] when the exact value is below [2 ^ k], and it differs
    from the exact value by at most that value over [2 ^ 52] plus the
    least positive float. *)
Lemma round_error (s : bool) (m : positive) (e : Z) :
  (Z.max e (fexp prec emax (Z.pos (digits2_pos m) + e)) <= 970)%Z ->
  mag_le (binary_round_aux prec emax s (Z.pos m) e loc_Exact)
         (Z.max (Z.pos (digits2_pos m) + e) (-1074) + 1) /\
  Rabs (SF2R (binary_round_aux prec emax s (Z.pos m) e loc_Exact)
        - IZR (cond_Zopp s (Z.pos m)) * powerRZ 2 e)
  <= IZR (Z.pos m) * powerRZ 2 e / 4503599627370496 + powerRZ 2 (-1074).
Proof.
  intros He1.
  destruct (binary_round_aux_cases s m e He1) as (m1 & Hm1 & Hex & Hr).
  set (d := Z.pos (digits2_pos m)) in *.
  set (e1 := Z.max e (fexp prec emax (d + e))) in *.
  set (K := (2 ^ (e1 - e))%Z) in *.
  assert (He : (e <= e1)%Z) by (subst e1; lia).
  assert (HK : (1 <= K)%Z).
  { subst K. assert (0 < 2 ^ (e1 - e))%Z by (apply Z.pow_pos_nonneg; lia). lia. }
  pose proof (pow2_pos e) as Hpe. pose proof (pow2_pos (-1074)) as Hpt.
  pose proof (digits_lt_pow m) as Hlt. pose proof (pow_digits_le m) as Hge.
  fold d in Hlt, Hge.
  (* in integers *)
  assert (Hz : (Z.abs (m1 * K - Z.pos m) <= K)%Z /\ (e1 = e -> (m1 * K)%Z = Z.pos m)).
  { pose proof (Z.mul_div_le (Z.pos m) K ltac:(lia)) as H1.
    pose proof (Z.mul_succ_div_gt (Z.pos m) K ltac:(lia)) as H2.
    split; [nia|]. intros Ee. rewrite (Hex Ee). subst K. rewrite Ee, Z.sub_diag.
    change (2 ^ 0)%Z with 1%Z. lia. }
  destruct Hz as [Hz Hz0].
  (* the value of the result *)
  assert (Hv : SF2R (binary_round_aux prec emax s (Z.pos m) e loc_Exact)
               = (if s then -1 else 1) * IZR (m1 * K) * powerRZ 2 e).
  { destruct (binary_round_aux prec emax s (Z.pos m) e loc_Exact)
      as [s'|s'| |s' m' e']; try contradiction.
    - destruct Hr as [_ ->]. cbn [SF2R]. rewrite Z.mul_0_l. lra.
    - destruct Hr as (-> & Hee & Hmm & _). cbn [SF2R].
      rewrite IZR_cond_Zopp, <- Hmm.
      replace e' with ((e' - e1) + ((e1 - e) + e))%Z at 1 by lia.
      rewrite !pow2_add, (pow2_IZR (e' - e1)), (pow2_IZR (e1 - e)) by lia.
      fold K. rewrite !mult_IZR. lra. }
  split.
  { destruct (binary_round_aux prec emax s (Z.pos m) e loc_Exact)
      as [s'|s'| |s' m' e']; try contradiction; [exact I|].
    cbn [mag_le]. fold d. lia. }
  rewrite Hv, IZR_cond_Zopp.
  replace ((if s then -1 else 1) * IZR (m1 * K) * powerRZ 2 e
           - (if s then -1 else 1) * IZR (Z.pos m) * powerRZ 2 e)
    with ((if s then -1 else 1) * (IZR (m1 * K - Z.pos m) * powerRZ 2 e))
    by (rewrite minus_IZR; lra).
  rewrite Rabs_sign, Rabs_mult, (Rabs_pos_eq (powerRZ 2 e)) by lra.
  rewrite <- abs_IZR.
  assert (Hm0 : 0 <= IZR (Z.pos m) * powerRZ 2 e / 4503599627370496).
  { assert (0 < IZR (Z.pos m)) by (apply IZR_lt; lia). 
    apply Rmult_le_pos; [nra|lra]. }
  destruct (Z.eq_dec e1 e) as [Ee|Hne].
  - rewrite (Hz0 Ee), Z.sub_diag. cbn [Z.abs]. lra.
  - assert (Hb : IZR (Z.abs (m1 * K - Z.pos m)) * powerRZ 2 e <= powerRZ 2 e1).
    { replace (powerRZ 2 e1) with (powerRZ 2 ((e1 - e) + e)) by (f_equal; lia).
      rewrite pow2_add, (pow2_IZR (e1 - e)) by lia. fold K.
      apply Rmult_le_compat_r; [lra|]. now apply IZR_le. }
    assert (Hc : powerRZ 2 e1
                 <= IZR (Z.pos m) * powerRZ 2 e / 4503599627370496 + powerRZ 2 (-1074)).
    { destruct (Z.eq_dec e1 (-1074)) as [->|Hn]; [lra|].
      assert (Ee1 : e1 = ((d - 1) + e + -52)%Z).
      { subst e1. unfold fexp, emin, prec, emax in *. lia. }
      rewrite Ee1, !pow2_add, (pow2_IZR (d - 1)), pow2_minus_52 by lia.
      assert (Hp : IZR (2 ^ (d - 1)) <= IZR (Z.pos m)).
      { apply IZR_le. replace d with ((d - 1) + 1)%Z in Hge by lia.
        rewrite Z.pow_add_r in Hge by lia. change (2 ^ 1)%Z with 2%Z in Hge. lia. }
      assert (0 <= powerRZ 2 e / 4503599627370496) by (apply Rmult_le_pos; lra).
      unfold Rdiv in *. nra. }
    lra.
Qed.

End RealValue.

Section Operations.

Local Open Scope R_scope.

Lemma mag_le_mono (x : spec_float) (k k' : Z) : (k <= k')%Z -> mag_le x k -> mag_le x k'.
Proof. destruct x; cbn [mag_le]; auto; lia. Qed.

Lemma SF2R_finite (s : bool) (m : positive) (e : Z) :
  SF2R (S754_finite s m e) = (if s then -1 else 1) * IZR (Z.pos m) * powerRZ 2 e.
Proof. cbn [SF2R]. now rewrite IZR_cond_Zopp. Qed.

(** ** Products *)

Lemma SFmul_error (x y : spec_float) (kx ky : Z) :
  mag_le x kx -> mag_le y ky -> (-1074 <= kx + ky <= 970)%Z ->
  mag_le (SFmul prec emax x y) (kx + ky + 1) /\
  Rabs (SF2R (SFmul prec emax x y) - SF2R x * SF2R y)
  <= Rabs (SF2R x * SF2R y) / 4503599627370496 + powerRZ 2 (-1074).
Proof.
  intros Hx Hy Hk. pose proof (pow2_pos (-1074)) as Ht.
  destruct x as [sx|sx| |sx mx ex], y as [sy|sy| |sy my ey];
    try contradiction; cbn [SFmul mag_le];
    try (split; [exact I|]; cbn [SF2R];
         rewrite ?Rmult_0_l, ?Rmult_0_r, Rminus_0_r, Rabs_R0; lra).
  cbn [mag_le] in Hx, Hy.
  pose proof (digits_mul mx my) as Hd.
  destruct (round_error (xorb sx sy) (mx * my) (ex + ey)) as [Hm He].
  { unfold fexp, emin, prec, emax. lia. }
  split.
  { eapply mag_le_mono; [|exact Hm]. lia. }
  assert (Ev : SF2R (S754_finite sx mx ex) * SF2R (S754_finite sy my ey)
               = IZR (cond_Zopp (xorb sx sy) (Z.pos (mx * my))) * powerRZ 2 (ex + ey)).
  { rewrite !SF2R_finite, IZR_cond_Zopp, pow2_add, Pos2Z.inj_mul, mult_IZR.
    destruct sx, sy; cbn [xorb]; lra. }
  assert (Ea : Rabs (IZR (cond_Zopp (xorb sx sy) (Z.pos (mx * my))) * powerRZ 2 (ex + ey))
               = IZR (Z.pos (mx * my)) * powerRZ 2 (ex + ey)).
  { rewrite IZR_cond_Zopp, Rmult_assoc, Rabs_sign. apply Rabs_pos_eq.
    pose proof (pow2_pos (ex + ey)).
    assert (0 < IZR (Z.pos (mx * my))) by (apply IZR_lt; lia). nra. }
  rewrite Ev, Ea. exact He.
Qed.

(** ** Differences *)

Lemma iter_xO (m d : positive) :
  Z.pos (Pos.iter xO m d) = (Z.pos m * 2 ^ Z.pos d)%Z /\
  Z.pos (digits2_pos (Pos.iter xO m d)) = (Z.pos (digits2_pos m) + Z.pos d)%Z.
Proof.
  induction d as [|d [IH1 IH2]] using Pos.peano_ind.
  - cbn [Pos.iter digits2_pos]. split; lia.
  - rewrite Pos.iter_succ. cbn [digits2_pos]. rewrite Pos2Z.inj_succ.
    rewrite Pos2Z.inj_xO, IH1, Pos2Z.inj_succ, IH2, Z.pow_succ_r by lia. split; lia.
Qed.

(** Aligning a mantissa to a lower exponent keeps the value. *)
Lemma shl_align_spec (m : positive) (e e' : Z) :
  let r := shl_align m e e' in
  (snd r = Z.min e e')%Z /\
  (Z.pos (fst r) = Z.pos m * 2 ^ (e - snd r))%Z /\
  (Z.pos (digits2_pos (fst r)) + snd r = Z.pos (digits2_pos m) + e)%Z.
Proof.
  unfold shl_align. destruct (e' - e)%Z as [|p|p] eqn:E; cbn [fst snd].
  - rewrite Z.sub_diag. change (2 ^ 0)%Z with 1%Z. lia.
  - rewrite Z.sub_diag. change (2 ^ 0)%Z with 1%Z. lia.
  - destruct (iter_xO m p) as [H1 H2]. rewrite H1, H2.
    replace (e - e')%Z with (Z.pos p) by lia. lia.
Qed.

Lemma binary_round_error (s : bool) (p : positive) (e : Z) (k : Z) :
  (Z.pos (digits2_pos p) + e <= k)%Z -> (-1074 <= k <= 1000)%Z -> (e <= 970)%Z ->
  mag_le (binary_round prec emax s p e) (k + 1) /\
  Rabs (SF2R (binary_round prec emax s p e) - IZR (cond_Zopp s (Z.pos p)) * powerRZ 2 e)
  <= IZR (Z.pos p) * powerRZ 2 e / 4503599627370496 + powerRZ 2 (-1074).
Proof.
  intros Hd Hk He. unfold binary_round.
  destruct (shl_align_spec p e (fexp prec emax (Z.pos (digits2_pos p) + e)))
    as (H1 & H2 & H3).
  destruct (shl_align p e (fexp prec emax (Z.pos (digits2_pos p) + e))) as [mz ez].
  cbn [fst snd] in H1, H2, H3.
  destruct (round_error s mz ez) as [Hm Hr].
  { rewrite H3. unfold fexp, emin, prec, emax in *. lia. }
  split.
  { eapply mag_le_mono; [|exact Hm]. lia. }
  assert (Ev : IZR (Z.pos mz) * powerRZ 2 ez = IZR (Z.pos p) * powerRZ 2 e).
  { rewrite H2, mult_IZR.
    replace (powerRZ 2 e) with (powerRZ 2 ((e - ez) + ez)) by (f_equal; lia).
    rewrite pow2_add, (pow2_IZR (e - ez)) by lia. lra. }
  rewrite IZR_cond_Zopp in *.
  replace ((if s then -1 else 1) * IZR (Z.pos mz) * powerRZ 2 ez)
    with ((if s then -1 else 1) * IZR (Z.pos p) * powerRZ 2 e) in Hr
    by (rewrite !Rmult_assoc, Ev; reflexivity).
  now rewrite Ev in Hr.
Qed.

Lemma binary_normalize_error (M e k : Z) :
  (Z.abs M < 2 ^ (k - e))%Z -> (e < k)%Z -> (-1074 <= k <= 1000)%Z -> (e <= 970)%Z ->
  mag_le (binary_normalize prec emax M e false) (k + 1) /\
  Rabs (SF2R (binary_normalize prec emax M e false) - IZR M * powerRZ 2 e)
  <= Rabs (IZR M * powerRZ 2 e) / 4503599627370496 + powerRZ 2 (-1074).
Proof.
  intros HM Hek Hk He. pose proof (pow2_pos (-1074)) as Ht. pose proof (pow2_pos e) as Hpe.
  destruct M as [|p|p]; cbn [binary_normalize].
  - split; [exact I|]. cbn [SF2R]. rewrite Rmult_0_l, Rminus_0_r, Rabs_R0. lra.
  - destruct (binary_round_error false p e k) as [Hm Hr]; try assumption.
    { cbn [Z.abs] in HM. apply digits_le_of_lt_pow in HM; lia. }
    split; [exact Hm|]. cbn [cond_Zopp] in Hr.
    rewrite (Rabs_pos_eq (IZR (Z.pos p) * powerRZ 2 e)); [exact Hr|].
    assert (0 < IZR (Z.pos p)) by (apply IZR_lt; lia). nra.
  - destruct (binary_round_error true p e k) as [Hm Hr]; try assumption.
    { cbn [Z.abs] in HM. apply digits_le_of_lt_pow in HM; lia. }
    split; [exact Hm|]. cbn [cond_Zopp] in Hr.
    change (Z.neg p) with (- Z.pos p)%Z. rewrite opp_IZR in *.
    replace (Rabs (- IZR (Z.pos p) * powerRZ 2 e)) with (IZR (Z.pos p) * powerRZ 2 e);
      [exact Hr|].
    assert (0 < IZR (Z.pos p)) by (apply IZR_lt; lia).
    rewrite Rabs_left; nra.
Qed.

Lemma SFsub_error (x y : spec_float) (kx ky : Z) :
  mag_le x kx -> mag_le y ky -> (-1074 <= kx <= 968)%Z -> (-1074 <= ky <= 968)%Z ->
  mag_le (SFsub prec emax x y) (Z.max kx ky + 2) /\
  Rabs (SF2R (SFsub prec emax x y) - (SF2R x - SF2R y))
  <= Rabs (SF2R x - SF2R y) / 4503599627370496 + powerRZ 2 (-1074).
Proof.
  intros Hx Hy Hkx Hky. pose proof (pow2_pos (-1074)) as Ht.
  assert (Hpos : forall r, 0 <= Rabs r / 4503599627370496 + powerRZ 2 (-1074)).
  { intros r. pose proof (Rabs_pos r). apply Rplus_le_le_0_compat; [|lra].
    apply Rmult_le_pos; lra. }
  destruct x as [sx|sx| |sx mx ex], y as [sy|sy| |sy my ey];
    try contradiction; cbn [SFsub].
  - split; [destruct sx, sy; exact I|].
    destruct sx, sy; cbn [SF2R];
      replace (0 - (0 - 0)) with 0 by lra; rewrite Rabs_R0; apply Hpos.
  - split; [cbn [mag_le] in *; lia|].
    rewrite !SF2R_finite. cbn [SF2R].
    replace ((if negb sy then -1 else 1) * IZR (Z.pos my) * powerRZ 2 ey
             - (0 - (if sy then -1 else 1) * IZR (Z.pos my) * powerRZ 2 ey)) with 0
      by (destruct sy; cbn [negb]; lra).
    rewrite Rabs_R0. apply Hpos.
  - split; [cbn [mag_le] in *; lia|].
    cbn [SF2R]. rewrite Rminus_0_r, Rminus_diag, Rabs_R0. apply Hpos.
  - cbn [mag_le] in Hx, Hy. cbv zeta.
    set (ez := Z.min ex ey).
    destruct (shl_align_spec mx ex ez) as (Hx1 & Hx2 & Hx3).
    destruct (shl_align_spec my ey ez) as (Hy1 & Hy2 & Hy3).
    set (ax := fst (shl_align mx ex ez)) in *.
    set (ay := fst (shl_align my ey ez)) in *.
    rewrite Hx1 in Hx2, Hx3. rewrite Hy1 in Hy2, Hy3.
    replace (Z.min ex ez) with ez in * by (subst ez; lia).
    replace (Z.min ey ez) with ez in * by (subst ez; lia).
    pose proof (digits_lt_pow ax) as Hax. pose proof (digits_lt_pow ay) as Hay.
    set (M := (cond_Zopp sx (Z.pos ax) - cond_Zopp sy (Z.pos ay))%Z).
    set (k := (Z.max kx ky + 1)%Z).
    assert (HM : (Z.abs M < 2 ^ (k - ez))%Z).
    { assert (Z.pos ax < 2 ^ (k - 1 - ez))%Z.
      { eapply Z.lt_le_trans; [exact Hax|]. apply Z.pow_le_mono_r; lia. }
      assert (Z.pos ay < 2 ^ (k - 1 - ez))%Z.
      { eapply Z.lt_le_trans; [exact Hay|]. apply Z.pow_le_mono_r; lia. }
      replace (k - ez)%Z with ((k - 1 - ez) + 1)%Z by lia.
      rewrite Z.pow_add_r by lia. change (2 ^ 1)%Z with 2%Z.
      subst M. destruct sx, sy; cbn [cond_Zopp]; lia. }
    destruct (binary_normalize_error M ez k HM) as [Hm Hr]; try lia.
    split.
    { eapply mag_le_mono; [|exact Hm]. lia. }
    assert (Ev : SF2R (S754_finite sx mx ex) - SF2R (S754_finite sy my ey)
                 = IZR M * powerRZ 2 ez).
    { cbn [SF2R]. subst M. rewrite minus_IZR, !IZR_cond_Zopp, Hx2, Hy2, !mult_IZR.
      replace (powerRZ 2 ex) with (powerRZ 2 ((ex - ez) + ez)) by (f_equal; lia).
      replace (powerRZ 2 ey) with (powerRZ 2 ((ey - ez) + ez)) by (f_equal; lia).
      rewrite !pow2_add, (pow2_IZR (ex - ez)), (pow2_IZR (ey - ez)) by lia. lra. }
    rewrite Ev. exact Hr.
Qed.

End Operations.

Section FloatValues.

Local Open Scope R_scope.

Lemma pow2_opp (k : Z) : (0 <= k)%Z -> powerRZ 2 (- k) = / IZR (2 ^ k).
Proof.
  intros Hk.
  assert (H : powerRZ 2 (- k) * powerRZ 2 k = 1).
  { rewrite <- pow2_add. replace (- k + k)%Z with 0%Z by lia. reflexivity. }
  rewrite (pow2_IZR k) in H by lia.
  assert (0 < IZR (2 ^ k)).
  { apply IZR_lt. apply Z.pow_pos_nonneg; lia. }
  apply Rmult_eq_reg_r with (IZR (2 ^ k)); [|lra].
  rewrite H. field. lra.
Qed.

(** The least positive float is below [2 ^ -60]. *)
Lemma tiny_le : powerRZ 2 (-1074) <= / 1152921504606846976.
Proof.
  change (/ 1152921504606846976) with (/ IZR (2 ^ 60)).
  rewrite <- (pow2_opp 60) by lia. apply pow2_le. lia.
Qed.

(** ** Operations of floats *)

Lemma mag_le_finite (x : float) (k : Z) : mag_le (Prim2SF x) k -> is_finite x = true.
Proof.
  intros H. apply is_finite_of_spec. now destruct (Prim2SF x).
Qed.

Lemma mul_error (x y : float) (kx ky : Z) :
  mag_le (Prim2SF x) kx -> mag_le (Prim2SF y) ky -> (-1074 <= kx + ky <= 970)%Z ->
  mag_le (Prim2SF (x * y)) (kx + ky + 1) /\
  Rabs (real_of (x * y) - real_of x * real_of y)
  <= Rabs (real_of x * real_of y) / 4503599627370496 + powerRZ 2 (-1074).
Proof.
  intros Hx Hy Hk. unfold real_of. rewrite mul_spec. now apply SFmul_error.
Qed.

Lemma sub_error (x y : float) (kx ky : Z) :
  mag_le (Prim2SF x) kx -> mag_le (Prim2SF y) ky ->
  (-1074 <= kx <= 968)%Z -> (-1074 <= ky <= 968)%Z ->
  mag_le (Prim2SF (x - y)) (Z.max kx ky + 2) /\
  Rabs (real_of (x - y) - (real_of x - real_of y))
  <= Rabs (real_of x - real_of y) / 4503599627370496 + powerRZ 2 (-1074).
Proof.
  intros Hx Hy Hkx Hky. unfold real_of. rewrite sub_spec. now apply SFsub_error.
Qed.

(** ** Integers below 65536 and their inverses *)

Lemma small_floats_exact (z : Z) :
  (0 <= z < 65536)%Z ->
  is_int z (Prim2SF (to_float z)) = true /\
  ((0 < z)%Z -> is_inverse z (Prim2SF (1 / to_float z)) = true).
Proof.
  intros Hz.
  assert (H : all_from (Z.to_nat 65536) 0
                (fun z => is_int z (Prim2SF (to_float z))
                          && ((z =? 0)%Z || is_inverse z (Prim2SF (1 / to_float z))))
              = true)
    by (vm_compute; reflexivity).
  pose proof (all_from_spec _ _ _ H z ltac:(lia)) as Hp. cbv beta in Hp.
  apply andb_true_iff in Hp as [H1 H2]. split; [exact H1|].
  intros Hpos. apply orb_true_iff in H2 as [H2|H2]; [|exact H2].
  apply Z.eqb_eq in H2. lia.
Qed.

Lemma int_value (z : Z) :
  (0 <= z < 65536)%Z ->
  mag_le (Prim2SF (to_float z)) 16 /\ real_of (to_float z) = IZR z.
Proof.
  intros Hz. destruct (small_floats_exact z Hz) as [H _].
  unfold real_of. destruct (Prim2SF (to_float z)) as [s|s| |s m e];
    cbn [is_int] in H; try discriminate.
  - apply Z.eqb_eq in H. subst z. split; [exact I|reflexivity].
  - destruct s; [discriminate|].
    apply andb_true_iff in H as [H H3]. apply andb_true_iff in H as [H1 H2].
    apply Z.leb_le in H1, H3. apply Z.eqb_eq in H2.
    split; [exact H3|]. cbn [SF2R cond_Zopp]. rewrite H2, mult_IZR.
    rewrite <- (pow2_IZR (- e)) by lia. rewrite Rmult_assoc, <- pow2_add.
    replace (- e + e)%Z with 0%Z by lia. cbn [powerRZ]. lra.
Qed.

Lemma inverse_value (z : Z) :
  (0 < z < 65536)%Z ->
  mag_le (Prim2SF (1 / to_float z)) 1 /\
  0 < real_of (1 / to_float z) /\
  Rabs (real_of (1 / to_float z) * IZR z - 1) <= / 4503599627370496.
Proof.
  intros Hz. destruct (small_floats_exact z ltac:(lia)) as [_ H].
  specialize (H ltac:(lia)).
  unfold real_of. destruct (Prim2SF (1 / to_float z)) as [s|s| |s m e];
    cbn [is_inverse] in H; try discriminate.
  destruct s; [discriminate|].
  apply andb_true_iff in H as [H H3]. apply andb_true_iff in H as [H1 H2].
  apply Z.leb_le in H1, H2, H3.
  pose proof (pow2_pos e) as Hpe.
  assert (Hm : 0 < IZR (Z.pos m)) by (apply IZR_lt; lia).
  split; [exact H3|]. cbn [SF2R cond_Zopp]. split; [nra|].
  assert (Hone : powerRZ 2 e * IZR (2 ^ (- e)) = 1).
  { rewrite <- (pow2_IZR (- e)) by lia. rewrite <- pow2_add.
    replace (e + - e)%Z with 0%Z by lia. reflexivity. }
  replace (IZR (Z.pos m) * powerRZ 2 e * IZR z - 1)
    with (IZR (Z.pos m * z - 2 ^ (- e)) * powerRZ 2 e)
    by (rewrite minus_IZR, mult_IZR; nra).
  rewrite Rabs_mult, (Rabs_pos_eq (powerRZ 2 e)), <- abs_IZR by lra.
  apply IZR_le in H2. rewrite mult_IZR in H2.
  change (IZR (2 ^ 52)) with 4503599627370496 in H2.
  assert (Hp : 0 < IZR (2 ^ (- e))).
  { apply IZR_lt. apply Z.pow_pos_nonneg; lia. }
  apply Rmult_le_reg_r with (4503599627370496 * IZR (2 ^ (- e))); [nra|].
  replace (/ 4503599627370496 * (4503599627370496 * IZR (2 ^ (- e))))
    with (IZR (2 ^ (- e))) by (field; lra).
  replace (IZR (Z.abs (Z.pos m * z - 2 ^ (- e))) * powerRZ 2 e
           * (4503599627370496 * IZR (2 ^ (- e))))
    with (IZR (Z.abs (Z.pos m * z - 2 ^ (- e))) * 4503599627370496
          * (powerRZ 2 e * IZR (2 ^ (- e)))) by ring.
  rewrite Hone. lra.
Qed.

(** A float between [-2 ^ 32] and [2 ^ 32]. *)
Lemma abs_le_mag (x : float) :
  (abs x <=? 4294967296)%float = true -> mag_le (Prim2SF x) 33.
Proof.
  rewrite leb_spec, abs_spec.
  change (Prim2SF 4294967296) with (S754_finite false 4503599627370496 (-20)).
  pose proof (Prim2SF_valid x) as V.
  destruct (Prim2SF x) as [s|s| |s m e]; cbn [SFabs mag_le]; try discriminate.
  - intros _. exact I.
  - intros H. unfold SFleb in H. cbn [SFcompare] in H.
    cbn [SpecFloat.valid_binary] in V. unfold bounded, canonical_mantissa in V.
    apply andb_true_iff in V as [V _]. apply Z.eqb_eq in V.
    unfold fexp, emin, prec, emax in V.
    destruct (Z.compare_spec e (-20)) as [E|E|E]; try discriminate; lia.
Qed.

End FloatValues.

(* ================================================================= *)
(** * Properties: accuracy of the time stamps *)

Section Accuracy.

Import Main.

Local Open Scope R_scope.

Lemma Rabs_le_inv (a b : R) : Rabs a <= b -> - b <= a <= b.
Proof. unfold Rabs. destruct (Rcase_abs a); lra. Qed.

(** The real arithmetic of the bound: [a] and [b] approximate [nn * dt]
    and [ii * dt], [s] their difference, [t] the difference of [now] and
    [s], each within one part in [2 ^ 52] and the least positive float
    [tiny]; [dt] approximates [1 / rr] likewise. *)
Lemma stamp_error_arith (nowv dt rr nn ii a b s t tiny : R) :
  1 <= rr -> 0 <= ii <= nn -> nn <= 65535 ->
  0 < dt -> Rabs (dt * rr - 1) <= / 4503599627370496 ->
  0 < tiny <= / 1152921504606846976 ->
  Rabs (a - nn * dt) <= Rabs (nn * dt) / 4503599627370496 + tiny ->
  Rabs (b - ii * dt) <= Rabs (ii * dt) / 4503599627370496 + tiny ->
  Rabs (s - (a - b)) <= Rabs (a - b) / 4503599627370496 + tiny ->
  Rabs (t - (nowv - s)) <= Rabs (nowv - s) / 4503599627370496 + tiny ->
  Rabs (t - (nowv - (nn - ii) / rr)) <= Rabs nowv / 4503599627370496 + / 8589934592.
Proof.
  intros Hrr Hii Hnn Hdt Hinv Htiny Ha Hb Hs Ht.
  set (u := / 4503599627370496) in *.
  assert (Hu : u = / 4503599627370496) by reflexivity.
  assert (Hu0 : 0 < u) by (rewrite Hu; lra).
  set (q := / rr).
  assert (Hq : q * rr = 1) by (subst q; field; lra).
  assert (Hq1 : 0 < q <= 1).
  { split.
    - subst q. apply Rinv_0_lt_compat. lra.
    - assert (0 < q) by (subst q; apply Rinv_0_lt_compat; lra). nra. }
  apply Rabs_le_inv in Hinv.
  assert (Hd : - u <= dt - q <= u).
  { assert (E : dt - q = (dt * rr - 1) * q) by (rewrite Rmult_minus_distr_r, Rmult_assoc;
                                                  replace (rr * q) with 1 by lra; lra).
    rewrite E. clear E. split; nra. }
  clear Hinv.
  (* the products *)
  assert (HP : 0 <= nn * dt <= 65536 /\ - (65535 * u) <= nn * dt - nn * q <= 65535 * u).
  { assert (0 <= nn) by lra. rewrite Hu in *. split; split; nra. }
  assert (HQ : 0 <= ii * dt <= 65536 /\ - (65535 * u) <= ii * dt - ii * q <= 65535 * u).
  { assert (0 <= ii) by lra. assert (ii <= 65535) by lra. rewrite Hu in *.
    split; split; nra. }
  destruct HP as [HP0 HP1], HQ as [HQ0 HQ1].
  rewrite (Rabs_pos_eq (nn * dt)) in Ha by lra.
  rewrite (Rabs_pos_eq (ii * dt)) in Hb by lra.
  apply Rabs_le_inv in Ha, Hb.
  fold u in Ha, Hb. unfold Rdiv in *. fold u in Ha, Hb, Hs, Ht |- *.
  set (P := nn * dt) in *. set (Q := ii * dt) in *.
  assert (Hex : (nn - ii) * q = nn * q - ii * q) by ring.
  assert (Hdq : 0 <= nn * q - ii * q <= 65535).
  { rewrite <- Hex. split; nra. }
  replace ((nn - ii) * / rr) with (nn * q - ii * q) by (subst q; ring).
  set (Nq := nn * q) in *. set (Iq := ii * q) in *.
  assert (HPu : P * u <= 65536 * u) by (apply Rmult_le_compat_r; lra).
  assert (HQu : Q * u <= 65536 * u) by (apply Rmult_le_compat_r; lra).
  assert (HA : - (65536 * u + tiny) <= a - P <= 65536 * u + tiny) by (split; lra).
  assert (HB : - (65536 * u + tiny) <= b - Q <= 65536 * u + tiny) by (split; lra).
  clear Ha Hb.
  assert (Hab : Rabs (a - b) <= 65536).
  { apply Rabs_le. rewrite Hu in *. split; lra. }
  assert (HS : - (65536 * u + tiny) <= s - (a - b) <= 65536 * u + tiny).
  { apply Rabs_le_inv in Hs. pose proof (Rabs_pos (a - b)).
    assert (Rabs (a - b) * u <= 65536 * u) by (apply Rmult_le_compat_r; lra).
    split; lra. }
  clear Hs.
  assert (Hsb : Rabs (nowv - s) <= Rabs nowv + 65537).
  { assert (Hs1 : Rabs s <= 65537).
    { apply Rabs_le_inv in Hab. apply Rabs_le. rewrite Hu in *. split; lra. }
    replace (nowv - s) with (nowv + - s) by ring.
    eapply Rle_trans; [apply Rabs_triang|]. rewrite Rabs_Ropp. lra. }
  apply Rabs_le_inv in Ht. pose proof (Rabs_pos nowv) as Hn0.
  pose proof (Rabs_pos (nowv - s)) as Hn1.
  assert (Hm : Rabs (nowv - s) * u <= (Rabs nowv + 65537) * u)
    by (apply Rmult_le_compat_r; lra).
  assert (HT : - (Rabs nowv * u + 65537 * u + tiny) <= t - (nowv - s)
               <= Rabs nowv * u + 65537 * u + tiny) by (split; lra).
  clear Ht.
  apply Rabs_le. rewrite Hu in *. split; lra.
Qed.

(** The stamp of the byte at position [i] of a chunk of [n] bytes is
    finite and lies within [|now| / 2 ^ 52 + 2 ^ -33] of
    [now - (n - 1 - i) / sampling_rate]. *)
Lemma stamp_at_accuracy (self : t) (now : float) (n i : Z) :
  (0 < sampling_rate self < 65536)%Z -> (0 <= i < n)%Z -> (n <= 65536)%Z ->
  (abs now <=? 4294967296)%float = true ->
  is_finite (stamp_at self now n i) = true /\
  Rabs (real_of (stamp_at self now n i)
        - (real_of now - IZR (n - 1 - i) / IZR (sampling_rate self)))
  <= Rabs (real_of now) / 4503599627370496 + / 8589934592.
Proof.
  intros Hr Hi Hn Hnow. unfold stamp_at. cbv zeta.
  set (dt := (1 / to_float (sampling_rate self))%float).
  destruct (inverse_value (sampling_rate self) Hr) as (Md & Hd0 & Hd). fold dt in Md, Hd0, Hd.
  destruct (int_value (n - 1) ltac:(lia)) as [Mn Vn].
  destruct (int_value i ltac:(lia)) as [Mi Vi].
  pose proof (abs_le_mag now Hnow) as Mnow.
  destruct (mul_error (to_float (n - 1)) dt 16 1 Mn Md ltac:(lia)) as [Ma Ha].
  destruct (mul_error (to_float i) dt 16 1 Mi Md ltac:(lia)) as [Mb Hb].
  destruct (sub_error _ _ _ _ Ma Mb ltac:(lia) ltac:(lia)) as [Ms Hs].
  destruct (sub_error _ _ _ _ Mnow Ms ltac:(lia) ltac:(lia)) as [Mt Ht].
  split; [exact (mag_le_finite _ _ Mt)|].
  rewrite Vn in Ha. rewrite Vi in Hb.
  rewrite minus_IZR.
  apply (stamp_error_arith (real_of now) (real_of dt) (IZR (sampling_rate self))
                           (IZR (n - 1)) (IZR i)
                           (real_of (to_float (n - 1) * dt))
                           (real_of (to_float i * dt))
                           (real_of (to_float (n - 1) * dt - to_float i * dt))
                           _ (powerRZ 2 (-1074)));
    try assumption.
  - apply IZR_le. lia.
  - split; apply IZR_le; lia.
  - apply IZR_le. lia.
  - split; [apply pow2_pos | apply tiny_le].
Qed.

End Accuracy.

Section StampsAccuracy.

Import Main.

Local Open Scope R_scope.

Lemma mag_le_real (x : spec_float) (k : Z) : mag_le x k -> Rabs (SF2R x) <= powerRZ 2 k.
Proof.
  pose proof (pow2_pos k) as Hk.
  destruct x as [s|s| |s m e]; cbn [mag_le SF2R]; try contradiction.
  - intros _. rewrite Rabs_R0. lra.
  - intros H. rewrite IZR_cond_Zopp, Rmult_assoc, Rabs_sign.
    pose proof (pow2_pos e) as He.
    assert (Hm : 0 < IZR (Z.pos m)) by (apply IZR_lt; lia).
    rewrite Rabs_pos_eq by nra.
    pose proof (digits_lt_pow m) as Hd. apply IZR_lt in Hd.
    rewrite <- (pow2_IZR (Z.pos (digits2_pos m))) in Hd by lia.
    apply Rle_trans with (powerRZ 2 (Z.pos (digits2_pos m) + e)).
    + rewrite pow2_add. nra.
    + now apply pow2_le.
Qed.

(** The bound of [stamp_at_accuracy] is below half the period of every
    rate below 65536. *)
Lemma stamp_bound_small (nowv rr : R) :
  Rabs nowv <= 8589934592 -> 1 <= rr <= 65535 ->
  2 * (Rabs nowv / 4503599627370496 + / 8589934592) < / rr.
Proof.
  intros Hn Hr.
  assert (H : / 65535 <= / rr) by (apply Rinv_le_contravar; lra).
  lra.
Qed.

(** C7: every byte of a non-empty chunk is stored with its own value as
    raw code.  The stamp of the byte at position [i], a binary64 number,
    is [now - (n - 1 - i) / sampling_rate] up to the rounding of the four
    operations that compute it: it lies within [|now| / 2^52 + 2^-33] of
    that real number.  The last byte is stamped [now] exactly, and each
    byte is stamped later than the one before it, by [1 / sampling_rate]
    up to twice that bound.  The rate is below 65536, as every rate the
    window offers is, the chunk has at most 65536 bytes, and [now], the
    time in seconds, lies within [2^32] of 0. *)
Theorem on_bytes_stamps (self : t) (st : plots) (now : float) (b : bytes) :
  (0 < sampling_rate self < 65536)%Z -> b <> [] -> (len b <= 65536)%Z ->
  (abs now <=? 4294967296)%float = true ->
  exists l st',
    stamps self now b = Some l /\
    on_bytes self st now b = Some st' /\
    length l = length b /\
    (forall i byte,
        nth_error b i = Some byte ->
        exists ts,
          nth_error l i = Some (ts, byte_val byte) /\
          is_finite ts = true /\
          Rabs (real_of ts
                - (real_of now
                   - IZR (len b - 1 - Z.of_nat i) / IZR (sampling_rate self)))
          <= Rabs (real_of now) / 4503599627370496 + / 8589934592) /\
    (forall byte,
        nth_error b (length b - 1) = Some byte ->
        nth_error l (length b - 1) = Some (now, byte_val byte)) /\
    (forall i p p',
        nth_error l i = Some p -> nth_error l (S i) = Some p' ->
        real_of (fst p) < real_of (fst p') /\
        Rabs (real_of (fst p') - real_of (fst p) - 1 / IZR (sampling_rate self))
        <= 2 * (Rabs (real_of now) / 4503599627370496 + / 8589934592)) /\
    plot_x st' = deque_extend (pts st) (plot_x st) (map fst l) /\
    plot_y st' = deque_extend (pts st) (plot_y st) (map byte_val b) /\
    sample_times st' = sample_times st ++ map fst l.
Proof.
  intros Hr Hb Hn Hnow.
  assert (Hlen : (0 < len b)%Z).
  { destruct b; [congruence|]. unfold len. cbn [length]. lia. }
  destruct (on_bytes_stamps_code self st now b) as
      (l & st' & Hs & Ho & Hl & Hnth & _ & Hlast & Hx & Hy & Ht);
    [lia | exact Hb | |].
  { intros z [->|Hz]; rewrite small_ints_convert; try discriminate; lia. }
  specialize (Hlast ltac:(lia) Hn).
  assert (Hacc : forall i byte,
             nth_error b i = Some byte ->
             nth_error l i = Some (stamp_at self now (len b) (Z.of_nat i), byte_val byte) /\
             is_finite (stamp_at self now (len b) (Z.of_nat i)) = true /\
             Rabs (real_of (stamp_at self now (len b) (Z.of_nat i))
                   - (real_of now
                      - IZR (len b - 1 - Z.of_nat i) / IZR (sampling_rate self)))
             <= Rabs (real_of now) / 4503599627370496 + / 8589934592).
  { intros i byte Hi. split; [now apply Hnth|].
    assert (i < length b)%nat by (apply nth_error_Some; congruence).
    apply stamp_at_accuracy; try assumption. unfold len. lia. }
  exists l, st'. split; [exact Hs|]. split; [exact Ho|]. split; [exact Hl|].
  split; [|split; [|split; [|now repeat split]]].
  - intros i byte Hi. destruct (Hacc i byte Hi) as (H1 & H2 & H3).
    now exists (stamp_at self now (len b) (Z.of_nat i)).
  - intros byte Hi. rewrite (Hnth _ _ Hi).
    replace (Z.of_nat (length b - 1)) with (len b - 1)%Z by (unfold len in *; lia).
    now rewrite Hlast.
  - intros i p p' Hp Hp'.
    assert (Hi' : (S i < length b)%nat) by (rewrite <- Hl; apply nth_error_Some; congruence).
    destruct (nth_error b i) as [x|] eqn:Ex;
      [|apply nth_error_None in Ex; lia].
    destruct (nth_error b (S i)) as [x'|] eqn:Ex';
      [|apply nth_error_None in Ex'; lia].
    destruct (Hacc i x Ex) as (H1 & _ & H3).
    destruct (Hacc (S i) x' Ex') as (H1' & _ & H3').
    rewrite H1 in Hp. rewrite H1' in Hp'. injection Hp as <-. injection Hp' as <-.
    cbn [fst].
    change (Z.pos (Pos.of_succ_nat i)) with (Z.of_nat (S i)).
    set (ts := real_of (stamp_at self now (len b) (Z.of_nat i))) in *.
    set (ts' := real_of (stamp_at self now (len b) (Z.of_nat (S i)))) in *.
    set (bound := Rabs (real_of now) / 4503599627370496 + / 8589934592) in *.
    assert (Hrr : 1 <= IZR (sampling_rate self) <= 65535) by (split; apply IZR_le; lia).
    assert (Hstep : IZR (len b - 1 - Z.of_nat i) / IZR (sampling_rate self)
                    = IZR (len b - 1 - Z.of_nat (S i)) / IZR (sampling_rate self)
                      + 1 / IZR (sampling_rate self)).
    { replace (len b - 1 - Z.of_nat i)%Z with (len b - 1 - Z.of_nat (S i) + 1)%Z by lia.
      rewrite plus_IZR. field. lra. }
    rewrite Hstep in H3. clear Hstep.
    apply Rabs_le_inv in H3, H3'.
    assert (Hsmall : 2 * bound < / IZR (sampling_rate self)).
    { subst bound. apply stamp_bound_small; [|exact Hrr].
      pose proof (mag_le_real _ _ (abs_le_mag now Hnow)) as Hm.
      rewrite (pow2_IZR 33) in Hm by lia. exact Hm. }
    assert (Hd : 1 / IZR (sampling_rate self) = / IZR (sampling_rate self))
      by (unfold Rdiv; apply Rmult_1_l).
    set (X := IZR (len b - 1 - Z.of_nat (S i)) / IZR (sampling_rate self)) in *.
    set (d := 1 / IZR (sampling_rate self)) in *.
    set (q := / IZR (sampling_rate self)) in *.
    split; [lra|]. apply Rabs_le. split; lra.
Qed.

Lemma on_bytes_stamps_example :
  (0 < sampling_rate init < 65536)%Z /\
  (abs 1700000000.25 <=? 4294967296)%float = true /\
  exists l st',
    stamps init 1700000000.25 [x0a; x14; x1e] = Some l /\
    on_bytes init (mk_plots 600 [] [] []) 1700000000.25 [x0a; x14; x1e] = Some st' /\
    length l = length [x0a; x14; x1e] /\
    (forall i byte,
        nth_error [x0a; x14; x1e] i = Some byte ->
        exists ts,
          nth_error l i = Some (ts, byte_val byte) /\
          is_finite ts = true /\
          Rabs (real_of ts
                - (real_of 1700000000.25
                   - IZR (len [x0a; x14; x1e] - 1 - Z.of_nat i) / IZR (sampling_rate init)))
          <= Rabs (real_of 1700000000.25) / 4503599627370496 + / 8589934592) /\
    (forall byte,
        nth_error [x0a; x14; x1e] (length [x0a; x14; x1e] - 1) = Some byte ->
        nth_error l (length [x0a; x14; x1e] - 1) = Some (1700000000.25%float, byte_val byte)) /\
    (forall i p p',
        nth_error l i = Some p -> nth_error l (S i) = Some p' ->
        real_of (fst p) < real_of (fst p') /\
        Rabs (real_of (fst p') - real_of (fst p) - 1 / IZR (sampling_rate init))
        <= 2 * (Rabs (real_of 1700000000.25) / 4503599627370496 + / 8589934592)) /\
    plot_x st' = deque_extend (pts (mk_plots 600 [] [] []))
                              (plot_x (mk_plots 600 [] [] [])) (map fst l) /\
    plot_y st' = deque_extend (pts (mk_plots 600 [] [] []))
                              (plot_y (mk_plots 600 [] [] []))
                              (map byte_val [x0a; x14; x1e]) /\
    sample_times st' = sample_times (mk_plots 600 [] [] []) ++ map fst l.
Proof.
  assert (Hr : (0 < sampling_rate init < 65536)%Z) by (split; reflexivity).
  assert (Hn : (abs 1700000000.25 <=? 4294967296)%float = true) by reflexivity.
  refine (conj Hr (conj Hn
            (on_bytes_stamps init (mk_plots 600 [] [] []) 1700000000.25
                                 [x0a; x14; x1e] Hr _ _ Hn))).
  - discriminate.
  - vm_compute. discriminate.
Defined.

End StampsAccuracy.

(* ================================================================= *)
(** * Properties: beat detection on the values the window passes *)

Section CallerConditions.

Import Main.

(** ** Sums and differences of finite floats are numbers *)





(** ** The extreme values are values of the list *)



(** ** The threshold is a number *)





End CallerConditions.

(* ================================================================= *)
(** * Properties: the loop of the virtual sender *)

Section Pacing.

Lemma SFmul_nonneg (x y : spec_float) (kx ky : Z) :
  nonneg_mag x kx -> nonneg_mag y ky -> -1074 <= kx + ky <= 970 ->
  nonneg_mag (SFmul prec emax x y) (kx + ky + 1).
Proof.
  intros Hx Hy Hk.
  destruct x as [sx|sx| |[|] mx ex], y as [sy|sy| |[|] my ey];
    try contradiction; cbn [SFmul nonneg_mag xorb]; try exact I.
  cbn [nonneg_mag] in Hx, Hy.
  pose proof (digits_mul mx my) as Hd.
  destruct (binary_round_aux_cases false (mx * my) (ex + ey)) as (m1 & _ & _ & Hr).
  { unfold fexp, emin, prec, emax. lia. }
  destruct (binary_round_aux prec emax false (Z.pos (mx * my)) (ex + ey) loc_Exact)
    as [s|s| |s m e]; try contradiction; [exact I|].
  destruct Hr as (-> & _ & _ & Hm). cbn [nonneg_mag]. lia.
Qed.

Lemma is_int_nonneg (z : Z) (x : spec_float) : is_int z x = true -> nonneg_mag x 16.
Proof.
  destruct x as [s|s| |[|] m e]; cbn [is_int nonneg_mag]; try discriminate; auto.
  intros H. apply andb_true_iff in H as [_ H]. now apply Z.leb_le in H.
Qed.

Lemma is_inverse_nonneg (z : Z) (x : spec_float) : is_inverse z x = true -> nonneg_mag x 1.
Proof.
  destruct x as [s|s| |[|] m e]; cbn [is_inverse nonneg_mag]; try discriminate.
  intros H. apply andb_true_iff in H as [_ H]. now apply Z.leb_le in H.
Qed.

(** [time.sleep] returns for a length that is not negative and below
    [2 ^ 18] seconds. *)
Lemma sleep_returns (secs : float) :
  nonneg_mag (Prim2SF secs) 18 -> VirtualSender.sleep secs = Some tt.
Proof.
  intros H. unfold VirtualSender.sleep.
  assert (Hn : is_nan secs = false).
  { apply is_nan_false. intros E. rewrite E in H. exact H. }
  rewrite Hn. cbv zeta.
  assert (H9 : nonneg_mag (Prim2SF 1e9) 30) by (vm_compute; discriminate).
  pose proof (SFmul_nonneg _ _ 18 30 H H9 ltac:(lia)) as Hd.
  pose proof (Prim2SF_valid (secs * 1e9)) as V.
  rewrite !ltb_spec. rewrite mul_spec in V |- *. unfold SF64mul in *.
  change (Prim2SF 0) with (S754_zero false).
  change (Prim2SF 9223372036854775808) with (S754_finite false 4503599627370496 11).
  destruct (SFmul prec emax (Prim2SF secs) (Prim2SF 1e9)) as [s|s| |[|] m e];
    try contradiction; [reflexivity|].
  cbn [nonneg_mag] in Hd.
  cbn [SpecFloat.valid_binary] in V. unfold bounded, canonical_mantissa in V.
  apply andb_true_iff in V as [V _]. apply Z.eqb_eq in V.
  unfold fexp, emin, prec, emax in V.
  unfold SFltb. cbn [SFcompare].
  replace (e ?= 11) with Lt by (symmetry; apply Z.compare_lt_iff; lia).
  reflexivity.
Qed.

Lemma interval_eq (rate : Z) :
  0 < rate < 65536 ->
  VirtualSender.interval rate = Some (1 / to_float rate)%float /\
  nonneg_mag (Prim2SF (1 / to_float rate)) 1.
Proof.
  intros Hr. destruct (small_floats_exact rate ltac:(lia)) as [Hi Hv].
  specialize (Hv ltac:(lia)). split; [|now apply (is_inverse_nonneg rate)].
  unfold VirtualSender.interval. rewrite small_ints_convert by lia.
  replace (is_zero (to_float rate)) with false; [reflexivity|].
  symmetry. unfold is_zero. rewrite eqb_spec.
  change (Prim2SF zero) with (S754_zero false).
  destruct (Prim2SF (to_float rate)) as [s|s| |[|] m e]; cbn [is_int] in Hi;
    try discriminate; [|reflexivity].
  apply Z.eqb_eq in Hi. lia.
Qed.

(** The pause after a frame of up to 65535 samples at a rate from 1 to
    65535 is one [time.sleep] accepts. *)
Lemma pause_returns (rate spf : Z) :
  0 < rate < 65536 -> 0 <= spf < 65536 ->
  float_of_int spf = Some (to_float spf) /\
  VirtualSender.sleep (1 / to_float rate * to_float spf) = Some tt.
Proof.
  intros Hr Hs. split; [now apply small_ints_convert|].
  destruct (interval_eq rate Hr) as [_ Hi].
  destruct (small_floats_exact spf Hs) as [Hf _]. apply is_int_nonneg in Hf.
  apply sleep_returns. rewrite mul_spec.
  exact (SFmul_nonneg _ _ 1 16 Hi Hf ltac:(lia)).
Qed.

End Pacing.

Section SenderLoop.

Import Parser.

Lemma send_pass_eq (rate spf max_adc : Z) (p : nat) :
  0 < rate < 65536 -> 0 <= max_adc -> 0 <= spf <= 63 ->
  VirtualSender.send_pass (1 / to_float rate) spf max_adc (Z.of_nat (p * Z.to_nat spf) mod 65536)
  = Some (wire_frame x01 (payload_of (pass_samples max_adc (Z.to_nat spf) p)),
          Z.of_nat (S p * Z.to_nat spf) mod 65536).
Proof.
  intros Hr Hm Hs. unfold VirtualSender.send_pass.
  rewrite gen_samples_eq by assumption. cbn [app].
  fold (pass_samples max_adc (Z.to_nat spf) p).
  replace (Z.of_nat (p * Z.to_nat spf) + Z.of_nat (Z.to_nat spf) + 1)
    with (Z.of_nat (p * Z.to_nat spf + Z.to_nat spf) + 1) by lia.
  fold (pass_samples max_adc (Z.to_nat spf) p).
  rewrite make_frame_wire by (rewrite pass_samples_len; lia).
  destruct (pause_returns rate spf Hr ltac:(lia)) as [-> ->].
  cbn [option_map].
  rewrite mask16_in_range by apply saw_sample_in_range, Hm.
  do 3 f_equal. lia.
Qed.

Lemma written_eq (rate spf max_adc : Z) (passes : nat) :
  0 < rate < 65536 -> 0 <= max_adc -> 0 <= spf <= 63 ->
  forall p0 : nat,
    VirtualSender.written (1 / to_float rate) spf max_adc passes
               (Z.of_nat (p0 * Z.to_nat spf) mod 65536)
    = Some (stream (pass_frames max_adc (Z.to_nat spf) p0 passes)).
Proof.
  intros Hr Hm Hs. induction passes as [|passes IH]; intros p0.
  - reflexivity.
  - cbn [VirtualSender.written]. rewrite send_pass_eq by assumption.
    rewrite (IH (S p0)). reflexivity.
Qed.

(** X11: at a rate from 1 to 65535, with 0 to 63 samples in a frame and
    [max_adc >= 0], the loop of the sender runs any number of passes
    (the interval is defined and every [time.sleep] returns), and what
    it writes, cut into chunks at arbitrary places and fed to a fresh
    parser, decodes to the counter values 1, 2, 3, ... modulo 65536, in
    order and without a gap, each with the reading
    [counter % (max_adc + 1)]; nothing is left in the buffer.  At rate 0
    nothing is written: the division raises. *)
Theorem sender_stream_decodes (rate spf max_adc : Z) (passes : nat) :
  0 < rate < 65536 -> 0 <= spf <= 63 -> 0 <= max_adc ->
  VirtualSender.main 0 spf max_adc passes = None /\
  exists sent,
    VirtualSender.main rate spf max_adc passes = Some sent /\
    forall chunks,
      concat chunks = sent ->
      exists rs,
        feed_all init chunks = Some (rs, init) /\
        samples_of rs
        = map (saw_sample max_adc)
              (py_range 1 (Z.of_nat (passes * Z.to_nat spf) + 1)).
Proof.
  intros Hr Hs Hm. split; [reflexivity|].
  exists (stream (pass_frames max_adc (Z.to_nat spf) 0 passes)). split.
  - unfold VirtualSender.main. destruct (interval_eq rate Hr) as [-> _].
    exact (written_eq rate spf max_adc passes Hr Hm Hs 0).
  - intros chunks Hc.
    exists (concat (map frame_entries (pass_frames max_adc (Z.to_nat spf) 0 passes))).
    split.
    + apply feed_all_stream; [apply pass_frames_fit; lia|exact Hc|].
      destruct (pass_frames max_adc (Z.to_nat spf) 0 passes);
        [reflexivity|apply wire_frame_nonempty].
    + rewrite pass_frames_samples by assumption. reflexivity.
Qed.

Lemma sender_stream_decodes_example :
  0 < 100 < 65536 /\ 0 <= 2 <= 63 /\ 0 <= 1023 /\
  VirtualSender.main 0 2 1023 3 = None /\
  exists sent,
    VirtualSender.main 100 2 1023 3 = Some sent /\
    forall chunks,
      concat chunks = sent ->
      exists rs,
        feed_all init chunks = Some (rs, init) /\
        samples_of rs
        = map (saw_sample 1023) (py_range 1 (Z.of_nat (3 * Z.to_nat 2) + 1)).
Proof.
  assert (H0 : 0 < 100 < 65536) by lia.
  assert (H1 : 0 <= 2 <= 63) by lia.
  assert (H2 : 0 <= 1023) by lia.
  exact (conj H0 (conj H1 (conj H2 (sender_stream_decodes 100 2 1023 3 H0 H1 H2)))).
Defined.

End SenderLoop.
